(** * rebalance.py: gradual CRUSH re-weighting, a shallow embedding

    The development follows [src/rebalance.py] function by function:
    the CRUSH tree and the path lookup ([find_nodes], [find_node]), the
    completion check ([is_rebalance_complete]), the settle wait
    ([wait_rebalance_to_complete]), the command sink
    ([request_weight_update]), the scheduler ([do_rebalance]) and the
    loader ([load_crush_tree]).

    The development has two parts.

    The first part computes with exact rationals and with commands that
    always succeed.  It carries the properties that depend neither on the
    rounding of floats nor on a failing command: the path lookup, the
    loader, the completion check, the waits, the order and the size of the
    batches, what a run does before its first change.
    - Weights, [step] and [min_weight_diff] are exact rationals ([Q]).
    - Python object identity of a [CrushNode] is its [id]:
      [load_crush_tree] stores one object per id in [nodes_map] and builds
      every [childs] list and the root list out of [nodes_map].
    - The one field mutated after loading, [node.weight], lives in a store
      indexed by node id, so two targets that resolve to the same node
      share the weight, as the Python objects do.
    - Side effects are recorded in a trace of events; the answers of the
      cluster are read from an environment.  Loops that wait for the
      cluster take fuel.

    The second part (module [F64]) embeds the scheduler again as the
    program computes it: weights are binary64 floats and a call of a
    collaborator can fail.  It carries the properties of the arithmetic
    (how far a step moves a weight, when a target is evicted, how many
    rounds service it, whether the loop ends), of failing commands, and
    of the exceptions the script raises. *)

From Stdlib Require Import ZArith QArith Qabs Qround Qminmax Lia Lqa String List.
From Stdlib Require Import SpecFloat.
From stdpp Require Import base option list gmap strings sorting pretty.

Open Scope string_scope.
Open Scope list_scope.
Open Scope Z_scope.

(** ** Topology model *)

(** [class CrushNode]: [weight] is [None] when the record has no
    [crush_weight]. *)
#[warnings="-register-all"] Inductive CrushNode : Type := mkCrushNode {
  id : Z;
  weight : option Q;
  name : string;
  type : string;
  childs : list CrushNode
}.

(** [class Crush]. *)
Record Crush : Type := mkCrush {
  nodes_map : gmap Z CrushNode;
  roots : list CrushNode
}.

(** A path is a list of [(type, name)] pairs, coarsest level first. *)
Definition Path : Type := list (string * string).

(** [node.type == tp and node.name == name] *)
Definition node_matches (seg : string * string) (node : CrushNode) : bool :=
  String.eqb (type node) (fst seg) && String.eqb (name node) (snd seg).

(** The [for tp, name in path[:-1]] loop of [find_nodes]: every candidate
    that matches the segment is replaced by its children. *)
Fixpoint descend (current_nodes : list CrushNode) (segs : Path)
  : list CrushNode :=
  match segs with
  | [] => current_nodes
  | seg :: rest =>
      descend
        (flat_map (fun node => if node_matches seg node then childs node else [])
                  current_nodes)
        rest
  end.

(** The final loop of [find_nodes]: keep the candidates that match. *)
Definition direct_matches (seg : string * string)
  (current_nodes : list CrushNode) : list CrushNode :=
  List.filter (node_matches seg) current_nodes.

Definition find_nodes (crush : Crush) (path : Path) : list CrushNode :=
  match path with
  | [] => roots crush
  | seg0 :: _ =>
      direct_matches (List.last path seg0)
                     (descend (roots crush) (List.removelast path))
  end.

(** Exceptions the embedded code raises.  [find_node] raises [IndexError]
    in both of its failure cases; the two are told apart by the message. *)
Inductive index_msg : Type :=
| CantFoundAnyNode (path : Path)
| FoundManyNodes (n : nat) (path : Path).

Inductive exn : Type :=
| IndexError (msg : index_msg)
| KeyError (key : string)
| ValueError (item : string)
| TypeError
| ZeroDivisionError.

Definition find_node (crush : Crush) (path : Path) : CrushNode + exn :=
  match find_nodes crush path with
  | [] => inr (IndexError (CantFoundAnyNode path))
  | [node] => inl node
  | nodes => inr (IndexError (FoundManyNodes (length nodes) path))
  end.

(** ** Python idioms used by the scheduler *)

(** [l[:n]] and [l[n:]] for an integer [n] that may be negative. *)
Definition py_take {A : Type} (n : Z) (l : list A) : list A :=
  if 0 <=? n then take (Z.to_nat n) l
  else take (Z.to_nat (Z.of_nat (length l) + n)) l.

Definition py_drop {A : Type} (n : Z) (l : list A) : list A :=
  if 0 <=? n then drop (Z.to_nat n) l
  else drop (Z.to_nat (Z.of_nat (length l) + n)) l.

(** [a < b] and [a > b] on weights. *)
Definition Qltb (a b : Q) : bool := negb (Qle_bool b a).
Definition Qgtb (a b : Q) : bool := Qltb b a.

(** [math.copysign(x, y)]: the magnitude of [x] with the sign of [y]
    (no negative zero in [Q]). *)
Definition copysign (x y : Q) : Q :=
  if Qltb y 0 then - Qabs x else Qabs x.

(** [int(f + 0.5)] for an integral float [f]: truncation towards zero. *)
Definition int_plus_half (f : Z) : Z := if 0 <=? f then f else f + 1.

Definition default_zone_order : list string :=
  ["osd"; "host"; "chassis"; "rack"; "row"; "pdu";
   "pod"; "room"; "datacenter"; "region"; "root"].

(** [lst.index(x)] *)
Fixpoint index_of (x : string) (lst : list string) : option nat :=
  match lst with
  | [] => None
  | y :: rest => if String.eqb y x then Some O else S <$> index_of x rest
  end.

(** The sort key [-default_zone_order.index(x[0])]. *)
Definition zone_key (x : string * string) : Z + exn :=
  match index_of (fst x) default_zone_order with
  | Some i => inl (- Z.of_nat i)
  | None => inr (ValueError (fst x))
  end.

(** [list.sort(key=...)] computes every key first, in list order, and
    then sorts stably by ascending key. *)
Fixpoint keyed (path : Path) : list (Z * (string * string)) + exn :=
  match path with
  | [] => inl []
  | x :: rest =>
      match zone_key x with
      | inr e => inr e
      | inl k =>
          match keyed rest with
          | inr e => inr e
          | inl ks => inl ((k, x) :: ks)
          end
      end
  end.

Fixpoint insert_by_key {A : Type} (x : Z * A) (sorted : list (Z * A))
  : list (Z * A) :=
  match sorted with
  | [] => [x]
  | y :: rest =>
      if fst x <=? fst y then x :: y :: rest else y :: insert_by_key x rest
  end.

Definition stable_sort {A : Type} (l : list (Z * A)) : list (Z * A) :=
  foldr insert_by_key [] l.

Definition sort_path (path : Path) : Path + exn :=
  match keyed path with
  | inr e => inr e
  | inl ks => inl (snd <$> stable_sort ks)
  end.

(** ** Effects: commands, messages, events *)

(** Temporary files: the k-th call of [tmpnam()]. *)
Definition tmpfile : Type := nat.

(** The command lines handed to [run]. *)
Inductive command : Type :=
| ceph_osd_tree
| ceph_pg_stat
| ceph_osd_crush_set (node_name : string) (new_weight : Q) (path_s : Path)
| ceph_osd_getmap (osd_map_f : tmpfile)
| osdmaptool_export_crush (crush_map_f osd_map_f : tmpfile)
| crushtool_update_item (crush_map_f : tmpfile) (node_id : Z)
    (new_weight : Q) (node_name : string) (loc : Path)
| osdmaptool_import_crush (crush_map_f osd_map_new_f : tmpfile).

(** What [print] is called with. *)
Inductive message : Type :=
| msg_cmd (cmd : command)
| msg_target (node : CrushNode) (new_weight : Q)
| msg_nothing_to_change
| msg_total_sum (total_weight_change : Q)
| msg_total_bytes (total_send : Z)
| msg_total_pg (total_moved_pg : Z)
| msg_waiting
| msg_dot
| msg_done
| msg_done_percent (percent : Z).

Inductive event : Type :=
| Run (cmd : command)
| Print (msg : message)
| Sleep (seconds : Z)
| Tmpnam
| Copy (src dst : tmpfile)
| CalculateRemap (osd_map_f osd_map_new_f : tmpfile).

(** What the cluster answers.  [osd_tree] is the crush tree that
    [load_crush_tree] builds from the answer to [ceph osd tree];
    [pg_stat k] is the ['num_pg_by_state'] list of the k-th answer to
    [ceph pg stat]; [osd_changes] is the result of [calculate_remap], one
    [(osd_id, (bytes_in, pg_in))] per osd.  Commands do not fail. *)
Record Env : Type := mkEnv {
  osd_tree : Crush;
  pg_stat : nat -> list (string * Z);
  osd_changes : list (Z * (Z * Z))
}.

(** The state of a run: the events so far, the number of [ceph pg stat]
    queries so far, and the weights assigned to nodes ([node.weight = ...]),
    by node id. *)
Record world : Type := mkWorld {
  trace : list event;
  polls : nat;
  weights : gmap Z Q
}.

Definition init_world : world :=
  {| trace := []; polls := O; weights := ∅ |}.

(** [node.weight]: the last assigned weight, else the loaded one. *)
Definition cur_weight (w : world) (node : CrushNode) : option Q :=
  match weights w !! id node with
  | Some q => Some q
  | None => weight node
  end.

(** A computation returns, raises, or runs out of fuel. *)
Inductive result (A : Type) : Type :=
| Ret (a : A) (w : world)
| Raise (e : exn) (w : world)
| OutOfFuel.
Arguments Ret {A} a w.
Arguments Raise {A} e w.
Arguments OutOfFuel {A}.

Definition M (A : Type) : Type := world -> result A.

Definition ret {A : Type} (a : A) : M A := fun w => Ret a w.
Definition raise {A : Type} (e : exn) : M A := fun w => Raise e w.
Definition out_of_fuel {A : Type} : M A := fun _ => OutOfFuel.

Definition bind {A B : Type} (m : M A) (k : A -> M B) : M B :=
  fun w =>
    match m w with
    | Ret a w' => k a w'
    | Raise e w' => Raise e w'
    | OutOfFuel => OutOfFuel
    end.

Notation "x <- m ;; k" := (bind m (fun x => k))
  (at level 20, m at level 99, k at level 200, only parsing).
Notation "'do' m ;; k" := (bind m (fun _ => k))
  (at level 20, m at level 99, k at level 200, only parsing).

Definition lift {A : Type} (r : A + exn) : M A :=
  match r with
  | inl a => ret a
  | inr e => raise e
  end.

Definition emit (e : event) : M unit :=
  fun w => Ret tt {| trace := trace w ++ [e];
                     polls := polls w;
                     weights := weights w |}.

Definition run (cmd : command) : M unit := emit (Run cmd).
Definition print (msg : message) : M unit := emit (Print msg).
Definition sleep (seconds : Z) : M unit := emit (Sleep seconds).

(** [for x in xs: st = body(x, st)] *)
Fixpoint for_each {A S : Type} (body : A -> S -> M S) (xs : list A) (st : S)
  : M S :=
  match xs with
  | [] => ret st
  | x :: rest => st' <- body x st ;; for_each body rest st'
  end.

(** ** Configuration *)

(** One entry of [config['osds']]: the location items of the dictionary,
    in item order, and its ['weight'] item when present. *)
Record osd_entry : Type := mkEntry {
  location : list (string * string);
  entry_weight : option Q
}.

Record Config : Type := mkConfig {
  max_reweight : option Z;
  step : option Q;
  min_weight_diff : option Q;
  osd_selection : option string;
  osds : list osd_entry
}.

Record Args : Type := mkArgs {
  estimate_only : bool;
  no_estimate : bool
}.

(** An element of [rebalance_nodes]: [(node, path, new_weight)]. *)
Definition target : Type := CrushNode * Path * Q.

(** [rnode is node] *)
Definition same_node (a b : CrushNode) : bool := id a =? id b.

(** The variables a round of the scheduler updates. *)
Record loop_state : Type := mkLoop {
  rebalance_nodes : list target;
  any_updates : bool;
  already_changed : Q
}.

(** ** Completion monitor and scheduler *)

Section Rebalance.
Variable env : Env.
(** The module global [BE_QUIET]. *)
Variable BE_QUIET : bool.

(** [if not BE_QUIET: print(msg)] *)
Definition info (msg : message) : M unit :=
  if BE_QUIET then ret tt else print msg.

(** The loop of [is_rebalance_complete] over ['num_pg_by_state']. *)
Fixpoint all_settled (num_pg_by_state : list (string * Z)) : bool :=
  match num_pg_by_state with
  | [] => true
  | dct :: rest =>
      if negb (String.eqb (fst dct) "active+clean") && negb (snd dct =? 0)
      then false
      else all_settled rest
  end.

Definition is_rebalance_complete : M bool :=
  fun w =>
    Ret (all_settled (pg_stat env (polls w)))
        {| trace := trace w ++ [Run ceph_pg_stat];
           polls := S (polls w);
           weights := weights w |}.

Definition request_weight_update (node : CrushNode) (path : Path)
  (new_weight : Q) : M unit :=
  let cmd := ceph_osd_crush_set (name node) new_weight (removelast path) in
  do info (msg_cmd cmd) ;;
  run cmd.

(** [while not is_rebalance_complete(): ...; time.sleep(5)] *)
Fixpoint poll_until_complete (fuel : nat) : M unit :=
  match fuel with
  | O => out_of_fuel
  | S fuel' =>
      complete <- is_rebalance_complete ;;
      if complete then ret tt
      else
        do info msg_dot ;;
        do sleep 5 ;;
        poll_until_complete fuel'
  end.

Definition wait_rebalance_to_complete (fuel : nat) (any_updates : bool)
  : M unit :=
  settled <- (if negb any_updates then is_rebalance_complete
              else ret false) ;;
  if settled then ret tt
  else
    do info msg_waiting ;;
    do (if any_updates then sleep 5 else ret tt) ;;
    do poll_until_complete fuel ;;
    info msg_done.

(** Reading and assigning [node.weight]; arithmetic on [None] raises. *)
Definition read_weight (node : CrushNode) : M Q :=
  fun w =>
    match cur_weight w node with
    | Some q => Ret q w
    | None => Raise TypeError w
    end.

Definition set_weight (node : CrushNode) (new_weight : Q) : M unit :=
  fun w =>
    Ret tt {| trace := trace w;
              polls := polls w;
              weights := <[id node := new_weight]> (weights w) |}.

Section Loop.
Variable max_nodes_per_round : Z.
Variable max_weight_change : Q.
Variable min_weight_diff' : Q.
Variable selection_algo : string.
Variable total_weight_change : Q.

(** Lines 272-275: the signed, clamped change. *)
Definition clamped_change (required_weight node_weight : Q) : Q :=
  let weight_change := (required_weight - node_weight)%Q in
  if Qgtb (Qabs weight_change) max_weight_change
  then copysign max_weight_change weight_change
  else weight_change.

(** Lines 283-285: the queue without the entries of [node]. *)
Definition evict (node : CrushNode) (queue : list target) : list target :=
  List.filter (fun t => negb (same_node (fst (fst t)) node)) queue.

(** The body of [for node, path, required_weight in next_nodes]. *)
Definition service (t : target) (st : loop_state) : M loop_state :=
  let '(node, path, required_weight) := t in
  node_weight <- read_weight node ;;
  let weight_change := clamped_change required_weight node_weight in
  let new_weight := (node_weight + weight_change)%Q in
  any <- (if Qgtb (Qabs weight_change) min_weight_diff'
          then do request_weight_update node path new_weight ;; ret true
          else ret (any_updates st)) ;;
  let queue :=
    if Qltb (Qabs (new_weight - required_weight)) min_weight_diff'
    then evict node (rebalance_nodes st)
    else rebalance_nodes st in
  do set_weight node new_weight ;;
  ret {| rebalance_nodes := queue;
         any_updates := any;
         already_changed := (already_changed st + Qabs weight_change)%Q |}.

(** Lines 260-262. *)
Definition report_progress (already_changed : Q) : M unit :=
  if BE_QUIET then ret tt
  else if Qgtb already_changed min_weight_diff' then
    if Qeq_bool total_weight_change 0 then raise ZeroDivisionError
    else
      print (msg_done_percent
               (int_plus_half
                  (Qfloor (already_changed * 100 / total_weight_change))))
  else ret tt.

(** Lines 264-268: the batch and the queue after the roll. *)
Definition next_batch (queue : list target) : list target :=
  py_take max_nodes_per_round queue.

Definition roll (queue : list target) : list target :=
  if String.eqb selection_algo "rround"
  then py_drop max_nodes_per_round queue ++ next_batch queue
  else queue.

(** One iteration of [while rebalance_nodes], lines 258-290.  Besides
    the new loop state it returns the batch it serviced. *)
Definition round (fuel : nat) (st : loop_state)
  : M (list target * loop_state) :=
  do wait_rebalance_to_complete fuel (any_updates st) ;;
  do report_progress (already_changed st) ;;
  let next_nodes := next_batch (rebalance_nodes st) in
  st' <- for_each service next_nodes
           {| rebalance_nodes := roll (rebalance_nodes st);
              any_updates := false;
              already_changed := already_changed st |} ;;
  ret (next_nodes, st').

(** [while rebalance_nodes: ...].  The value returned is the history
    of [next_nodes], one batch per iteration, and the last loop state;
    the history is kept for the statements about rounds only. *)
Fixpoint rebalance_loop (fuel : nat) (st : loop_state)
  : M (list (list target) * loop_state) :=
  match rebalance_nodes st with
  | [] => ret ([], st)
  | _ :: _ =>
      match fuel with
      | O => out_of_fuel
      | S fuel' =>
          r <- round fuel' st ;;
          rs <- rebalance_loop fuel' (snd r) ;;
          ret (fst r :: fst rs, snd rs)
      end
  end.

(** Lines 256-292: the loop and the final wait. *)
Definition schedule (fuel : nat) (queue : list target)
  : M (list (list target)) :=
  rs <- rebalance_loop fuel
          {| rebalance_nodes := queue;
             any_updates := false;
             already_changed := 0 |} ;;
  do wait_rebalance_to_complete fuel false ;;
  ret (fst rs).
End Loop.

(** Lines 205-215: resolve every configured entry, in order. *)
Fixpoint resolve_targets (crush : Crush) (entries : list osd_entry)
  (rebalance_nodes : list target) (total_weight_change : Q)
  : M (list target * Q) :=
  match entries with
  | [] => ret (rebalance_nodes, total_weight_change)
  | entry :: rest =>
      new_weight <- (match entry_weight entry with
                     | Some q => ret q
                     | None => raise (KeyError "weight")
                     end) ;;
      path <- lift (sort_path (location entry)) ;;
      node <- lift (find_node crush path) ;;
      let rebalance_nodes := rebalance_nodes ++ [(node, path, new_weight)] in
      total <- (if BE_QUIET then ret total_weight_change
                else
                  do print (msg_target node new_weight) ;;
                  node_weight <- read_weight node ;;
                  ret (total_weight_change
                       + Qabs (node_weight - new_weight))%Q) ;;
      resolve_targets crush rest rebalance_nodes total
  end.

(** Lines 225-248: the estimate of the data to be moved. *)
Definition estimate (rebalance_nodes : list target) : M unit :=
  let osd_map_f := 0%nat in
  let crush_map_f := 1%nat in
  let osd_map_new_f := 2%nat in
  do emit Tmpnam ;;
  do run (ceph_osd_getmap osd_map_f) ;;
  do emit Tmpnam ;;
  do run (osdmaptool_export_crush crush_map_f osd_map_f) ;;
  do for_each
       (fun t (_ : unit) =>
          let '(node, path, new_weight) := t in
          run (crushtool_update_item crush_map_f (id node) new_weight
                 (name node) path))
       rebalance_nodes tt ;;
  do emit Tmpnam ;;
  do emit (Copy osd_map_f osd_map_new_f) ;;
  do run (osdmaptool_import_crush crush_map_f osd_map_new_f) ;;
  do emit (CalculateRemap osd_map_f osd_map_new_f) ;;
  let total_send :=
    foldl (fun acc c => acc + fst (snd c)) 0 (osd_changes env) in
  let total_moved_pg :=
    foldl (fun acc c => acc + snd (snd c)) 0 (osd_changes env) in
  do print (msg_total_bytes total_send) ;;
  print (msg_total_pg total_moved_pg).

(** [do_rebalance(config, args)].  It returns the history of the
    batches its loop serviced (empty when it returns before the loop). *)
Definition do_rebalance (fuel : nat) (config : Config) (args : Args)
  : M (list (list target)) :=
  do run ceph_osd_tree ;;
  let crush := osd_tree env in
  let max_nodes_per_round := default 4 (max_reweight config) in
  let max_weight_change := default (1 # 2)%Q (step config) in
  let min_weight_diff := default (1 # 100)%Q (min_weight_diff config) in
  let selection_algo := default "rround" (osd_selection config) in
  r <- resolve_targets crush (osds config) [] 0%Q ;;
  let rebalance_nodes := fst r in
  let total_weight_change := snd r in
  nothing <- (if BE_QUIET then ret false
              else if Qltb total_weight_change min_weight_diff
                   then do print msg_nothing_to_change ;; ret true
                   else do print (msg_total_sum total_weight_change) ;;
                        ret false) ;;
  if (nothing : bool) then ret []
  else
    stop <- (if no_estimate args then ret false
             else do estimate rebalance_nodes ;; ret (estimate_only args)) ;;
    if (stop : bool) then ret []
    else
      schedule max_nodes_per_round max_weight_change min_weight_diff
               selection_algo total_weight_change fuel rebalance_nodes.
End Rebalance.

(** * Vocabulary of the statements *)

(** ** Traces and outcomes *)

(** The parts of a target. *)
Definition node_of (t : target) : CrushNode := fst (fst t).
Definition desired (t : target) : Q := snd t.
Definition ids_of (ts : list target) : list Z :=
  List.map (fun t => id (node_of t)) ts.

(** The events one service step adds to the trace. *)
Definition update_events (quiet : bool) (issue : bool) (cmd : command)
  : list event :=
  if issue
  then (if quiet then [] else [Print (msg_cmd cmd)]) ++ [Run cmd]
  else [].

(** The weight-update commands of a trace. *)
Definition is_update (e : event) : bool :=
  match e with
  | Run (ceph_osd_crush_set _ _ _) => true
  | _ => false
  end.

Definition count_updates (tr : list event) : nat :=
  length (List.filter is_update tr).

(** The weights of the weight-update commands of a trace, in order. *)
Definition issued_weights (tr : list event) : list Q :=
  flat_map (fun e => match e with
                     | Run (ceph_osd_crush_set _ new_weight _) => [new_weight]
                     | _ => []
                     end) tr.

(** [grows P w r]: when [r] ends in a world, that world's trace is the
    trace of [w] followed by events satisfying [P]. *)
Definition grows {A : Type} (P : list event -> Prop) (w : world)
  (r : result A) : Prop :=
  match r with
  | Ret _ w' | Raise _ w' => exists added, trace w' = trace w ++ added /\ P added
  | OutOfFuel => True
  end.

(** [inert m]: [m] assigns no weight and issues no weight update. *)
Definition inert {A : Type} (m : M A) : Prop :=
  forall w,
    match m w with
    | Ret _ w' | Raise _ w' =>
        weights w' = weights w
        /\ exists added, trace w' = trace w ++ added
                         /\ count_updates added = 0%nat
    | OutOfFuel => True
    end.


Definition with_trace (w : world) (added : list event) : world :=
  {| trace := trace w ++ added; polls := polls w; weights := weights w |}.

(** The cluster settles again and again: after every query there is a
    later one that is answered "settled". *)
Definition settles (env : Env) : Prop :=
  forall n, exists m, (n <= m)%nat /\ all_settled (pg_stat env m) = true.

(** [returns f w a w']: with enough fuel, [f] run from [w] returns [a] in
    [w']. *)
Definition returns {A : Type} (f : nat -> M A) (w : world) (a : A)
  (w' : world) : Prop :=
  exists N, forall fuel, (N <= fuel)%nat -> f fuel w = Ret a w'.

(** ** Targets, distances and rounds *)

(** The number of rounds a target at distance [|W - W0|] is serviced. *)
Definition rounds_needed (S E W W0 : Q) : nat :=
  Z.to_nat (Z.max 1 (Qfloor ((Qabs (W - W0) - E) / S) + 1)).


(** Whether servicing [t] in world [w] makes it converge. *)
Definition converges (S E : Q) (w : world) (t : target) : bool :=
  match cur_weight w (node_of t) with
  | Some W0 =>
      Qltb (Qabs (W0 + clamped_change S (desired t) W0 - desired t)) E
  | None => false
  end.

(** Whether [t] is the node of a member of [batch] that converges. *)
Definition evicted_by (S E : Q) (w : world) (batch : list target)
  (t : target) : bool :=
  existsb (fun b => same_node (node_of t) (node_of b) && converges S E w b)
          batch.





(** ** The plan of a queue of distinct nodes *)

(** A plan pairs every queued target with the number of services it still
    needs.  One round services the batch, drops its members that needed
    one service and keeps the others with one service less. *)
Definition plan : Type := list (target * nat).





(** [planned S E w p]: the nodes of [p] are distinct, have a weight in [w],
    and need the services [p] records. *)
Definition planned (S E : Q) (w : world) (p : plan) : Prop :=
  List.NoDup (ids_of (List.map fst p))
  /\ forall t k, In (t, k) p ->
       exists W0, cur_weight w (node_of t) = Some W0
                  /\ rounds_needed S E (desired t) W0 = k.

(** A plan is well formed when its nodes are distinct and every count is
    positive. *)
Definition well_formed (p : plan) : Prop :=
  List.NoDup (ids_of (List.map fst p))
  /\ forall t k, In (t, k) p -> (1 <= k)%nat.


(** ** A sample cluster *)

(** Three hosts with one osd each, all of weight 0.5, under one root; a
    cluster that always reports every placement group [active+clean]. *)
Definition osd_0 : CrushNode :=
  mkCrushNode 0 (Some (1 # 2)%Q) "osd.0" "osd" [].
Definition osd_1 : CrushNode :=
  mkCrushNode 1 (Some (1 # 2)%Q) "osd.1" "osd" [].
Definition osd_2 : CrushNode :=
  mkCrushNode 2 (Some (1 # 2)%Q) "osd.2" "osd" [].
Definition host_0 : CrushNode :=
  mkCrushNode (-2) None "osd-0" "host" [osd_0].
Definition host_1 : CrushNode :=
  mkCrushNode (-3) None "osd-1" "host" [osd_1].
Definition host_2 : CrushNode :=
  mkCrushNode (-4) None "osd-2" "host" [osd_2].
Definition root_default : CrushNode :=
  mkCrushNode (-1) None "default" "root" [host_0; host_1; host_2].

Definition sample_crush : Crush :=
  mkCrush
    (list_to_map
       (List.map (fun nd => (id nd, nd))
          [root_default; host_0; host_1; host_2; osd_0; osd_1; osd_2]))
    [root_default].

(** A second topology, with two roots of the same type and name. *)
Definition twin_root : CrushNode :=
  mkCrushNode (-5) None "default" "root" [].

Definition two_roots_crush : Crush :=
  mkCrush (list_to_map [(-1, root_default); (-5, twin_root)])
          [root_default; twin_root].

Definition settled_env : Env :=
  mkEnv sample_crush (fun _ => [("active+clean", 64)]) [].

(** A configuration entry as the YAML file lists it, and its sorted path. *)
Definition entry_of (osd host : string) (W : Q) : osd_entry :=
  mkEntry [("osd", osd); ("root", "default"); ("host", host)] (Some W).

Definition path_of (osd host : string) : Path :=
  [("root", "default"); ("host", host); ("osd", osd)].

Definition sample_config (n : Z) (S E : Q) (entries : list osd_entry)
  : Config :=
  mkConfig (Some n) (Some S) (Some E) None entries.

Definition no_estimate_args : Args :=
  {| estimate_only := false; no_estimate := true |}.

Definition target_0 (W : Q) : target := (osd_0, path_of "osd.0" "osd-0", W).
Definition target_1 (W : Q) : target := (osd_1, path_of "osd.1" "osd-1", W).

Definition fresh_loop (queue : list target) : loop_state :=
  {| rebalance_nodes := queue; any_updates := false; already_changed := 0 |}.

(** ** Footprints of a computation *)

(** [footprint P w w']: from [w] to [w'] no weight was assigned, no health
    query was made, and the events added to the trace all satisfy [P]. *)
Definition footprint (P : event -> Prop) (w w' : world) : Prop :=
  weights w' = weights w
  /\ polls w' = polls w
  /\ exists added, trace w' = trace w ++ added /\ Forall P added.

(** [passive P Q m]: [m] ends without fuel, with footprint [P], and when it
    returns its value satisfies [Q]. *)
Definition passive {A : Type} (P : event -> Prop) (Q : A -> Prop) (m : M A)
  : Prop :=
  forall w,
    match m w with
    | Ret a w' => footprint P w w' /\ Q a
    | Raise _ w' => footprint P w w'
    | OutOfFuel => False
    end.

(** [raises_only ok m]: every exception [m] raises satisfies [ok]. *)
Definition raises_only {A : Type} (ok : exn -> Prop) (m : M A) : Prop :=
  forall w e w', m w = Raise e w' -> ok e.

(** Events that leave the cluster as it is and do not ask for its health:
    everything but a weight update, a health query and a sleep. *)
Definition read_only_event (e : event) : Prop :=
  match e with
  | Run (ceph_osd_crush_set _ _ _) | Run ceph_pg_stat | Sleep _ => False
  | _ => True
  end.

(** The topology query and the printed lines: all that a run emits before
    it has resolved its targets. *)
Definition resolution_event (e : event) : Prop :=
  match e with
  | Run ceph_osd_tree | Print _ => True
  | _ => False
  end.

(** The exceptions of a configuration that does not fit the topology. *)
Definition configuration_error (e : exn) : Prop :=
  match e with
  | IndexError _ | KeyError _ | ValueError _ => True
  | _ => False
  end.

(** The exceptions the loop itself can raise. *)
Definition runtime_error (e : exn) : Prop :=
  e = TypeError \/ e = ZeroDivisionError.

(** [issues_nothing m]: whatever [m] adds to the trace, it holds no weight
    update. *)
Definition issues_nothing {A : Type} (m : M A) : Prop :=
  forall w, grows (fun added => count_updates added = 0%nat) w (m w).

(** The seconds slept and the health queries made in a trace. *)
Definition slept (tr : list event) : Z :=
  foldr (fun e acc => match e with Sleep s => s + acc | _ => acc end) 0 tr.

Definition health_queries (tr : list event) : nat :=
  length (List.filter (fun e => match e with
                                | Run ceph_pg_stat => true
                                | _ => false
                                end) tr).

(** The rank of a location key: its index in [default_zone_order]
    (0 when it is not listed). *)
Definition zone_rank (x : string * string) : nat :=
  default O (index_of (fst x) default_zone_order).

(** [coarser_first a b]: [a] is at a level at least as coarse as [b]. *)
Definition coarser_first (a b : string * string) : Prop :=
  (zone_rank b <= zone_rank a)%nat.

(** [reaches start segs node]: [node] ends a chain that starts at a member
    of [start], goes from parent to child, and whose nodes before [node]
    match the segments [segs] one by one. *)
Fixpoint reaches (start : list CrushNode) (segs : Path) (node : CrushNode)
  : Prop :=
  match segs with
  | [] => In node start
  | seg :: rest =>
      exists parent,
        In parent start
        /\ node_matches seg parent = true
        /\ reaches (childs parent) rest node
  end.

(** ** The loader *)

(** [load_crush_tree] links the records of [ceph osd tree] into an object
    graph: one [CrushNode] object per id, the [childs] of an object being
    references to other objects of [nodes_map].  The graph is modelled
    flat, a reference being the id of the object it points to, so that a
    tree in which a node is listed twice, or that has a cycle, is loaded
    as the code loads it.  The [Crush] of the lookup functions above is
    this graph with every reference replaced by the object it points to. *)

(** One record of the ['nodes'] array of [ceph osd tree -f json], parsed:
    [id], [name] and [type] are present in every record ceph prints;
    [crush_weight] and [children] may be missing. *)
Record node_js : Type := mkNodeJs {
  js_id : Z;
  js_name : string;
  js_type : string;
  js_crush_weight : option Q;
  js_children : option (list Z)
}.

(** A [CrushNode] object while the tree is being linked.  [childs] holds
    references to objects of [nodes_map]; the reference to
    [nodes_map[k]] is written [k]. *)
Record NodeObj : Type := mkNodeObj {
  obj_id : Z;
  obj_weight : option Q;
  obj_name : string;
  obj_type : string;
  obj_childs : list Z
}.

(** The loaded [Crush] object.  The roots are listed in the iteration
    order of a Python set, which is left open: they are kept as a set. *)
Record CrushObj : Type := mkCrushObj {
  obj_nodes_map : gmap Z NodeObj;
  obj_roots : gset Z
}.

(** [CrushNode(id=..., name=..., type=..., weight=...)]. *)
Definition new_node (n : node_js) : NodeObj :=
  {| obj_id := js_id n;
     obj_weight := js_crush_weight n;
     obj_name := js_name n;
     obj_type := js_type n;
     obj_childs := [] |}.

Definition children_of (n : node_js) : list Z :=
  default [] (js_children n).

Definition with_childs (refs : list Z) (node : NodeObj) : NodeObj :=
  {| obj_id := obj_id node;
     obj_weight := obj_weight node;
     obj_name := obj_name node;
     obj_type := obj_type node;
     obj_childs := refs |}.

(** [childs_ids], a dict in insertion order: [d[k] = v] replaces the
    value of a key that is there and appends a new key. *)
Fixpoint dict_set (k : Z) (v : list Z) (d : list (Z * list Z))
  : list (Z * list Z) :=
  match d with
  | [] => [(k, v)]
  | (k', v') :: rest =>
      if Z.eqb k' k then (k, v) :: rest else (k', v') :: dict_set k v rest
  end.

Fixpoint dict_get (k : Z) (d : list (Z * list Z)) : option (list Z) :=
  match d with
  | [] => None
  | (k', v') :: rest => if Z.eqb k' k then Some v' else dict_get k rest
  end.

(** The first loop of [load_crush_tree]: one object per record. *)
Definition first_pass (nodes : list node_js)
  : gmap Z NodeObj * list (Z * list Z) :=
  foldl (fun acc node_js =>
           let node := new_node node_js in
           let childs_ids := dict_set (obj_id node) (children_of node_js) (snd acc) in
           let nodes_map := <[obj_id node := node]> (fst acc) in
           (nodes_map, childs_ids))
        (∅, []) nodes.

(** [[nodes_map[node_id] for node_id in childs_ids]]. *)
Fixpoint node_refs (nodes_map : gmap Z NodeObj) (childs_ids : list Z)
  : list Z + exn :=
  match childs_ids with
  | [] => inl []
  | node_id :: rest =>
      match nodes_map !! node_id with
      | None => inr (KeyError (pretty node_id))
      | Some _ =>
          match node_refs nodes_map rest with
          | inl refs => inl (node_id :: refs)
          | inr e => inr e
          end
      end
  end.

(** The second loop: the [childs] of every object, and the set of all
    ids that are somebody's child. *)
Fixpoint second_pass (nodes_map : gmap Z NodeObj)
  (items : list (Z * list Z)) (all_childs : gset Z)
  : (gmap Z NodeObj * gset Z) + exn :=
  match items with
  | [] => inl (nodes_map, all_childs)
  | (parent_id, childs_ids) :: rest =>
      match node_refs nodes_map childs_ids with
      | inr e => inr e
      | inl refs =>
          match nodes_map !! parent_id with
          | None => inr (KeyError (pretty parent_id))
          | Some parent =>
              second_pass (<[parent_id := with_childs refs parent]> nodes_map)
                          rest (all_childs ∪ list_to_set childs_ids)
          end
      end
  end.

(** [load_crush_tree], from the parsed ['nodes'] array. *)
Definition load_crush_tree (nodes : list node_js) : CrushObj + exn :=
  let '(nodes_map, childs_ids) := first_pass nodes in
  match second_pass nodes_map childs_ids ∅ with
  | inr e => inr e
  | inl (nodes_map, all_childs) =>
      inl {| obj_nodes_map := nodes_map;
             obj_roots := dom nodes_map ∖ all_childs |}
  end.

(** The record that counts for an id: the last one that carries it. *)
Definition record_of (nodes : list node_js) (i : Z) : option node_js :=
  last (filter (fun n => js_id n = i) nodes).

(** The object the loader makes of a record. *)
Definition linked_node (n : node_js) : NodeObj :=
  with_childs (children_of n) (new_node n).

(** ** Further sample inputs *)

Definition estimate_args : Args :=
  {| estimate_only := true; no_estimate := false |}.

(** An entry without weight, and an entry that names a host bucket. *)
Definition weightless_entry : osd_entry :=
  mkEntry [("osd", "osd.0"); ("root", "default"); ("host", "osd-0")] None.

Definition host_entry (W : Q) : osd_entry :=
  mkEntry [("host", "osd-0"); ("root", "default")] (Some W).

(** A cluster that never settles, and one that settles at its third
    answer. *)
Definition unsettled_env : Env :=
  mkEnv sample_crush
        (fun _ => [("active+clean", 60); ("active+remapped", 4)]) [].

Definition settles_late_env : Env :=
  mkEnv sample_crush
        (fun k => if (k <? 2)%nat
                  then [("active+clean", 60); ("active+remapped", 4)]
                  else [("active+clean", 64)]) [].

(** The records of the sample cluster; the same with a child that no
    record carries; and two buckets that list each other. *)
Definition sample_nodes : list node_js :=
  [ mkNodeJs (-1) "default" "root" None (Some [-2; -3; -4]);
    mkNodeJs (-2) "osd-0" "host" None (Some [0]);
    mkNodeJs 0 "osd.0" "osd" (Some (1 # 2)%Q) None;
    mkNodeJs (-3) "osd-1" "host" None (Some [1]);
    mkNodeJs 1 "osd.1" "osd" (Some (1 # 2)%Q) None;
    mkNodeJs (-4) "osd-2" "host" None (Some [2]);
    mkNodeJs 2 "osd.2" "osd" (Some (1 # 2)%Q) None ].

Definition dangling_nodes : list node_js :=
  [ mkNodeJs (-1) "default" "root" None (Some [-2]);
    mkNodeJs (-2) "osd-0" "host" None (Some [0; 7]);
    mkNodeJs 0 "osd.0" "osd" (Some (1 # 2)%Q) None ].

Definition cyclic_nodes : list node_js :=
  [ mkNodeJs (-1) "a" "root" None (Some [-2]);
    mkNodeJs (-2) "b" "host" None (Some [-1]) ].

(** The state in which the wait on [settles_late_env] ends. *)
Definition late_world : world :=
  {| trace := [Run ceph_pg_stat; Run ceph_pg_stat; Sleep 5; Run ceph_pg_stat];
     polls := 3;
     weights := ∅ |}.

(** * The scheduler in binary64 arithmetic, with commands that can fail *)

(** The embedding above computes weights as exact rationals and its
    commands always succeed.  The program computes with Python floats
    (IEEE 754 binary64, round to nearest, ties to even), and [run] raises
    when a command fails.  This part embeds the scheduler a second time,
    with both.

    - A float is a [spec_float] of the Standard Library, with its
      operations at precision 53 and maximal exponent 1024.
    - The numbers of the inputs stay as they are written: the [weight] of a
      [CrushNode], the [weight] of a configuration entry, [step] and
      [min_weight_diff] are the decimal literals of the JSON and YAML text,
      and [fl] gives the double that the parser makes of a literal.
    - Every value the program computes (the weight assigned to a node,
      [already_changed], [total_weight_change]) is a float.
    - The k-th call of a collaborator ([run], [tmpnam], [shutil.copy],
      [calculate_remap]) fails when the environment says so; the failure
      is an exception that nothing catches.
    - The topology, the paths, the configuration and the targets are those
      of the first part. *)
Module F64.

(** ** Floats *)

Definition float : Type := spec_float.
Definition prec : Z := 53.
Definition emax : Z := 1024.

Definition fadd : float -> float -> float := SFadd prec emax.
Definition fsub : float -> float -> float := SFsub prec emax.
Definition fabs : float -> float := SFabs.
Definition fzero : float := S754_zero false.

(** [a < b], [a > b] and [a == b]: false when an operand is a NaN. *)
Definition fltb (a b : float) : bool := SFltb a b.
Definition fgtb (a b : float) : bool := SFltb b a.
Definition feqb (a b : float) : bool := SFeqb a b.
Definition fleb (a b : float) : bool := SFleb a b.

Definition is_nan (x : float) : bool :=
  match x with
  | S754_nan => true
  | _ => false
  end.

(** The double nearest to a rational, ties to even: the correctly rounded
    quotient of the numerator by the denominator. *)
Definition fl (q : Q) : float :=
  match Qnum q with
  | Z0 => S754_zero false
  | Zpos n =>
      let '(m, e, l) :=
        SFdiv_core_binary prec emax (Zpos n) 0 (Zpos (Qden q)) 0 in
      binary_round_aux prec emax false m e l
  | Zneg n =>
      let '(m, e, l) :=
        SFdiv_core_binary prec emax (Zpos n) 0 (Zpos (Qden q)) 0 in
      binary_round_aux prec emax true m e l
  end.

(** The exact value of a finite float (0 for the others). *)
Definition value (x : float) : Q :=
  match x with
  | S754_finite s m e =>
      let n := if s then Zneg m else Zpos m in
      if 0 <=? e then inject_Z (n * 2 ^ e)
      else (n # Z.to_pos (2 ^ (- e)))%Q
  | _ => 0%Q
  end.

(** The place of a number in the order of the floats: infinities at the
    ends, then sign, exponent and mantissa. *)
Definition order_key (x : float) : Z * Z * Z :=
  match x with
  | S754_infinity true => (-2, 0, 0)
  | S754_finite true m e => (-1, - e, Zneg m)
  | S754_zero _ | S754_nan => (0, 0, 0)
  | S754_finite false m e => (1, e, Zpos m)
  | S754_infinity false => (2, 0, 0)
  end.

Definition key_lt (p q : Z * Z * Z) : Prop :=
  fst (fst p) < fst (fst q)
  \/ (fst (fst p) = fst (fst q)
      /\ (snd (fst p) < snd (fst q)
          \/ (snd (fst p) = snd (fst q) /\ snd p < snd q))).

Definition sign_bit (x : float) : bool :=
  match x with
  | S754_zero s | S754_infinity s | S754_finite s _ _ => s
  | S754_nan => false
  end.

(** [math.copysign(x, y)]: the magnitude of [x] with the sign bit of [y].
    (The scheduler calls it with a [y] that is not a NaN.) *)
Definition copysign (x y : float) : float :=
  if sign_bit y then SFopp (SFabs x) else SFabs x.

(** ** Effects *)

Inductive command : Type :=
| ceph_osd_tree
| ceph_pg_stat
| ceph_osd_crush_set (node_name : string) (new_weight : float) (path_s : Path)
| ceph_osd_getmap (osd_map_f : tmpfile)
| osdmaptool_export_crush (crush_map_f osd_map_f : tmpfile)
| crushtool_update_item (crush_map_f : tmpfile) (node_id : Z)
    (new_weight : float) (node_name : string) (loc : Path)
| osdmaptool_import_crush (crush_map_f osd_map_new_f : tmpfile).

Inductive message : Type :=
| msg_cmd (cmd : command)
| msg_target (node : CrushNode) (new_weight : float)
| msg_nothing_to_change
| msg_total_sum (total_weight_change : float)
| msg_total_bytes (total_send : Z)
| msg_total_pg (total_moved_pg : Z)
| msg_waiting
| msg_dot
| msg_done
| msg_done_percent (percent : Z).

Inductive event : Type :=
| Run (cmd : command)
| Print (msg : message)
| Sleep (seconds : Z)
| Tmpnam
| Copy (src dst : tmpfile)
| CalculateRemap (osd_map_f osd_map_new_f : tmpfile).

(** What ends a run early: an exception of the script itself, the failure
    of a call of a collaborator, or the failure of [int(...)] on a float
    that is a NaN ([ValueError]) or an infinity ([OverflowError]). *)
Inductive error : Type :=
| Python (e : exn)
| ExternalFailure (call : event)
| ConversionError.

(** The environment.  [fails k] tells whether the k-th call of a
    collaborator fails.  [int_percent a t] is
    [int(a * 100 // t + 0.5)] for a [t] that is not zero, [None] when
    [int] raises; the float floor division is not spelled out, and no
    statement depends on the number. *)
Record Env : Type := mkEnv {
  osd_tree : Crush;
  pg_stat : nat -> list (string * Z);
  osd_changes : list (Z * (Z * Z));
  fails : nat -> bool;
  int_percent : float -> float -> option Z
}.

(** The state of a run: the events so far, the number of answered
    [ceph pg stat] queries, the number of calls of collaborators, and the
    weights assigned to nodes, by node id. *)
Record world : Type := mkWorld {
  trace : list event;
  polls : nat;
  calls : nat;
  weights : gmap Z float
}.

Definition init_world : world :=
  {| trace := []; polls := O; calls := O; weights := ∅ |}.

(** [node.weight]: the last assigned weight, else the loaded one. *)
Definition cur_weight (w : world) (node : CrushNode) : option float :=
  match weights w !! id node with
  | Some x => Some x
  | None => fl <$> weight node
  end.

Inductive result (A : Type) : Type :=
| Ret (a : A) (w : world)
| Raise (e : error) (w : world)
| OutOfFuel.
Arguments Ret {A} a w.
Arguments Raise {A} e w.
Arguments OutOfFuel {A}.

Definition M (A : Type) : Type := world -> result A.

Definition ret {A : Type} (a : A) : M A := fun w => Ret a w.
Definition raise {A : Type} (e : error) : M A := fun w => Raise e w.
Definition out_of_fuel {A : Type} : M A := fun _ => OutOfFuel.

Definition bind {A B : Type} (m : M A) (k : A -> M B) : M B :=
  fun w =>
    match m w with
    | Ret a w' => k a w'
    | Raise e w' => Raise e w'
    | OutOfFuel => OutOfFuel
    end.

#[local, warnings="-notation-overridden"] Notation "x <- m ;; k" := (bind m (fun x => k))
  (at level 20, m at level 99, k at level 200, only parsing).
#[local, warnings="-notation-overridden"] Notation "'do' m ;; k" := (bind m (fun _ => k))
  (at level 20, m at level 99, k at level 200, only parsing).

Definition lift {A : Type} (r : A + exn) : M A :=
  match r with
  | inl a => ret a
  | inr e => raise (Python e)
  end.

Definition emit (e : event) : M unit :=
  fun w => Ret tt {| trace := trace w ++ [e];
                     polls := polls w;
                     calls := calls w;
                     weights := weights w |}.

Definition print (msg : message) : M unit := emit (Print msg).
Definition sleep (seconds : Z) : M unit := emit (Sleep seconds).

Fixpoint for_each {A S : Type} (body : A -> S -> M S) (xs : list A) (st : S)
  : M S :=
  match xs with
  | [] => ret st
  | x :: rest => st' <- body x st ;; for_each body rest st'
  end.

(** The variables a round of the scheduler updates. *)
Record loop_state : Type := mkLoop {
  rebalance_nodes : list target;
  any_updates : bool;
  already_changed : float
}.

Section Rebalance.
Variable env : Env.
Variable BE_QUIET : bool.

(** Modelled from the spec: [run] and [tmpnam] (module [common]) and
    [calculate_remap] are not in the source.  The spec has the command
    runner fail, "propagating fatally", on a nonzero exit, and has the
    failure of any collaborator stop the run at once.  A call is recorded
    in the trace, and it raises when the environment makes it fail. *)
Definition external (call : event) : M unit :=
  fun w =>
    let w' := {| trace := trace w ++ [call];
                 polls := polls w;
                 calls := S (calls w);
                 weights := weights w |} in
    if fails env (calls w) then Raise (ExternalFailure call) w'
    else Ret tt w'.

Definition run (cmd : command) : M unit := external (Run cmd).

Definition info (msg : message) : M unit :=
  if BE_QUIET then ret tt else print msg.

Definition is_rebalance_complete : M bool :=
  do run ceph_pg_stat ;;
  fun w =>
    Ret (all_settled (pg_stat env (polls w)))
        {| trace := trace w;
           polls := S (polls w);
           calls := calls w;
           weights := weights w |}.

Definition request_weight_update (node : CrushNode) (path : Path)
  (new_weight : float) : M unit :=
  let cmd := ceph_osd_crush_set (name node) new_weight (removelast path) in
  do info (msg_cmd cmd) ;;
  run cmd.

Fixpoint poll_until_complete (fuel : nat) : M unit :=
  match fuel with
  | O => out_of_fuel
  | S fuel' =>
      complete <- is_rebalance_complete ;;
      if complete then ret tt
      else
        do info msg_dot ;;
        do sleep 5 ;;
        poll_until_complete fuel'
  end.

Definition wait_rebalance_to_complete (fuel : nat) (any_updates : bool)
  : M unit :=
  settled <- (if negb any_updates then is_rebalance_complete
              else ret false) ;;
  if settled then ret tt
  else
    do info msg_waiting ;;
    do (if any_updates then sleep 5 else ret tt) ;;
    do poll_until_complete fuel ;;
    info msg_done.

(** Reading and assigning [node.weight]; arithmetic on [None] raises. *)
Definition read_weight (node : CrushNode) : M float :=
  fun w =>
    match cur_weight w node with
    | Some x => Ret x w
    | None => Raise (Python TypeError) w
    end.

Definition set_weight (node : CrushNode) (new_weight : float) : M unit :=
  fun w =>
    Ret tt {| trace := trace w;
              polls := polls w;
              calls := calls w;
              weights := <[id node := new_weight]> (weights w) |}.

Section Loop.
Variable max_nodes_per_round : Z.
Variable max_weight_change : float.
Variable min_weight_diff' : float.
Variable selection_algo : string.
Variable total_weight_change : float.

(** Lines 272-275. *)
Definition clamped_change (required_weight node_weight : float) : float :=
  let weight_change := fsub required_weight node_weight in
  if fgtb (fabs weight_change) max_weight_change
  then copysign max_weight_change weight_change
  else weight_change.

(** Lines 271-290, the body of
    [for node, path, required_weight in next_nodes]. *)
Definition service (t : target) (st : loop_state) : M loop_state :=
  let '(node, path, required) := t in
  let required_weight := fl required in
  node_weight <- read_weight node ;;
  let weight_change := clamped_change required_weight node_weight in
  let new_weight := fadd node_weight weight_change in
  any <- (if fgtb (fabs weight_change) min_weight_diff'
          then do request_weight_update node path new_weight ;; ret true
          else ret (any_updates st)) ;;
  let queue :=
    if fltb (fabs (fsub new_weight required_weight)) min_weight_diff'
    then evict node (rebalance_nodes st)
    else rebalance_nodes st in
  do set_weight node new_weight ;;
  ret {| rebalance_nodes := queue;
         any_updates := any;
         already_changed :=
           if BE_QUIET then already_changed st
           else fadd (already_changed st) (fabs weight_change) |}.

(** Lines 260-262. *)
Definition report_progress (already_changed : float) : M unit :=
  if BE_QUIET then ret tt
  else if fgtb already_changed min_weight_diff' then
    if feqb total_weight_change fzero then raise (Python ZeroDivisionError)
    else
      match int_percent env already_changed total_weight_change with
      | Some percent => print (msg_done_percent percent)
      | None => raise ConversionError
      end
  else ret tt.

(** One iteration of [while rebalance_nodes], lines 258-290, with the
    batch it serviced. *)
Definition round (fuel : nat) (st : loop_state)
  : M (list target * loop_state) :=
  do wait_rebalance_to_complete fuel (any_updates st) ;;
  do report_progress (already_changed st) ;;
  let next_nodes := next_batch max_nodes_per_round (rebalance_nodes st) in
  st' <- for_each service next_nodes
           {| rebalance_nodes :=
                roll max_nodes_per_round selection_algo (rebalance_nodes st);
              any_updates := false;
              already_changed := already_changed st |} ;;
  ret (next_nodes, st').

Fixpoint rebalance_loop (fuel : nat) (st : loop_state)
  : M (list (list target) * loop_state) :=
  match rebalance_nodes st with
  | [] => ret ([], st)
  | _ :: _ =>
      match fuel with
      | O => out_of_fuel
      | S fuel' =>
          r <- round fuel' st ;;
          rs <- rebalance_loop fuel' (snd r) ;;
          ret (fst r :: fst rs, snd rs)
      end
  end.

(** Lines 253-292: the loop and the final wait. *)
Definition schedule (fuel : nat) (queue : list target)
  : M (list (list target)) :=
  rs <- rebalance_loop fuel
          {| rebalance_nodes := queue;
             any_updates := false;
             already_changed := fzero |} ;;
  do wait_rebalance_to_complete fuel false ;;
  ret (fst rs).
End Loop.

(** Lines 205-215. *)
Fixpoint resolve_targets (crush : Crush) (entries : list osd_entry)
  (rebalance_nodes : list target) (total_weight_change : float)
  : M (list target * float) :=
  match entries with
  | [] => ret (rebalance_nodes, total_weight_change)
  | entry :: rest =>
      new_weight <- (match entry_weight entry with
                     | Some q => ret q
                     | None => raise (Python (KeyError "weight"))
                     end) ;;
      path <- lift (sort_path (location entry)) ;;
      node <- lift (find_node crush path) ;;
      let rebalance_nodes := rebalance_nodes ++ [(node, path, new_weight)] in
      total <- (if BE_QUIET then ret total_weight_change
                else
                  do print (msg_target node (fl new_weight)) ;;
                  node_weight <- read_weight node ;;
                  ret (fadd total_weight_change
                            (fabs (fsub node_weight (fl new_weight))))) ;;
      resolve_targets crush rest rebalance_nodes total
  end.

(** Lines 225-248. *)
Definition estimate (rebalance_nodes : list target) : M unit :=
  let osd_map_f := 0%nat in
  let crush_map_f := 1%nat in
  let osd_map_new_f := 2%nat in
  do external Tmpnam ;;
  do run (ceph_osd_getmap osd_map_f) ;;
  do external Tmpnam ;;
  do run (osdmaptool_export_crush crush_map_f osd_map_f) ;;
  do for_each
       (fun t (_ : unit) =>
          let '(node, path, new_weight) := t in
          run (crushtool_update_item crush_map_f (id node) (fl new_weight)
                 (name node) path))
       rebalance_nodes tt ;;
  do external Tmpnam ;;
  do external (Copy osd_map_f osd_map_new_f) ;;
  do run (osdmaptool_import_crush crush_map_f osd_map_new_f) ;;
  do external (CalculateRemap osd_map_f osd_map_new_f) ;;
  let total_send :=
    foldl (fun acc c => acc + fst (snd c)) 0 (osd_changes env) in
  let total_moved_pg :=
    foldl (fun acc c => acc + snd (snd c)) 0 (osd_changes env) in
  do print (msg_total_bytes total_send) ;;
  print (msg_total_pg total_moved_pg).

(** [do_rebalance(config, args)], with the history of the batches. *)
Definition do_rebalance (fuel : nat) (config : Config) (args : Args)
  : M (list (list target)) :=
  do run ceph_osd_tree ;;
  let crush := osd_tree env in
  let max_nodes_per_round := default 4 (max_reweight config) in
  let max_weight_change := fl (default (1 # 2)%Q (step config)) in
  let min_weight_diff := fl (default (1 # 100)%Q (min_weight_diff config)) in
  let selection_algo := default "rround" (osd_selection config) in
  r <- resolve_targets crush (osds config) [] fzero ;;
  let rebalance_nodes := fst r in
  let total_weight_change := snd r in
  nothing <- (if BE_QUIET then ret false
              else if fltb total_weight_change min_weight_diff
                   then do print msg_nothing_to_change ;; ret true
                   else do print (msg_total_sum total_weight_change) ;;
                        ret false) ;;
  if (nothing : bool) then ret []
  else
    stop <- (if no_estimate args then ret false
             else do estimate rebalance_nodes ;; ret (estimate_only args)) ;;
    if (stop : bool) then ret []
    else
      schedule max_nodes_per_round max_weight_change min_weight_diff
               selection_algo total_weight_change fuel rebalance_nodes.
End Rebalance.

(** ** Vocabulary *)

Definition is_update (e : event) : bool :=
  match e with
  | Run (ceph_osd_crush_set _ _ _) => true
  | _ => false
  end.

Definition count_updates (tr : list event) : nat :=
  length (List.filter is_update tr).

Definition update_events (quiet : bool) (issue : bool) (cmd : command)
  : list event :=
  if issue
  then (if quiet then [] else [Print (msg_cmd cmd)]) ++ [Run cmd]
  else [].


(** The cluster settles again and again. *)
Definition settles (env : Env) : Prop :=
  forall n, exists m, (n <= m)%nat /\ all_settled (pg_stat env m) = true.


Definition returns {A : Type} (f : nat -> M A) (w : world) (a : A)
  (w' : world) : Prop :=
  exists N, forall fuel, (N <= fuel)%nat -> f fuel w = Ret a w'.

(** The weight one service commits, and whether the target is then
    evicted. *)
Definition next_weight (S W x : float) : float :=
  fadd x (clamped_change S W x).

Definition within (E W x : float) : bool :=
  fltb (fabs (fsub x W)) E.

(** [steps S E W x k]: serviced from weight [x], a target with desired
    weight [W] is evicted by its [k]-th service and by none before. *)
Fixpoint steps (S E W x : float) (k : nat) : Prop :=
  match k with
  | O => False
  | Datatypes.S k' =>
      if within E W (next_weight S W x) then k' = O
      else steps S E W (next_weight S W x) k'
  end.


(** [planned S E w p]: the nodes of the plan [p] are distinct, have a
    weight in [w], and need the services [p] records. *)
Definition planned (S E : float) (w : world) (p : plan) : Prop :=
  List.NoDup (ids_of (List.map fst p))
  /\ forall t k, In (t, k) p ->
       exists x, cur_weight w (node_of t) = Some x
                 /\ steps S E (fl (desired t)) x k.

(** Whether servicing [t] in world [w] evicts it, and whether [t] is the
    node of a member of [batch] that is evicted. *)
Definition converges (S E : float) (w : world) (t : target) : bool :=
  match cur_weight w (node_of t) with
  | Some x => within E (fl (desired t)) (next_weight S (fl (desired t)) x)
  | None => false
  end.

Definition evicted_by (S E : float) (w : world) (batch : list target)
  (t : target) : bool :=
  existsb (fun b => same_node (node_of t) (node_of b) && converges S E w b)
          batch.

(** [inert m]: [m] assigns no weight and issues no weight update. *)
Definition inert {A : Type} (m : M A) : Prop :=
  forall w,
    match m w with
    | Ret _ w' | Raise _ w' =>
        weights w' = weights w
        /\ exists added, trace w' = trace w ++ added
                         /\ count_updates added = 0%nat
    | OutOfFuel => True
    end.

(** The topology query and the printed lines: all that a run emits while
    it resolves its targets. *)
Definition resolution_step (e : event) : Prop :=
  match e with
  | Run ceph_osd_tree | Print _ => True
  | _ => False
  end.

(** [script_safe m]: [m] raises no exception of the script itself; what
    ends it early is the failure of a call or of the conversion. *)
Definition script_safe {A : Type} (m : M A) : Prop :=
  forall w e w', m w <> Raise (Python e) w'.

(** Every node of [ts] has a weight in [w]. *)
Definition weighted (w : world) (ts : list target) : Prop :=
  forall t, In t ts -> cur_weight w (node_of t) <> None.

Definition with_trace (w : world) (added : list event) : world :=
  {| trace := trace w ++ added; polls := polls w; calls := calls w;
     weights := weights w |}.

(** [unfailing env a b]: none of the calls number [a] to [b - 1] fails. *)
Definition unfailing (env : Env) (a b : nat) : Prop :=
  forall k, (a <= k < b)%nat -> fails env k = false.

(** [fatal env m]: [m] makes no call after one that failed, and a call
    that failed ends it with that failure. *)
Definition fatal {A : Type} (env : Env) (m : M A) : Prop :=
  forall w,
    match m w with
    | Ret _ w' =>
        (calls w <= calls w')%nat /\ unfailing env (calls w) (calls w')
    | Raise (ExternalFailure call) w' =>
        (calls w < calls w')%nat
        /\ unfailing env (calls w) (calls w' - 1)
        /\ fails env (calls w' - 1) = true
        /\ exists before, trace w' = before ++ [call]
    | Raise _ w' =>
        (calls w <= calls w')%nat /\ unfailing env (calls w) (calls w')
    | OutOfFuel => True
    end.


Definition fresh_loop (queue : list target) : loop_state :=
  {| rebalance_nodes := queue; any_updates := false;
     already_changed := fzero |}.



(** A cluster that is always settled and whose commands succeed. *)
Definition settled_env : Env :=
  mkEnv sample_crush (fun _ => [("active+clean", 64)]) []
        (fun _ => false) (fun _ _ => Some 0).

End F64.

(** * Properties *)

(** ** Path resolution *)

Lemma removelast_snoc {A : Type} (l : list A) (x : A) :
  List.removelast (l ++ [x]) = l.
Proof. apply List.removelast_last. Qed.

Lemma last_snoc {A : Type} (l : list A) (x d : A) :
  List.last (l ++ [x]) d = x.
Proof. apply List.last_last. Qed.

Lemma find_nodes_snoc (crush : Crush) (init : Path) (seg : string * string) :
  find_nodes crush (init ++ [seg])
  = direct_matches seg (descend (roots crush) init).
Proof.
  unfold find_nodes.
  destruct (init ++ [seg]) as [|seg0 tl] eqn:E.
  - destruct init; discriminate.
  - rewrite <- E, removelast_snoc, last_snoc. reflexivity.
Qed.

Lemma node_matches_spec (seg : string * string) (node : CrushNode) :
  node_matches seg node = true <-> type node = fst seg /\ name node = snd seg.
Proof.
  unfold node_matches.
  rewrite andb_true_iff, !String.eqb_eq. reflexivity.
Qed.

Lemma direct_matches_spec (seg : string * string) (cands : list CrushNode)
  (node : CrushNode) :
  In node (direct_matches seg cands)
  <-> In node cands /\ type node = fst seg /\ name node = snd seg.
Proof.
  unfold direct_matches. rewrite List.filter_In, node_matches_spec. reflexivity.
Qed.

(** C5: for every topology and path, the nodes found for a path with
    final segment [seg] are the candidates left by the descent that match
    [seg] directly; [find_node] returns the node when exactly one is found,
    raises the "can't found any node" error when none is and the
    "found n nodes" error when more than one is. *)
Theorem find_node_final_segment (crush : Crush) (path : Path) :
  (forall init seg, path = init ++ [seg] ->
     find_nodes crush path
     = List.filter (node_matches seg) (descend (roots crush) init)
     /\ forall node, In node (find_nodes crush path) <->
          In node (descend (roots crush) init)
          /\ type node = fst seg /\ name node = snd seg)
  /\ (find_nodes crush path = [] ->
        find_node crush path = inr (IndexError (CantFoundAnyNode path)))
  /\ (forall node, find_nodes crush path = [node] ->
        find_node crush path = inl node)
  /\ ((1 < length (find_nodes crush path))%nat ->
        find_node crush path
        = inr (IndexError
                 (FoundManyNodes (length (find_nodes crush path)) path))).
Proof.
  split.
  { intros init seg ->. rewrite find_nodes_snoc.
    split; [reflexivity|]. intros node. apply direct_matches_spec. }
  unfold find_node.
  repeat split.
  - intros ->. reflexivity.
  - intros node ->. reflexivity.
  - destruct (find_nodes crush path) as [|a [|b l]]; simpl; intros;
      [lia|lia|reflexivity].
Qed.

(** C10: with the empty path [find_nodes] returns the roots as they are;
    [find_node] then returns the root of a single-root topology and raises
    the "found n nodes" error when there are several roots. *)
Theorem find_nodes_empty_path (crush : Crush) :
  find_nodes crush [] = roots crush
  /\ (forall root, roots crush = [root] -> find_node crush [] = inl root)
  /\ ((1 < length (roots crush))%nat ->
        find_node crush []
        = inr (IndexError (FoundManyNodes (length (roots crush)) []))).
Proof.
  split; [reflexivity|].
  unfold find_node. simpl.
  split.
  - intros root ->. reflexivity.
  - destruct (roots crush) as [|a [|b l]]; simpl; intros; [lia|lia|reflexivity].
Qed.

(** ** Completion check *)

Lemma all_settled_spec (l : list (string * Z)) :
  all_settled l = true
  <-> forall dct, In dct l -> fst dct = "active+clean" \/ snd dct = 0.
Proof.
  induction l as [|dct rest IH]; simpl.
  - split; [intros _ ? []|reflexivity].
  - destruct (String.eqb_spec (fst dct) "active+clean") as [Hn|Hn];
      destruct (Z.eqb_spec (snd dct) 0) as [Hz|Hz]; simpl;
      rewrite ?IH; split; intros H; try discriminate;
      try (intros d [<-|Hin]; [tauto|auto]);
      try (intros d Hin; apply H; auto).
    destruct (H dct (or_introl eq_refl)); contradiction.
Qed.

(** C8: the check answers [true] exactly when every entry of the reported
    list has the name [active+clean] or the count zero; an entry with
    another name and a nonzero count makes it answer [false]. *)
Theorem is_rebalance_complete_iff (env : Env) (w : world) :
  exists b w',
    is_rebalance_complete env w = Ret b w'
    /\ (b = true <->
        forall dct, In dct (pg_stat env (polls w)) ->
                    fst dct = "active+clean" \/ snd dct = 0)
    /\ (b = false <->
        exists dct, In dct (pg_stat env (polls w))
                    /\ fst dct <> "active+clean" /\ snd dct <> 0).
Proof.
  eexists _, _. split; [reflexivity|].
  split; [apply all_settled_spec|].
  induction (pg_stat env (polls w)) as [|dct rest IH]; simpl.
  - split; [discriminate|intros (? & [] & _)].
  - destruct (String.eqb_spec (fst dct) "active+clean") as [Hn|Hn];
      destruct (Z.eqb_spec (snd dct) 0) as [Hz|Hz]; simpl.
    1-3: rewrite IH; split;
      [intros (d & Hin & H); exists d; auto
      |intros (d & [<-|Hin] & H1 & H2); [congruence|exists d; auto]].
    split; [intros _; exists dct; auto|reflexivity].
Qed.

(** ** One service step *)

Lemma Qltb_lt (a b : Q) : Qltb a b = true <-> (a < b)%Q.
Proof.
  unfold Qltb. rewrite negb_true_iff, <- not_true_iff_false, Qle_bool_iff.
  split; [apply Qnot_le_lt|apply Qlt_not_le].
Qed.

Lemma Qltb_ge (a b : Q) : Qltb a b = false <-> (b <= a)%Q.
Proof.
  unfold Qltb. rewrite negb_false_iff, Qle_bool_iff. reflexivity.
Qed.

Lemma Qltb_spec (a b : Q) : reflect (a < b)%Q (Qltb a b).
Proof.
  destruct (Qltb a b) eqn:E; constructor.
  - apply Qltb_lt, E.
  - apply Qle_not_lt, Qltb_ge, E.
Qed.



(** The clamped change: its magnitude and the distance it leaves. *)
Lemma clamped_change_small (S W W0 : Q) :
  (Qabs (W - W0) <= S)%Q -> clamped_change S W W0 = (W - W0)%Q.
Proof.
  intros H. unfold clamped_change, Qgtb.
  destruct (Qltb_spec S (Qabs (W - W0))); [lra|reflexivity].
Qed.

Lemma clamped_change_big (S W W0 : Q) :
  (S < Qabs (W - W0))%Q ->
  clamped_change S W W0 = copysign S (W - W0).
Proof.
  intros H. unfold clamped_change, Qgtb.
  destruct (Qltb_spec S (Qabs (W - W0))); [reflexivity|lra].
Qed.

Lemma copysign_pos (S d : Q) :
  (0 <= S)%Q ->
  (copysign S d == if Qltb d 0 then - S else S)%Q.
Proof.
  intros H. unfold copysign.
  destruct (Qltb d 0); rewrite Qabs_pos by exact H; reflexivity.
Qed.

(** What [service] does when the node has a weight: a closed form. *)
Lemma service_ret (quiet : bool) (S E : Q) (node : CrushNode) (path : Path)
  (W W0 : Q) (st : loop_state) (w : world) :
  cur_weight w node = Some W0 ->
  let change := clamped_change S W W0 in
  let new_weight := (W0 + change)%Q in
  let issue := Qgtb (Qabs change) E in
  service quiet S E (node, path, W) st w
  = Ret {| rebalance_nodes :=
             if Qltb (Qabs (new_weight - W)) E
             then evict node (rebalance_nodes st)
             else rebalance_nodes st;
           any_updates := if issue then true else any_updates st;
           already_changed := (already_changed st + Qabs change)%Q |}
        {| trace := trace w
                    ++ update_events quiet issue
                         (ceph_osd_crush_set (name node) new_weight
                            (removelast path));
           polls := polls w;
           weights := <[id node := new_weight]> (weights w) |}.
Proof.
  intros Hw change new_weight issue.
  unfold service, bind, read_weight. rewrite Hw.
  fold change. fold new_weight. fold issue.
  unfold update_events.
  destruct issue; simpl.
  - unfold request_weight_update, bind, info, run, print, emit, ret, set_weight.
    destruct quiet; simpl; rewrite <- ?List.app_assoc; reflexivity.
  - unfold ret, bind, set_weight. simpl. rewrite List.app_nil_r. reflexivity.
Qed.

Lemma service_raise (quiet : bool) (S E : Q) (node : CrushNode) (path : Path)
  (W : Q) (st : loop_state) (w : world) :
  cur_weight w node = None ->
  service quiet S E (node, path, W) st w = Raise TypeError w.
Proof.
  intros Hw. unfold service, bind, read_weight. rewrite Hw. reflexivity.
Qed.


Lemma evict_spec (node : CrushNode) (queue : list target) (t : target) :
  In t (evict node queue) <-> In t queue /\ id (fst (fst t)) <> id node.
Proof.
  unfold evict, same_node. rewrite List.filter_In, negb_true_iff.
  destruct (Z.eqb_spec (id (fst (fst t))) (id node)); intuition congruence.
Qed.

(** ** Traces *)

Lemma count_updates_app (a b : list event) :
  count_updates (a ++ b) = (count_updates a + count_updates b)%nat.
Proof. unfold count_updates. rewrite List.filter_app, List.length_app. reflexivity. Qed.

Lemma inert_ret {A : Type} (a : A) : inert (ret a).
Proof.
  intros w. simpl. split; [reflexivity|].
  exists []. rewrite List.app_nil_r. auto.
Qed.

Lemma inert_raise {A : Type} (e : exn) : inert (@raise A e).
Proof.
  intros w. simpl. split; [reflexivity|].
  exists []. rewrite List.app_nil_r. auto.
Qed.

Lemma inert_out_of_fuel {A : Type} : inert (@out_of_fuel A).
Proof. intros w. exact I. Qed.

Lemma inert_bind {A B : Type} (m : M A) (k : A -> M B) :
  inert m -> (forall a, inert (k a)) -> inert (bind m k).
Proof.
  intros Hm Hk w. unfold bind. specialize (Hm w).
  destruct (m w) as [a w1|e w1|]; [|exact Hm|exact I].
  destruct Hm as (Hw & added & Htr & Hc).
  specialize (Hk a w1).
  destruct (k a w1) as [b w2|e w2|]; [| |exact I];
    destruct Hk as (Hw2 & added2 & Htr2 & Hc2);
    (split; [congruence|]);
    exists (added ++ added2);
    rewrite Htr2, Htr, List.app_assoc, count_updates_app, Hc, Hc2; auto.
Qed.

Lemma inert_emit (e : event) : is_update e = false -> inert (emit e).
Proof.
  intros He w. simpl. split; [reflexivity|].
  exists [e]. split; [reflexivity|].
  unfold count_updates. simpl. rewrite He. reflexivity.
Qed.

Lemma inert_info (quiet : bool) (msg : message) : inert (info quiet msg).
Proof.
  unfold info. destruct quiet; [apply inert_ret|apply inert_emit; reflexivity].
Qed.

Lemma inert_is_rebalance_complete (env : Env) :
  inert (is_rebalance_complete env).
Proof.
  intros w. simpl. split; [reflexivity|].
  exists [Run ceph_pg_stat]. auto.
Qed.

Lemma inert_poll (env : Env) (quiet : bool) (fuel : nat) :
  inert (poll_until_complete env quiet fuel).
Proof.
  induction fuel as [|fuel IH]; simpl; [apply inert_out_of_fuel|].
  apply inert_bind; [apply inert_is_rebalance_complete|].
  intros [|]; [apply inert_ret|].
  apply inert_bind; [apply inert_info|intros _].
  apply inert_bind; [apply inert_emit; reflexivity|intros _].
  exact IH.
Qed.

Lemma inert_wait (env : Env) (quiet : bool) (fuel : nat) (any : bool) :
  inert (wait_rebalance_to_complete env quiet fuel any).
Proof.
  unfold wait_rebalance_to_complete.
  apply inert_bind.
  { destruct any; [apply inert_ret|apply inert_is_rebalance_complete]. }
  intros [|]; [apply inert_ret|].
  apply inert_bind; [apply inert_info|intros _].
  apply inert_bind.
  { destruct any; [apply inert_emit; reflexivity|apply inert_ret]. }
  intros _.
  apply inert_bind; [apply inert_poll|intros _].
  apply inert_info.
Qed.

Lemma inert_report_progress (quiet : bool) (E total changed : Q) :
  inert (report_progress quiet E total changed).
Proof.
  unfold report_progress.
  destruct quiet; [apply inert_ret|].
  destruct (Qgtb changed E); [|apply inert_ret].
  destruct (Qeq_bool total 0); [apply inert_raise|].
  apply inert_emit. reflexivity.
Qed.

Lemma count_update_events (quiet issue : bool) (cmd : command) :
  (count_updates (update_events quiet issue cmd) <= 1)%nat.
Proof.
  unfold update_events, count_updates.
  destruct issue, quiet, cmd; simpl; lia.
Qed.

(** A batch of [k] targets issues at most [k] weight updates. *)
Lemma for_each_service_updates (quiet : bool) (S E : Q)
  (batch : list target) (st : loop_state) (w : world) :
  grows (fun added => (count_updates added <= length batch)%nat) w
        (for_each (service quiet S E) batch st w).
Proof.
  revert st w. induction batch as [|[[node path] W] batch IH]; intros st w.
  - simpl. exists []. rewrite List.app_nil_r. auto.
  - cbn [for_each]. unfold bind.
    destruct (cur_weight w node) as [W0|] eqn:Hw.
    + rewrite (service_ret _ _ _ _ _ _ _ _ _ Hw).
      match goal with |- context [for_each _ _ ?s ?w1] =>
        specialize (IH s w1); destruct (for_each _ _ s w1) as [a w2|e w2|]
      end; [| |exact I];
        destruct IH as (added & Htr & Hc); simpl in Htr;
        eexists; rewrite Htr, <- List.app_assoc;
        (split; [reflexivity|]);
        rewrite count_updates_app;
        match goal with |- context [update_events ?q ?i ?c] =>
          pose proof (count_update_events q i c) end; simpl; lia.
    + rewrite service_raise by exact Hw.
      exists []. rewrite List.app_nil_r. simpl. split; [reflexivity|].
      unfold count_updates; simpl; lia.
Qed.

Lemma py_take_length {A : Type} (n : Z) (l : list A) :
  0 <= n -> Z.of_nat (length (py_take n l)) <= n.
Proof.
  intros Hn. unfold py_take.
  destruct (Z.leb_spec 0 n); [|lia].
  rewrite length_take. lia.
Qed.

(** C6 (as amended): when [max_reweight] is not negative, the events a
    round adds to the trace hold at most [max_reweight] weight-update
    commands, whether the round returns or raises. *)
Theorem round_issues_at_most_max_reweight (env : Env) (quiet : bool)
  (max_nodes_per_round : Z) (S E : Q) (algo : string) (total : Q)
  (fuel : nat) (st : loop_state) (w : world) :
  0 <= max_nodes_per_round ->
  grows (fun added => Z.of_nat (count_updates added) <= max_nodes_per_round)
        w
        (round env quiet max_nodes_per_round S E algo total fuel st w).
Proof.
  intros Hn. unfold round.
  pose proof (inert_bind _ (fun _ => report_progress quiet E total
                                       (already_changed st))
                (inert_wait env quiet fuel (any_updates st))
                (fun _ => inert_report_progress _ _ _ _) w) as Hpre.
  unfold bind in *.
  destruct (wait_rebalance_to_complete env quiet fuel (any_updates st) w)
    as [[] w1|e w1|]; [| |exact I].
  - destruct (report_progress quiet E total (already_changed st) w1)
      as [[] w2|e w2|]; [| |exact I].
    + destruct Hpre as (_ & added & Htr & Hc).
      pose proof (for_each_service_updates quiet S E
                    (next_batch max_nodes_per_round (rebalance_nodes st))
                    {| rebalance_nodes :=
                         roll max_nodes_per_round algo (rebalance_nodes st);
                       any_updates := false;
                       already_changed := already_changed st |} w2) as Hb.
      pose proof (py_take_length max_nodes_per_round (rebalance_nodes st) Hn)
        as Hlen.
      unfold next_batch in *.
      destruct (for_each _ _ _ w2) as [st' w3|e w3|]; [| |exact I];
        destruct Hb as (added2 & Htr2 & Hc2);
        exists (added ++ added2);
        rewrite Htr2, Htr, List.app_assoc, count_updates_app, Hc;
        (split; [reflexivity|lia]).
    + destruct Hpre as (_ & added & Htr & Hc).
      exists added. split; [exact Htr|lia].
  - destruct Hpre as (_ & added & Htr & Hc).
    exists added. split; [exact Htr|lia].
Qed.

(** ** Termination of the waits *)






(** ** Rounds *)







(** ** A batch of distinct nodes *)





(** ** The schedule of a queue of distinct nodes *)

Lemma py_take_drop {A : Type} (n : Z) (l : list A) :
  py_take n l ++ py_drop n l = l.
Proof.
  unfold py_take, py_drop. destruct (0 <=? n); apply List.firstn_skipn.
Qed.





Lemma rounds_needed_pos (S E W W0 : Q) : (1 <= rounds_needed S E W W0)%nat.
Proof. unfold rounds_needed. lia. Qed.
















Lemma planned_positive (S E : Q) (w : world) (p : plan) :
  planned S E w p -> forall t k, In (t, k) p -> (1 <= k)%nat.
Proof.
  intros [_ Hp] t k Hin. destruct (Hp t k Hin) as (W0 & _ & <-).
  apply rounds_needed_pos.
Qed.


(** ** Counting services *)

Lemma planned_well_formed (S E : Q) (w : world) (p : plan) :
  planned S E w p -> well_formed p.
Proof.
  intros Hpl. split; [exact (proj1 Hpl)|exact (planned_positive S E w p Hpl)].
Qed.










(** ** Rounds to convergence *)




(** ** Round-robin order *)




(** ** The aggregate check *)




(** ** Instances and counterexamples *)




Lemma find_node_final_segment_witness :
  find_node sample_crush (path_of "osd.0" "osd-0") = inl osd_0
  /\ find_node sample_crush (path_of "osd.9" "osd-0")
     = inr (IndexError (CantFoundAnyNode (path_of "osd.9" "osd-0")))
  /\ find_node two_roots_crush [("root", "default")]
     = inr (IndexError (FoundManyNodes 2 [("root", "default")])).
Proof.
  split; [|split].
  - apply (proj1 (proj2 (proj2
             (find_node_final_segment sample_crush
                (path_of "osd.0" "osd-0"))))).
    reflexivity.
  - apply (proj1 (proj2
             (find_node_final_segment sample_crush
                (path_of "osd.9" "osd-0")))).
    reflexivity.
  - apply (proj2 (proj2 (proj2
             (find_node_final_segment two_roots_crush
                [("root", "default")])))).
    simpl. lia.
Defined.

Lemma find_nodes_empty_path_witness :
  find_node sample_crush [] = inl root_default
  /\ find_node two_roots_crush []
     = inr (IndexError (FoundManyNodes 2 [])).
Proof.
  split.
  - apply (proj1 (proj2 (find_nodes_empty_path sample_crush))). reflexivity.
  - apply (proj2 (proj2 (find_nodes_empty_path two_roots_crush))).
    simpl. lia.
Defined.

(** The claim of C6 fails on the code: with [max_reweight = -1] and two
    queued targets the batch is [queue[:-1]], one target, and the round
    issues one weight update, which is more than [max_reweight]. *)
Lemma batch_bound_counterexample :
  exists batch st' w',
    round settled_env true (-1) (1 # 10) (1 # 100) "rround" 0 10
      (fresh_loop [target_0 (2 # 5); target_1 (2 # 5)]) init_world
    = Ret (batch, st') w'
    /\ count_updates (trace w') = 1%nat
    /\ ~ (Z.of_nat (count_updates (trace w')) <= -1).
Proof.
  eexists _, _, _. split; [vm_compute; reflexivity|].
  split; [reflexivity|]. cbn. lia.
Qed.

Lemma round_issues_at_most_max_reweight_witness :
  grows (fun added => Z.of_nat (count_updates added) <= 1) init_world
        (round settled_env true 1 (1 # 10) (1 # 100) "rround" 0 10
           (fresh_loop [target_0 (2 # 5); target_1 (2 # 5)]) init_world).
Proof.
  apply (round_issues_at_most_max_reweight settled_env true 1 (1 # 10)
           (1 # 100) "rround" 0 10
           (fresh_loop [target_0 (2 # 5); target_1 (2 # 5)]) init_world).
  lia.
Defined.

(** C7, on the code: the last round of this run issues a weight update,
    yet the final wait is called with [False]: the health query follows the
    update at once, with no sleep between them (and, the cluster reporting
    itself settled, the run ends there).  The same update followed by
    another round is followed by [Sleep 5] first. *)
Theorem final_wait_skips_the_grace_sleep :
  (exists log w',
     do_rebalance settled_env true 10
       (sample_config 1 (1 # 10) (1 # 100) [entry_of "osd.0" "osd-0" (2 # 5)])
       no_estimate_args init_world = Ret log w'
     /\ trace w'
        = [Run ceph_osd_tree; Run ceph_pg_stat;
           Run (ceph_osd_crush_set "osd.0" (8 # 20)
                  [("root", "default"); ("host", "osd-0")]);
           Run ceph_pg_stat])
  /\ (exists log w',
        do_rebalance settled_env true 10
          (sample_config 1 (1 # 10) (1 # 100)
             [entry_of "osd.0" "osd-0" (3 # 10)])
          no_estimate_args init_world = Ret log w'
        /\ trace w'
           = [Run ceph_osd_tree; Run ceph_pg_stat;
              Run (ceph_osd_crush_set "osd.0" (8 # 20)
                     [("root", "default"); ("host", "osd-0")]);
              Sleep 5; Run ceph_pg_stat;
              Run (ceph_osd_crush_set "osd.0" (1200 # 4000)
                     [("root", "default"); ("host", "osd-0")]);
              Run ceph_pg_stat]).
Proof.
  split; eexists _, _; (split; [vm_compute; reflexivity|reflexivity]).
Qed.


(** * Further properties *)

(** ** Footprints *)

Lemma footprint_refl (P : event -> Prop) (w : world) : footprint P w w.
Proof.
  split; [reflexivity|]. split; [reflexivity|].
  exists []. rewrite List.app_nil_r. split; [reflexivity|constructor].
Qed.

Lemma footprint_trans (P : event -> Prop) (w1 w2 w3 : world) :
  footprint P w1 w2 -> footprint P w2 w3 -> footprint P w1 w3.
Proof.
  intros (Hw & Hp & a & Ht & Ha) (Hw' & Hp' & b & Ht' & Hb).
  split; [congruence|]. split; [congruence|].
  exists (a ++ b). rewrite Ht', Ht, List.app_assoc.
  split; [reflexivity|]. apply Forall_app. auto.
Qed.

Lemma footprint_weaken (P P' : event -> Prop) (w w' : world) :
  (forall e, P e -> P' e) -> footprint P w w' -> footprint P' w w'.
Proof.
  intros HP (Hw & Hp & a & Ht & Ha).
  split; [exact Hw|]. split; [exact Hp|].
  exists a. split; [exact Ht|]. eapply Forall_impl; eauto.
Qed.

Lemma passive_ret {A : Type} (P : event -> Prop) (Q : A -> Prop) (a : A) :
  Q a -> passive P Q (ret a).
Proof. intros HQ w. simpl. split; [apply footprint_refl|exact HQ]. Qed.

Lemma passive_raise {A : Type} (P : event -> Prop) (Q : A -> Prop) (e : exn) :
  passive P Q (@raise A e).
Proof. intros w. simpl. apply footprint_refl. Qed.

Lemma passive_emit (P : event -> Prop) (e : event) :
  P e -> passive P (fun _ => True) (emit e).
Proof.
  intros He w. simpl. split; [|exact I].
  split; [reflexivity|]. split; [reflexivity|].
  exists [e]. split; [reflexivity|]. constructor; [exact He|constructor].
Qed.

Lemma passive_bind {A B : Type} (P : event -> Prop) (Q : A -> Prop)
  (R : B -> Prop) (m : M A) (k : A -> M B) :
  passive P Q m -> (forall a, Q a -> passive P R (k a)) ->
  passive P R (bind m k).
Proof.
  intros Hm Hk w. unfold bind. specialize (Hm w).
  destruct (m w) as [a w1|e w1|]; [|exact Hm|exact Hm].
  destruct Hm as [Hf HQ]. specialize (Hk a HQ w1).
  destruct (k a w1) as [b w2|e w2|]; [| |exact Hk].
  - destruct Hk as [Hf' HR]. split; [|exact HR].
    eapply footprint_trans; eauto.
  - eapply footprint_trans; eauto.
Qed.

Lemma passive_weaken {A : Type} (P P' : event -> Prop) (Q Q' : A -> Prop)
  (m : M A) :
  (forall e, P e -> P' e) -> (forall a, Q a -> Q' a) ->
  passive P Q m -> passive P' Q' m.
Proof.
  intros HP HQ Hm w. specialize (Hm w).
  destruct (m w) as [a w1|e w1|]; [| |exact Hm].
  - destruct Hm as [Hf Ha]. split; [|auto]. eapply footprint_weaken; eauto.
  - eapply footprint_weaken; eauto.
Qed.

Lemma passive_lift {A : Type} (P : event -> Prop) (r : A + exn) :
  passive P (fun _ => True) (lift r).
Proof.
  destruct r; [apply passive_ret; exact I|apply passive_raise].
Qed.

Lemma passive_read_weight (P : event -> Prop) (node : CrushNode) :
  passive P (fun _ => True) (read_weight node).
Proof.
  intros w. unfold read_weight.
  destruct (cur_weight w node); [split; [|exact I]|]; apply footprint_refl.
Qed.

Lemma passive_for_each {A S : Type} (P : event -> Prop)
  (body : A -> S -> M S) (xs : list A) :
  (forall x st, passive P (fun _ => True) (body x st)) ->
  forall st, passive P (fun _ => True) (for_each body xs st).
Proof.
  intros Hbody. induction xs as [|x xs IH]; intros st; simpl.
  - apply passive_ret. exact I.
  - eapply (passive_bind _ (fun _ => True)); [apply Hbody|]. intros st' _. apply IH.
Qed.

(** The resolution loop only prints. *)
Lemma passive_resolve_targets (quiet : bool) (crush : Crush)
  (entries : list osd_entry) :
  forall acc total,
    passive (fun e => exists msg, e = Print msg) (fun _ => True)
            (resolve_targets quiet crush entries acc total).
Proof.
  induction entries as [|entry rest IH]; intros acc total.
  - apply passive_ret. exact I.
  - cbn [resolve_targets].
    eapply (passive_bind _ (fun _ => True)).
    { destruct (entry_weight entry);
        [apply passive_ret; exact I|apply passive_raise]. }
    intros W _.
    eapply (passive_bind _ (fun _ => True)); [apply passive_lift|]. intros path _.
    eapply (passive_bind _ (fun _ => True)); [apply passive_lift|]. intros node _.
    eapply (passive_bind _ (fun _ => True)); [|intros total' _; apply IH].
    destruct quiet; [apply passive_ret; exact I|].
    eapply (passive_bind _ (fun _ => True)); [apply passive_emit; eauto|]. intros _ _.
    eapply (passive_bind _ (fun _ => True)); [apply passive_read_weight|]. intros q _.
    apply passive_ret. exact I.
Qed.

(** The estimate runs its map tools and prints; nothing else. *)
Lemma passive_estimate (env : Env) (targets : list target) :
  passive read_only_event (fun _ => True) (estimate env targets).
Proof.
  unfold estimate.
  repeat (eapply (passive_bind _ (fun _ => True));
          [first [apply passive_emit; exact I
                 |apply passive_for_each; intros [[node path] W] [];
                  apply (passive_emit read_only_event); exact I]
          |intros ? _]).
  apply (passive_emit read_only_event). exact I.
Qed.

(** X1: with [--estimate-only] (and without [--no-estimate]) a run needs
    no fuel, returns before the loop or raises, assigns no weight, and runs
    no weight update, no health query and no sleep, whatever the
    configuration and the cluster. *)
Theorem estimate_only_changes_nothing (env : Env) (quiet : bool)
  (fuel : nat) (config : Config) (args : Args) (w : world) :
  estimate_only args = true -> no_estimate args = false ->
  match do_rebalance env quiet fuel config args w with
  | Ret log w' => footprint read_only_event w w' /\ log = []
  | Raise _ w' => footprint read_only_event w w'
  | OutOfFuel => False
  end.
Proof.
  intros Heo Hne. revert w.
  change (passive read_only_event (fun log => log = [])
            (do_rebalance env quiet fuel config args)).
  unfold do_rebalance. rewrite Heo, Hne.
  eapply (passive_bind _ (fun _ => True)); [apply (passive_emit read_only_event); exact I|].
  intros _ _.
  eapply (passive_bind _ (fun _ => True)).
  { eapply passive_weaken; [| |apply passive_resolve_targets].
    - intros e [msg ->]. exact I.
    - intros a Ha. exact Ha. }
  intros r _.
  eapply (passive_bind _ (fun _ => True)).
  { destruct quiet; [apply passive_ret; exact I|].
    destruct (Qltb _ _);
      (eapply (passive_bind _ (fun _ => True));
       [apply (passive_emit read_only_event); exact I
       |intros _ _; apply passive_ret; exact I]). }
  intros [|] _; [apply passive_ret; reflexivity|].
  eapply (passive_bind _ (fun stop => stop = true)).
  { eapply (passive_bind _ (fun _ => True)); [apply passive_estimate|].
    intros _ _. apply passive_ret. reflexivity. }
  intros stop ->. apply passive_ret. reflexivity.
Qed.

(** ** Where a run can fail *)

Lemma raises_only_bind {A B : Type} (ok : exn -> Prop) (m : M A)
  (k : A -> M B) :
  raises_only ok m -> (forall a, raises_only ok (k a)) ->
  raises_only ok (bind m k).
Proof.
  intros Hm Hk w e w' H. unfold bind in H.
  destruct (m w) as [a w1|e1 w1|] eqn:Hmw; [|inversion H; subst|discriminate].
  - eapply Hk, H.
  - eapply Hm, Hmw.
Qed.

Lemma raises_only_ret {A : Type} (ok : exn -> Prop) (a : A) :
  raises_only ok (ret a).
Proof. intros w e w' H. discriminate. Qed.

Lemma raises_only_emit (ok : exn -> Prop) (e : event) :
  raises_only ok (emit e).
Proof. intros w e' w' H. discriminate. Qed.

Lemma raises_only_info (ok : exn -> Prop) (quiet : bool) (msg : message) :
  raises_only ok (info quiet msg).
Proof.
  unfold info. destruct quiet; [apply raises_only_ret|apply raises_only_emit].
Qed.

Lemma raises_only_poll (ok : exn -> Prop) (env : Env) (quiet : bool)
  (fuel : nat) :
  raises_only ok (poll_until_complete env quiet fuel).
Proof.
  induction fuel as [|fuel IH]; simpl; [intros w e w' H; discriminate|].
  apply raises_only_bind; [intros w e w' H; discriminate|].
  intros [|]; [apply raises_only_ret|].
  apply raises_only_bind; [apply raises_only_info|intros _].
  apply raises_only_bind; [apply raises_only_emit|intros _]. exact IH.
Qed.

(** The wait never raises. *)
Lemma raises_only_wait (ok : exn -> Prop) (env : Env) (quiet : bool)
  (fuel : nat) (any : bool) :
  raises_only ok (wait_rebalance_to_complete env quiet fuel any).
Proof.
  unfold wait_rebalance_to_complete.
  apply raises_only_bind.
  { destruct any; [apply raises_only_ret|intros w e w' H; discriminate]. }
  intros [|]; [apply raises_only_ret|].
  apply raises_only_bind; [apply raises_only_info|intros _].
  apply raises_only_bind.
  { destruct any; [apply raises_only_emit|apply raises_only_ret]. }
  intros _.
  apply raises_only_bind; [apply raises_only_poll|intros _].
  apply raises_only_info.
Qed.

Lemma raises_only_for_each {A S : Type} (ok : exn -> Prop)
  (body : A -> S -> M S) (xs : list A) :
  (forall x st, raises_only ok (body x st)) ->
  forall st, raises_only ok (for_each body xs st).
Proof.
  intros Hbody. induction xs as [|x xs IH]; intros st; simpl.
  - apply raises_only_ret.
  - apply raises_only_bind; [apply Hbody|exact IH].
Qed.

Lemma raises_only_service (quiet : bool) (S E : Q) (t : target)
  (st : loop_state) :
  raises_only runtime_error (service quiet S E t st).
Proof.
  destruct t as [[node path] W]. intros w e w' H.
  destruct (cur_weight w node) as [W0|] eqn:Hw.
  - rewrite (service_ret _ _ _ _ _ _ _ _ _ Hw) in H. discriminate.
  - rewrite service_raise in H by exact Hw. inversion H. left. reflexivity.
Qed.

Lemma raises_only_report_progress (quiet : bool) (E total changed : Q) :
  raises_only runtime_error (report_progress quiet E total changed).
Proof.
  unfold report_progress. intros w e w' H.
  destruct quiet; [discriminate|].
  destruct (Qgtb changed E); [|discriminate].
  destruct (Qeq_bool total 0); [|discriminate].
  inversion H. right. reflexivity.
Qed.

Lemma raises_only_round (env : Env) (quiet : bool) (n : Z) (S E : Q)
  (algo : string) (total : Q) (fuel : nat) (st : loop_state) :
  raises_only runtime_error (round env quiet n S E algo total fuel st).
Proof.
  unfold round.
  apply raises_only_bind; [apply raises_only_wait|intros _].
  apply raises_only_bind; [apply raises_only_report_progress|intros _].
  apply raises_only_bind; [|intros st'; apply raises_only_ret].
  apply raises_only_for_each. intros t st0. apply raises_only_service.
Qed.

Lemma raises_only_loop (env : Env) (quiet : bool) (n : Z) (S E : Q)
  (algo : string) (total : Q) (fuel : nat) :
  forall st,
    raises_only runtime_error
                (rebalance_loop env quiet n S E algo total fuel st).
Proof.
  induction fuel as [|fuel IH]; intros st; simpl;
    destruct (rebalance_nodes st); try apply raises_only_ret.
  - intros w e w' H. discriminate.
  - apply raises_only_bind; [apply raises_only_round|intros r].
    apply raises_only_bind; [apply IH|intros rs]. apply raises_only_ret.
Qed.

(** The loop and the final wait raise nothing but [TypeError] (a node
    without weight) and [ZeroDivisionError] (the progress line). *)
Lemma raises_only_schedule (env : Env) (quiet : bool) (n : Z) (S E : Q)
  (algo : string) (total : Q) (fuel : nat) (queue : list target) :
  raises_only runtime_error
              (schedule env quiet n S E algo total fuel queue).
Proof.
  unfold schedule.
  apply raises_only_bind; [apply raises_only_loop|intros rs].
  apply raises_only_bind; [apply raises_only_wait|intros _].
  apply raises_only_ret.
Qed.

(** What follows the resolution raises runtime errors only. *)
Lemma after_resolution_raises (env : Env) (quiet : bool) (fuel : nat)
  (args : Args) (n : Z) (S E : Q) (algo : string)
  (r : list target * Q) :
  raises_only runtime_error
    (bind (if quiet then ret false
           else if Qltb (snd r) E
                then bind (print msg_nothing_to_change) (fun _ => ret true)
                else bind (print (msg_total_sum (snd r)))
                          (fun _ => ret false))
          (fun nothing : bool =>
             if nothing then ret []
             else
               bind (if no_estimate args then ret false
                     else bind (estimate env (fst r))
                               (fun _ => ret (estimate_only args)))
                    (fun stop : bool =>
                       if stop then ret []
                       else schedule env quiet n S E algo (snd r) fuel
                                     (fst r)))).
Proof.
  apply raises_only_bind.
  { destruct quiet; [apply raises_only_ret|].
    destruct (Qltb _ _);
      (apply raises_only_bind; [apply raises_only_emit|intros _];
       apply raises_only_ret). }
  intros [|]; [apply raises_only_ret|].
  apply raises_only_bind.
  { destruct (no_estimate args); [apply raises_only_ret|].
    apply raises_only_bind; [|intros _; apply raises_only_ret].
    intros w e w' H.
    exfalso. unfold estimate in H.
    cbv beta iota delta [bind run print emit] in H.
    match type of H with
    | context [for_each ?f ?xs ?s ?x] =>
        assert (Hfe : exists w1, for_each f xs s x = Ret tt w1);
        [|destruct Hfe as (w1 & Hfe); rewrite Hfe in H; discriminate]
    end.
    generalize (fst r). intros ts.
    match goal with |- exists w1, for_each ?f ts tt ?x = _ =>
      generalize x end.
    induction ts as [|[[node path] W] ts IH]; intros x.
    - eexists. reflexivity.
    - cbn [for_each]. cbv beta iota delta [bind run emit]. apply IH. }
  intros [|]; [apply raises_only_ret|apply raises_only_schedule].
Qed.

(** X2: a run that raises [IndexError], [KeyError] or [ValueError] (a node
    not found or ambiguous, an entry without weight, an unknown location
    key) has run the topology query and printed, and nothing else: no
    weight was assigned, no weight update, estimate command, health query
    or sleep was issued. *)
Theorem configuration_errors_come_first (env : Env) (quiet : bool)
  (fuel : nat) (config : Config) (args : Args) (w w' : world) (e : exn) :
  do_rebalance env quiet fuel config args w = Raise e w' ->
  configuration_error e ->
  footprint resolution_event w w'.
Proof.
  intros Hrun Hcfg. unfold do_rebalance in Hrun.
  unfold bind at 1, run, emit in Hrun.
  unfold bind at 1 in Hrun.
  match type of Hrun with
  | context [resolve_targets ?q ?c ?es ?acc ?t ?w0] =>
      pose proof (passive_resolve_targets q c es acc t w0) as Hres;
      destruct (resolve_targets q c es acc t w0) as [r w1|e1 w1|] eqn:Hr
  end; [| |discriminate].
  - exfalso.
    pose proof (after_resolution_raises env quiet fuel args
                  (default 4 (max_reweight config))
                  (default (1 # 2)%Q (step config))
                  (default (1 # 100)%Q (min_weight_diff config))
                  (default "rround" (osd_selection config)) r
                  w1 e w' Hrun) as [->| ->]; exact Hcfg.
  - inversion Hrun; subst.
    destruct Hres as (Hw & Hp & added & Htr & Hall).
    split; [exact Hw|]. split; [exact Hp|].
    exists (Run ceph_osd_tree :: added).
    split.
    + rewrite Htr. simpl. rewrite <- List.app_assoc. reflexivity.
    + constructor; [exact I|].
      eapply Forall_impl; [exact Hall|]. intros ev [msg ->]. exact I.
Qed.

Lemma in_roll (n : Z) (algo : string) (queue : list target) (t : target) :
  In t (roll n algo queue) <-> In t queue.
Proof.
  unfold roll, next_batch. destruct (String.eqb algo "rround"); [|tauto].
  rewrite List.in_app_iff. rewrite <- (py_take_drop n queue) at 3.
  rewrite List.in_app_iff. tauto.
Qed.

Lemma estimate_returns (env : Env) (targets : list target) (w : world) :
  exists w', estimate env targets w = Ret tt w' /\ weights w' = weights w.
Proof.
  pose proof (passive_estimate env targets w) as Hp.
  destruct (estimate env targets w) as [[] w'|e w'|] eqn:H.
  - exists w'. split; [reflexivity|]. apply Hp.
  - exfalso. unfold estimate in H.
    cbv beta iota delta [bind run print emit] in H.
    match type of H with
    | context [for_each ?f ?xs ?s ?x] =>
        assert (Hfe : exists w1, for_each f xs s x = Ret tt w1);
        [|destruct Hfe as (w1 & Hfe); rewrite Hfe in H; discriminate]
    end.
    clear. generalize targets. intros ts.
    match goal with |- exists w1, for_each ?f ts tt ?x = _ =>
      generalize x end.
    induction ts as [|[[node path] W] ts IH]; intros x.
    + eexists. reflexivity.
    + cbn [for_each]. cbv beta iota delta [bind run emit]. apply IH.
  - destruct Hp.
Qed.

(** When it is not quiet, the resolution reads the weight of every node it
    queues. *)
Lemma resolve_targets_weighted (crush : Crush) (entries : list osd_entry) :
  forall (acc : list target) (total : Q) (w : world) (ts : list target)
         (total' : Q) (w1 : world),
    resolve_targets false crush entries acc total w = Ret (ts, total') w1 ->
    (forall t, In t acc -> cur_weight w (node_of t) <> None) ->
    forall t, In t ts -> cur_weight w (node_of t) <> None.
Proof.
  induction entries as [|entry rest IH]; intros acc total w ts total' w1 Hres Hacc.
  - simpl in Hres. inversion Hres; subst. exact Hacc.
  - cbn [resolve_targets] in Hres.
    cbv beta iota delta [bind ret raise lift print emit read_weight] in Hres.
    destruct (entry_weight entry) as [W|]; [|discriminate].
    destruct (sort_path (location entry)) as [path|e]; [|discriminate].
    destruct (find_node crush path) as [node|e]; [|discriminate].
    cbn [trace polls weights] in Hres.
    change (cur_weight {| trace := trace w ++ [Print (msg_target node W)];
                          polls := polls w; weights := weights w |} node)
      with (cur_weight w node) in Hres.
    destruct (cur_weight w node) as [W0|] eqn:Hw0; [|discriminate].
    intros t Ht.
    change (cur_weight w (node_of t))
      with (cur_weight {| trace := trace w ++ [Print (msg_target node W)];
                          polls := polls w; weights := weights w |}
                       (node_of t)).
    eapply IH; [exact Hres| |exact Ht].
    intros t' Ht'. apply List.in_app_or in Ht'.
    destruct Ht' as [Ht'|[<-|[]]].
    + apply Hacc, Ht'.
    + cbn [node_of fst].
      change (cur_weight w node <> None). congruence.
Qed.

(** ** A step within the tolerance *)

Lemma issues_nothing_bind {A B : Type} (m : M A) (k : A -> M B) :
  issues_nothing m -> (forall a, issues_nothing (k a)) ->
  issues_nothing (bind m k).
Proof.
  intros Hm Hk w. unfold bind. specialize (Hm w).
  destruct (m w) as [a w1|e w1|]; [|exact Hm|exact I].
  destruct Hm as (added & Htr & Hc). specialize (Hk a w1).
  destruct (k a w1) as [b w2|e w2|]; [| |exact I];
    destruct Hk as (added2 & Htr2 & Hc2);
    exists (added ++ added2);
    rewrite Htr2, Htr, List.app_assoc, count_updates_app, Hc, Hc2; auto.
Qed.

Lemma issues_nothing_ret {A : Type} (a : A) : issues_nothing (ret a).
Proof. intros w. exists []. rewrite List.app_nil_r. auto. Qed.

Lemma inert_issues_nothing {A : Type} (m : M A) :
  inert m -> issues_nothing m.
Proof.
  intros Hm w. specialize (Hm w).
  destruct (m w) as [a w1|e w1|]; [| |exact I]; apply Hm.
Qed.

Lemma read_only_no_updates (added : list event) :
  Forall read_only_event added -> count_updates added = 0%nat.
Proof.
  induction 1 as [|e l He _ IH]; [reflexivity|].
  unfold count_updates in *. simpl.
  destruct e as [[]| | | | |]; simpl in *; try exact IH. destruct He.
Qed.

Lemma passive_issues_nothing {A : Type} (P : event -> Prop) (Q : A -> Prop)
  (m : M A) :
  (forall e, P e -> read_only_event e) -> passive P Q m -> issues_nothing m.
Proof.
  intros HP Hm w. specialize (Hm w).
  assert (Hf : forall w', footprint P w w' ->
            exists added, trace w' = trace w ++ added
                          /\ count_updates added = 0%nat).
  { intros w' (_ & _ & added & Htr & Hall). exists added.
    split; [exact Htr|]. apply read_only_no_updates.
    eapply Forall_impl; eauto. }
  destruct (m w) as [a w1|e w1|]; [| |exact I]; apply Hf; apply Hm.
Qed.

(** The clamped change is never larger than the step. *)
Lemma clamped_magnitude (S W W0 : Q) :
  (0 <= S)%Q -> (Qabs (clamped_change S W W0) <= S)%Q.
Proof.
  intros HS.
  destruct (Qlt_le_dec S (Qabs (W - W0))) as [Hbig|Hsmall].
  - rewrite clamped_change_big by exact Hbig.
    rewrite copysign_pos by exact HS.
    destruct (Qltb (W - W0) 0); [rewrite Qabs_opp|];
      rewrite Qabs_pos by exact HS; lra.
  - rewrite clamped_change_small by exact Hsmall. exact Hsmall.
Qed.

Lemma issues_nothing_service (quiet : bool) (S E : Q) (t : target)
  (st : loop_state) :
  (0 <= S <= E)%Q -> issues_nothing (service quiet S E t st).
Proof.
  intros [HS HSE] w. destruct t as [[node path] W].
  destruct (cur_weight w node) as [W0|] eqn:Hw.
  - rewrite (service_ret _ _ _ _ _ _ _ _ _ Hw). cbn [grows trace].
    eexists. split; [reflexivity|].
    pose proof (clamped_magnitude S W W0 HS).
    unfold update_events, Qgtb.
    destruct (Qltb_spec E (Qabs (clamped_change S W W0))); [lra|reflexivity].
  - rewrite service_raise by exact Hw.
    exists []. rewrite List.app_nil_r. auto.
Qed.

Lemma issues_nothing_for_each {A S : Type} (body : A -> S -> M S)
  (xs : list A) :
  (forall x st, issues_nothing (body x st)) ->
  forall st, issues_nothing (for_each body xs st).
Proof.
  intros Hbody. induction xs as [|x xs IH]; intros st; simpl.
  - apply issues_nothing_ret.
  - apply issues_nothing_bind; [apply Hbody|exact IH].
Qed.

Lemma issues_nothing_loop (env : Env) (quiet : bool) (n : Z) (S E : Q)
  (algo : string) (total : Q) (fuel : nat) :
  (0 <= S <= E)%Q ->
  forall st,
    issues_nothing (rebalance_loop env quiet n S E algo total fuel st).
Proof.
  intros HSE. induction fuel as [|fuel IH]; intros st; simpl;
    destruct (rebalance_nodes st); try apply issues_nothing_ret.
  - intros w. exact I.
  - apply issues_nothing_bind; [|intros r].
    + unfold round.
      apply issues_nothing_bind;
        [apply inert_issues_nothing, inert_wait|intros _].
      apply issues_nothing_bind;
        [apply inert_issues_nothing, inert_report_progress|intros _].
      apply issues_nothing_bind; [|intros st'; apply issues_nothing_ret].
      apply issues_nothing_for_each. intros x st0.
      apply issues_nothing_service, HSE.
    + apply issues_nothing_bind; [apply IH|intros rs].
      apply issues_nothing_ret.
Qed.

(** X4: when [step] is not negative and not larger than [min_weight_diff],
    a run never issues a weight update: every clamped change is within the
    tolerance, so the weights are walked in memory only. *)
Theorem step_within_tolerance_issues_nothing (env : Env) (quiet : bool)
  (fuel : nat) (config : Config) (args : Args) (w : world) :
  (0 <= default (1 # 2) (step config)
   <= default (1 # 100) (min_weight_diff config))%Q ->
  grows (fun added => count_updates added = 0%nat) w
        (do_rebalance env quiet fuel config args w).
Proof.
  intros HSE. revert w.
  change (issues_nothing (do_rebalance env quiet fuel config args)).
  unfold do_rebalance.
  apply issues_nothing_bind;
    [apply (passive_issues_nothing read_only_event (fun _ => True));
     [auto|apply (passive_emit read_only_event); exact I]|intros _].
  apply issues_nothing_bind.
  { eapply passive_issues_nothing; [|apply passive_resolve_targets].
    intros e [msg ->]. exact I. }
  intros r.
  apply issues_nothing_bind.
  { destruct quiet; [apply issues_nothing_ret|].
    destruct (Qltb _ _);
      (apply issues_nothing_bind; [|intros _; apply issues_nothing_ret]);
      apply (passive_issues_nothing read_only_event (fun _ => True));
      auto; apply (passive_emit read_only_event); exact I. }
  intros [|]; [apply issues_nothing_ret|].
  apply issues_nothing_bind.
  { destruct (no_estimate args); [apply issues_nothing_ret|].
    apply issues_nothing_bind; [|intros _; apply issues_nothing_ret].
    eapply passive_issues_nothing; [|apply passive_estimate]. auto. }
  intros [|]; [apply issues_nothing_ret|].
  unfold schedule.
  apply issues_nothing_bind; [apply issues_nothing_loop, HSE|intros rs].
  apply issues_nothing_bind;
    [apply inert_issues_nothing, inert_wait|intros _].
  apply issues_nothing_ret.
Qed.

(** ** The shape of a run *)

(** The resolution queues one target per entry, and its total is a sum of
    absolute values. *)
Lemma resolve_targets_shape (quiet : bool) (crush : Crush)
  (entries : list osd_entry) :
  forall (acc : list target) (total : Q) (w : world) (ts : list target)
         (total' : Q) (w1 : world),
    resolve_targets quiet crush entries acc total w = Ret (ts, total') w1 ->
    length ts = (length acc + length entries)%nat
    /\ ((0 <= total)%Q -> (0 <= total')%Q).
Proof.
  induction entries as [|entry rest IH]; intros acc total w ts total' w1 Hres.
  - simpl in Hres. inversion Hres; subst. split; [simpl; lia|auto].
  - cbn [resolve_targets] in Hres.
    cbv beta iota delta [bind ret raise lift print emit read_weight] in Hres.
    destruct (entry_weight entry) as [W|]; [|discriminate].
    destruct (sort_path (location entry)) as [path|e]; [|discriminate].
    destruct (find_node crush path) as [node|e]; [|discriminate].
    destruct quiet.
    + apply IH in Hres. destruct Hres as [Hlen Htot].
      rewrite List.length_app in Hlen. cbn [length] in *.
      split; [lia|exact Htot].
    + cbn [trace polls weights] in Hres.
      match type of Hres with
      | context [cur_weight ?x node] => destruct (cur_weight x node) as [W0|]
      end; [|discriminate].
      apply IH in Hres. destruct Hres as [Hlen Htot].
      rewrite List.length_app in Hlen. cbn [length] in *. split; [lia|].
      intros H0. apply Htot.
      pose proof (Qabs_nonneg (W0 - W)). lra.
Qed.

(** A run either fails while it resolves its targets, or ends on
    "nothing to change", or ends after the estimate, or is the loop run on
    the resolved queue from a world in which nothing has changed yet. *)
Lemma do_rebalance_decompose (env : Env) (quiet : bool) (fuel : nat)
  (config : Config) (args : Args) (w : world)
  (r : result (list (list target))) :
  let E := default (1 # 100)%Q (min_weight_diff config) in
  do_rebalance env quiet fuel config args w = r ->
  (exists e w', r = Raise e w' /\ footprint resolution_event w w')
  \/ exists ts total,
       length ts = length (osds config)
       /\ (0 <= total)%Q
       /\ (quiet = false ->
           forall t, In t ts -> cur_weight w (node_of t) <> None)
       /\ ((exists w', quiet = false /\ (total < E)%Q
                       /\ r = Ret [] w' /\ footprint resolution_event w w')
           \/ (exists w', no_estimate args = false
                          /\ estimate_only args = true
                          /\ r = Ret [] w'
                          /\ footprint read_only_event w w')
           \/ (exists w2,
                 (estimate_only args = false \/ no_estimate args = true)
                 /\ (quiet = false -> (E <= total)%Q)
                 /\ footprint read_only_event w w2
                 /\ r = schedule env quiet
                          (default 4 (max_reweight config))
                          (default (1 # 2)%Q (step config)) E
                          (default "rround" (osd_selection config))
                          total fuel ts w2)).
Proof.
  intros E Hrun. unfold do_rebalance in Hrun.
  unfold bind at 1, run, emit in Hrun. unfold bind at 1 in Hrun.
  set (w0 := {| trace := trace w ++ [Run ceph_osd_tree];
                polls := polls w; weights := weights w |}) in *.
  assert (Hw0 : forall P, P (Run ceph_osd_tree) -> footprint P w w0).
  { intros P HP. split; [reflexivity|]. split; [reflexivity|].
    exists [Run ceph_osd_tree]. split; [reflexivity|].
    constructor; [exact HP|constructor]. }
  pose proof (passive_resolve_targets quiet (osd_tree env) (osds config)
                [] 0%Q w0) as Hres.
  pose proof (resolve_targets_shape quiet (osd_tree env) (osds config)
                [] 0%Q w0) as Hshape.
  pose proof (resolve_targets_weighted (osd_tree env) (osds config)
                [] 0%Q w0) as Hwt.
  destruct (resolve_targets quiet (osd_tree env) (osds config) [] 0%Q w0)
    as [[ts total] w1|e1 w1|] eqn:Hr; [| |destruct Hres].
  2:{ left. exists e1, w1. split; [symmetry; exact Hrun|].
      eapply footprint_trans; [apply Hw0; exact I|].
      eapply footprint_weaken; [|exact Hres]. intros ev [msg ->]. exact I. }
  right. exists ts, total. cbn [fst snd] in Hrun.
  destruct (Hshape ts total w1 eq_refl) as [Hlen Htot]. clear Hshape.
  destruct Hres as [Hres _].
  assert (Hf1 : footprint resolution_event w w1).
  { eapply footprint_trans; [apply Hw0; exact I|].
    eapply footprint_weaken; [|exact Hres]. intros ev [msg ->]. exact I. }
  assert (Hf1' : footprint read_only_event w w1).
  { eapply footprint_weaken; [|exact Hf1]. intros [[]| | | | |]; simpl; tauto. }
  split; [exact Hlen|]. split; [apply Htot; lra|].
  split.
  { intros ->. intros t Ht.
    exact (Hwt ts total w1 Hr (fun t (H : In t []) => match H with end)
             t Ht). }
  fold E in Hrun.
  set (n := default 4 (max_reweight config)) in *.
  set (S := default (1 # 2)%Q (step config)) in *.
  set (algo := default "rround" (osd_selection config)) in *.
  assert (Hloop : forall w2,
            footprint read_only_event w w2 ->
            (quiet = false -> (E <= total)%Q) ->
            bind (if no_estimate args then ret false
                  else bind (estimate env ts)
                            (fun _ => ret (estimate_only args)))
                 (fun stop : bool =>
                    if stop then ret []
                    else schedule env quiet n S E algo total fuel ts) w2 = r ->
            (exists w', no_estimate args = false
                        /\ estimate_only args = true
                        /\ r = Ret [] w'
                        /\ footprint read_only_event w w')
            \/ (exists w3,
                  (estimate_only args = false \/ no_estimate args = true)
                  /\ (quiet = false -> (E <= total)%Q)
                  /\ footprint read_only_event w w3
                  /\ r = schedule env quiet n S E algo total fuel ts w3)).
  { intros w2 Hf2 HE Hrest.
    destruct (no_estimate args) eqn:Hne.
    - right. exists w2. split; [auto|]. split; [exact HE|].
      split; [exact Hf2|symmetry; exact Hrest].
    - pose proof (passive_estimate env ts w2) as Hp.
      destruct (estimate_returns env ts w2) as (w3 & Hest & _).
      rewrite Hest in Hp. destruct Hp as [Hp _].
      unfold bind in Hrest. rewrite Hest in Hrest. unfold ret in Hrest.
      destruct (estimate_only args) eqn:Heo.
      + left. exists w3. split; [reflexivity|]. split; [reflexivity|].
        split; [symmetry; exact Hrest|]. eapply footprint_trans; eauto.
      + right. exists w3. split; [auto|]. split; [exact HE|].
        split; [eapply footprint_trans; eauto|symmetry; exact Hrest]. }
  destruct quiet.
  - destruct (Hloop w1 Hf1' ltac:(intros; discriminate) Hrun) as [H|H];
      [right; left; exact H|right; right; exact H].
  - destruct (Qltb_spec total E) as [Hlt|Hge].
    + left. eexists. split; [reflexivity|]. split; [exact Hlt|].
      split; [symmetry; exact Hrun|].
      eapply footprint_trans; [exact Hf1|].
      split; [reflexivity|]. split; [reflexivity|].
      eexists. split; [reflexivity|]. constructor; [exact I|constructor].
    + set (w2 := {| trace := trace w1 ++ [Print (msg_total_sum total)];
                    polls := polls w1; weights := weights w1 |}).
      assert (Hf2 : footprint read_only_event w w2).
      { eapply footprint_trans; [exact Hf1'|].
        split; [reflexivity|]. split; [reflexivity|].
        eexists. split; [reflexivity|]. constructor; [exact I|constructor]. }
      destruct (Hloop w2 Hf2 (fun _ => Qnot_lt_le _ _ Hge) Hrun) as [H|H];
        [right; left; exact H|right; right; exact H].
Qed.

(** ** Runs that never return *)

(** When no round can empty a non-empty queue, the loop never returns. *)
Lemma loop_never_returns (env : Env) (quiet : bool) (n : Z) (S E : Q)
  (algo : string) (total : Q) :
  (forall fuel st w batch st' w',
      rebalance_nodes st <> [] ->
      round env quiet n S E algo total fuel st w = Ret (batch, st') w' ->
      rebalance_nodes st' <> []) ->
  forall fuel st w rs w',
    rebalance_nodes st <> [] ->
    rebalance_loop env quiet n S E algo total fuel st w <> Ret rs w'.
Proof.
  intros Hround. induction fuel as [|fuel IH]; intros st w rs w' Hq H;
    cbn [rebalance_loop] in H;
    destruct (rebalance_nodes st) as [|t0 q0] eqn:Hst; try congruence;
    try discriminate.
  rewrite <- Hst in Hq. unfold bind at 1 in H.
  destruct (round env quiet n S E algo total fuel st w)
    as [[batch st'] w1|e w1|] eqn:Hr; try discriminate.
  cbn [fst snd] in H. unfold bind at 1 in H.
  destruct (rebalance_loop env quiet n S E algo total fuel st' w1)
    as [rs1 w2|e w2|] eqn:Hl; try discriminate.
  eapply IH; [|exact Hl]. eapply Hround; eauto.
Qed.

Lemma schedule_never_returns (env : Env) (quiet : bool) (n : Z) (S E : Q)
  (algo : string) (total : Q) :
  (forall fuel st w batch st' w',
      rebalance_nodes st <> [] ->
      round env quiet n S E algo total fuel st w = Ret (batch, st') w' ->
      rebalance_nodes st' <> []) ->
  forall fuel queue w log w',
    queue <> [] ->
    schedule env quiet n S E algo total fuel queue w <> Ret log w'.
Proof.
  intros Hround fuel queue w log w' Hq H. unfold schedule, bind in H.
  match type of H with
  | context [rebalance_loop ?a ?b ?c ?d ?f ?g ?h ?i ?s ?x] =>
      destruct (rebalance_loop a b c d f g h i s x) as [rs w1|e1 w1|] eqn:Hl
  end; try discriminate.
  eapply (loop_never_returns env quiet n S E algo total Hround); [|exact Hl].
  exact Hq.
Qed.

Lemma round_batch_result (env : Env) (quiet : bool) (n : Z) (S E : Q)
  (algo : string) (total : Q) (fuel : nat) (st : loop_state) (w : world)
  (batch : list target) (st' : loop_state) (w' : world) :
  round env quiet n S E algo total fuel st w = Ret (batch, st') w' ->
  exists w1,
    for_each (service quiet S E) (next_batch n (rebalance_nodes st))
      {| rebalance_nodes := roll n algo (rebalance_nodes st);
         any_updates := false;
         already_changed := already_changed st |} w1 = Ret st' w'.
Proof.
  intros H. unfold round, bind in H.
  destruct (wait_rebalance_to_complete env quiet fuel (any_updates st) w)
    as [[] w1|e w1|]; try discriminate.
  destruct (report_progress quiet E total (already_changed st) w1)
    as [[] w2|e w2|]; try discriminate.
  exists w2.
  destruct (for_each _ _ _ w2) as [st1 w3|e w3|]; try discriminate.
  inversion H; subst. reflexivity.
Qed.

Lemma roll_nonempty (n : Z) (algo : string) (queue : list target) :
  queue <> [] -> roll n algo queue <> [].
Proof.
  destruct queue as [|t q]; [congruence|]. intros _ Hnil.
  assert (Hin : In t (roll n algo (t :: q))) by (apply in_roll; left; reflexivity).
  rewrite Hnil in Hin. destruct Hin.
Qed.

(** With a tolerance that is not positive no service evicts. *)
Lemma for_each_service_keeps_queue (quiet : bool) (S E : Q)
  (batch : list target) :
  (E <= 0)%Q ->
  forall st w st' w',
    for_each (service quiet S E) batch st w = Ret st' w' ->
    rebalance_nodes st' = rebalance_nodes st.
Proof.
  intros HE. induction batch as [|[[node path] W] batch IH];
    intros st w st' w' H.
  - simpl in H. inversion H. reflexivity.
  - cbn [for_each] in H. unfold bind in H.
    destruct (cur_weight w node) as [W0|] eqn:Hw.
    2:{ rewrite service_raise in H by exact Hw. discriminate. }
    rewrite (service_ret _ _ _ _ _ _ _ _ _ Hw) in H.
    apply IH in H. rewrite H. cbn [rebalance_nodes].
    pose proof (Qabs_nonneg (W0 + clamped_change S W W0 - W)).
    destruct (Qltb_spec (Qabs (W0 + clamped_change S W W0 - W)) E);
      [lra|reflexivity].
Qed.

(** X5: with [min_weight_diff <= 0] no target ever counts as converged: a
    run with at least one configured target never returns, unless it is an
    estimate-only run (which ends before the loop). *)
Theorem nonpositive_tolerance_never_returns (env : Env) (quiet : bool)
  (fuel : nat) (config : Config) (args : Args) (w : world)
  (log : list (list target)) (w' : world) :
  (default (1 # 100) (min_weight_diff config) <= 0)%Q ->
  osds config <> [] ->
  estimate_only args = false \/ no_estimate args = true ->
  do_rebalance env quiet fuel config args w <> Ret log w'.
Proof.
  intros HE Hosds Hest Hrun.
  destruct (do_rebalance_decompose env quiet fuel config args w _ Hrun)
    as [(e & w1 & H & _)|(ts & total & Hlen & Htot & _ & Hcases)];
    [discriminate|].
  destruct Hcases as [(w1 & _ & Hlt & _)|[(w1 & Hne & Heo & _)|
                      (w2 & _ & _ & _ & Hs)]].
  - lra.
  - destruct Hest; congruence.
  - symmetry in Hs. revert Hs. apply schedule_never_returns.
    + intros f st w0 batch st' w1 Hq Hr.
      apply round_batch_result in Hr. destruct Hr as (w3 & Hr).
      apply (for_each_service_keeps_queue _ _ _ _ HE) in Hr.
      rewrite Hr. cbn [rebalance_nodes]. apply roll_nonempty, Hq.
    + destruct ts; [|discriminate].
      destruct (osds config); [congruence|discriminate].
Qed.

(** X6: with [max_reweight = 0] every batch is empty and the queue never
    shrinks: a run with at least one configured target returns only if it
    ends before the loop, on "nothing to change" or after the estimate. *)
Theorem zero_batch_never_finishes_the_loop (env : Env) (quiet : bool)
  (fuel : nat) (config : Config) (args : Args) (w : world)
  (log : list (list target)) (w' : world) :
  max_reweight config = Some 0 ->
  osds config <> [] ->
  do_rebalance env quiet fuel config args w = Ret log w' ->
  log = [] /\ footprint read_only_event w w'.
Proof.
  intros Hn Hosds Hrun.
  destruct (do_rebalance_decompose env quiet fuel config args w _ Hrun)
    as [(e & w1 & H & _)|(ts & total & Hlen & Htot & _ & Hcases)];
    [discriminate|].
  destruct Hcases as [(w1 & _ & _ & Hr & Hf)|[(w1 & _ & _ & Hr & Hf)|
                      (w2 & _ & _ & _ & Hs)]].
  - inversion Hr; subst. split; [reflexivity|].
    eapply footprint_weaken; [|exact Hf]. intros [[]| | | | |]; simpl; tauto.
  - inversion Hr; subst. auto.
  - exfalso. symmetry in Hs. revert Hs. rewrite Hn. cbn [default].
    apply schedule_never_returns.
    + intros f st w0 batch st' w1 Hq Hr.
      apply round_batch_result in Hr. destruct Hr as (w3 & Hr).
      unfold next_batch, py_take in Hr. simpl in Hr. inversion Hr; subst.
      cbn [rebalance_nodes]. apply roll_nonempty, Hq.
    + destruct ts; [|discriminate].
      destruct (osds config); [congruence|discriminate].
Qed.

(** ** What a finished run leaves *)

(** ** The settle wait *)

Lemma slept_app (a b : list event) : slept (a ++ b) = slept a + slept b.
Proof.
  induction a as [|e a IH]; simpl; [reflexivity|].
  destruct e; rewrite ?IH; lia.
Qed.

Lemma health_queries_app (a b : list event) :
  health_queries (a ++ b) = (health_queries a + health_queries b)%nat.
Proof.
  unfold health_queries. rewrite List.filter_app, List.length_app. reflexivity.
Qed.

Lemma poll_never_times_out (env : Env) (quiet : bool) (fuel : nat) :
  forall w,
    (forall k, (polls w <= k)%nat -> all_settled (pg_stat env k) = false) ->
    poll_until_complete env quiet fuel w = OutOfFuel.
Proof.
  induction fuel as [|fuel IH]; intros w Hnever; [reflexivity|].
  simpl. unfold bind, is_rebalance_complete.
  rewrite (Hnever (polls w)) by lia.
  unfold info, print, sleep, emit, ret.
  destruct quiet; simpl; apply IH; simpl; intros k Hk; apply Hnever; lia.
Qed.

(** X8: the wait has no timeout: against a cluster that never reports
    itself settled it never returns, whatever the fuel. *)
Theorem wait_never_times_out (env : Env) (quiet : bool) (fuel : nat)
  (any : bool) (w : world) :
  (forall k, (polls w <= k)%nat -> all_settled (pg_stat env k) = false) ->
  wait_rebalance_to_complete env quiet fuel any w = OutOfFuel.
Proof.
  intros Hnever. unfold wait_rebalance_to_complete.
  destruct any; cbn [negb].
  - unfold bind, ret, info, print, sleep, emit.
    destruct quiet; simpl;
      rewrite poll_never_times_out; try reflexivity;
      simpl; intros k Hk; apply Hnever; lia.
  - unfold bind at 1. unfold is_rebalance_complete at 1.
    rewrite (Hnever (polls w)) by lia.
    unfold bind, ret, info, print, emit.
    destruct quiet; simpl;
      rewrite poll_never_times_out; try reflexivity;
      simpl; intros k Hk; apply Hnever; lia.
Qed.

(** The polling loop returns at the first settled answer, having slept
    five seconds after each of the others. *)
Lemma poll_returns_at_first_settled (env : Env) (quiet : bool) (fuel : nat) :
  forall w w',
    poll_until_complete env quiet fuel w = Ret tt w' ->
    exists k added,
      polls w' = (polls w + k + 1)%nat
      /\ all_settled (pg_stat env (polls w + k)) = true
      /\ (forall j, (j < k)%nat ->
                    all_settled (pg_stat env (polls w + j)) = false)
      /\ trace w' = trace w ++ added
      /\ health_queries added = (k + 1)%nat
      /\ slept added = 5 * Z.of_nat k.
Proof.
  induction fuel as [|fuel IH]; intros w w' H; [discriminate|].
  simpl in H. unfold bind, is_rebalance_complete in H.
  destruct (all_settled (pg_stat env (polls w))) eqn:Hnow.
  - inversion H; subst. exists O, [Run ceph_pg_stat]. simpl.
    rewrite Nat.add_0_r. repeat split; try lia; auto.
  - unfold info, print, sleep, emit, ret in H.
    assert (Hstep : forall mid x,
              trace x = trace w ++ [Run ceph_pg_stat] ++ mid ->
              polls x = Datatypes.S (polls w) ->
              health_queries mid = 0%nat -> slept mid = 5 ->
              poll_until_complete env quiet fuel x = Ret tt w' ->
              exists k added,
                polls w' = (polls w + k + 1)%nat
                /\ all_settled (pg_stat env (polls w + k)) = true
                /\ (forall j, (j < k)%nat ->
                       all_settled (pg_stat env (polls w + j)) = false)
                /\ trace w' = trace w ++ added
                /\ health_queries added = (k + 1)%nat
                /\ slept added = 5 * Z.of_nat k).
    { intros mid x Htx Hpx Hq Hs Hx. apply IH in Hx.
      destruct Hx as (k & added & Hpolls & Hset & Hbefore & Htr & Hhq & Hsl).
      rewrite Hpx in *.
      exists (Datatypes.S k), ([Run ceph_pg_stat] ++ mid ++ added).
      split; [lia|].
      split; [replace (polls w + Datatypes.S k)%nat
                with (Datatypes.S (polls w) + k)%nat by lia; exact Hset|].
      split.
      { intros [|j'] Hj; [rewrite Nat.add_0_r; exact Hnow|].
        replace (polls w + Datatypes.S j')%nat
          with (Datatypes.S (polls w) + j')%nat by lia.
        apply Hbefore. lia. }
      split; [rewrite Htr, Htx, <- !List.app_assoc; reflexivity|].
      rewrite !health_queries_app, !slept_app, Hhq, Hq, Hs, Hsl.
      split; [simpl; lia|simpl; lia]. }
    destruct quiet; simpl in H.
    + eapply (Hstep [Sleep 5]); [| | | |exact H]; simpl;
        rewrite <- ?List.app_assoc; reflexivity.
    + eapply (Hstep [Print msg_dot; Sleep 5]); [| | | |exact H]; simpl;
        rewrite <- ?List.app_assoc; reflexivity.
Qed.

(** X9: when the wait returns, it returns at the first health query that is
    answered "settled", with no weight assigned.  After updates it has
    slept five seconds before each of its queries; without updates it has
    not slept before its first two queries: none at all if the first answer
    is "settled", five seconds after each unsettled answer but the first
    otherwise. *)
Theorem wait_returns_at_first_settled (env : Env) (quiet : bool)
  (fuel : nat) (any : bool) (w w' : world) :
  wait_rebalance_to_complete env quiet fuel any w = Ret tt w' ->
  exists k added,
    polls w' = (polls w + k + 1)%nat
    /\ all_settled (pg_stat env (polls w + k)) = true
    /\ (forall j, (j < k)%nat ->
                  all_settled (pg_stat env (polls w + j)) = false)
    /\ weights w' = weights w
    /\ trace w' = trace w ++ added
    /\ health_queries added = (k + 1)%nat
    /\ slept added
       = 5 * (if any then Z.of_nat k + 1 else Z.max 0 (Z.of_nat k - 1)).
Proof.
  intros H.
  pose proof (inert_wait env quiet fuel any w) as Hin. rewrite H in Hin.
  destruct Hin as [Hweights _].
  unfold wait_rebalance_to_complete in H.
  destruct any; cbn [negb] in H.
  - unfold bind at 1, ret at 1 in H. unfold bind at 1 in H.
    destruct (info quiet msg_waiting w) as [[] w1|e w1|] eqn:H1;
      [|destruct quiet; discriminate..].
    assert (Hw1 : exists pre, trace w1 = trace w ++ pre
                              /\ health_queries pre = 0%nat /\ slept pre = 0
                              /\ polls w1 = polls w).
    { unfold info, print, emit, ret in H1.
      destruct quiet; inversion H1; subst; simpl.
      - exists []. rewrite List.app_nil_r. auto.
      - exists [Print msg_waiting]. auto. }
    destruct Hw1 as (pre & Htr1 & Hq1 & Hs1 & Hp1).
    unfold bind at 1, sleep, emit in H. unfold bind at 1 in H.
    match type of H with
    | context [poll_until_complete _ _ _ ?x] =>
        destruct (poll_until_complete env quiet fuel x) as [[] w2|e w2|] eqn:Hp
    end; try discriminate.
    apply poll_returns_at_first_settled in Hp.
    destruct Hp as (k & added & Hpolls & Hset & Hbefore & Htr & Hhq & Hsl).
    cbn [polls trace] in *. rewrite Hp1 in *.
    assert (Hw' : exists post, trace w' = trace w2 ++ post
                               /\ health_queries post = 0%nat
                               /\ slept post = 0 /\ polls w' = polls w2).
    { unfold info, print, emit, ret in H.
      destruct quiet; inversion H; subst; simpl.
      - exists []. rewrite List.app_nil_r. auto.
      - exists [Print msg_done]. auto. }
    destruct Hw' as (post & Htr' & Hq' & Hs' & Hp').
    exists k, (pre ++ [Sleep 5] ++ added ++ post).
    split; [lia|]. split; [exact Hset|]. split; [exact Hbefore|].
    split; [exact Hweights|].
    split; [rewrite Htr', Htr, Htr1, <- !List.app_assoc; reflexivity|].
    rewrite !health_queries_app, !slept_app, Hq1, Hs1, Hhq, Hsl, Hq', Hs'.
    split; [simpl; lia|simpl; lia].
  - unfold bind at 1, is_rebalance_complete at 1 in H.
    destruct (all_settled (pg_stat env (polls w))) eqn:Hnow.
    + inversion H; subst. exists O, [Run ceph_pg_stat]. simpl.
      rewrite Nat.add_0_r. repeat split; try lia; auto.
    + unfold bind at 1 in H.
      set (w0 := {| trace := trace w ++ [Run ceph_pg_stat];
                    polls := Datatypes.S (polls w);
                    weights := weights w |}) in *.
      destruct (info quiet msg_waiting w0) as [[] w1|e w1|] eqn:H1;
        [|destruct quiet; discriminate..].
      assert (Hw1 : exists pre, trace w1 = trace w0 ++ pre
                                /\ health_queries pre = 0%nat /\ slept pre = 0
                                /\ polls w1 = polls w0).
      { unfold info, print, emit, ret in H1.
        destruct quiet; inversion H1; subst; simpl.
        - exists []. rewrite List.app_nil_r. auto.
        - exists [Print msg_waiting]. auto. }
      destruct Hw1 as (pre & Htr1 & Hq1 & Hs1 & Hp1).
      unfold bind at 1, ret at 1 in H. unfold bind at 1 in H.
      destruct (poll_until_complete env quiet fuel w1) as [[] w2|e w2|] eqn:Hp;
        try discriminate.
      apply poll_returns_at_first_settled in Hp.
      destruct Hp as (k & added & Hpolls & Hset & Hbefore & Htr & Hhq & Hsl).
      rewrite Hp1 in *. unfold w0 in *. cbn [polls trace] in *.
      assert (Hw' : exists post, trace w' = trace w2 ++ post
                                 /\ health_queries post = 0%nat
                                 /\ slept post = 0 /\ polls w' = polls w2).
      { unfold info, print, emit, ret in H.
        destruct quiet; inversion H; subst; simpl.
        - exists []. rewrite List.app_nil_r. auto.
        - exists [Print msg_done]. auto. }
      destruct Hw' as (post & Htr' & Hq' & Hs' & Hp').
      exists (Datatypes.S k), ([Run ceph_pg_stat] ++ pre ++ added ++ post).
      split; [lia|].
      split; [replace (polls w + Datatypes.S k)%nat
                with (Datatypes.S (polls w) + k)%nat by lia; exact Hset|].
      split.
      { intros [|j'] Hj; [rewrite Nat.add_0_r; exact Hnow|].
        replace (polls w + Datatypes.S j')%nat
          with (Datatypes.S (polls w) + j')%nat by lia.
        apply Hbefore. lia. }
      split; [exact Hweights|].
      split; [rewrite Htr', Htr, Htr1, <- !List.app_assoc; reflexivity|].
      rewrite !health_queries_app, !slept_app, Hq1, Hs1, Hhq, Hsl, Hq', Hs'.
      split; [simpl; lia|simpl; lia].
Qed.

(** ** The sorted location path *)

Lemma index_of_In (x : string) (l : list string) :
  index_of x l <> None <-> In x l.
Proof.
  induction l as [|y l IH]; simpl; [tauto|].
  destruct (String.eqb_spec y x) as [->|Hne].
  - split; [intros _; left; reflexivity|discriminate].
  - rewrite <- IH. destruct (index_of x l); simpl.
    + split; [intros _; right; discriminate|discriminate].
    + split; [congruence|intros [H|H]; congruence].
Qed.

Lemma index_of_inj (x y : string) (l : list string) (i : nat) :
  index_of x l = Some i -> index_of y l = Some i -> x = y.
Proof.
  revert i. induction l as [|z l IH]; intros i Hx Hy; [discriminate|].
  simpl in *.
  destruct (String.eqb_spec z x) as [Hzx|Hzx],
           (String.eqb_spec z y) as [Hzy|Hzy].
  - congruence.
  - inversion Hx; subst. destruct (index_of y l); discriminate.
  - inversion Hy; subst. destruct (index_of x l); discriminate.
  - destruct (index_of x l) as [a|] eqn:Ha, (index_of y l) as [b|] eqn:Hb;
      simpl in *; try discriminate.
    inversion Hx; inversion Hy; subst. eapply IH; eauto.
Qed.

(** The keys computed for a path, when every key is listed. *)
Lemma keyed_inl (path : Path) (ks : list (Z * (string * string))) :
  keyed path = inl ks ->
  ks = List.map (fun x => (- Z.of_nat (zone_rank x), x)) path
  /\ forall x, In x path -> In (fst x) default_zone_order.
Proof.
  revert ks. induction path as [|x path IH]; intros ks H.
  - inversion H. split; [reflexivity|intros ? []].
  - cbn [keyed] in H. unfold zone_key in H.
    destruct (index_of (fst x) default_zone_order) as [i|] eqn:Hi;
      [|discriminate].
    destruct (keyed path) as [ks'|e]; [|discriminate].
    inversion H; subst. destruct (IH ks' eq_refl) as [-> Hin].
    split.
    + cbn [List.map]. f_equal. unfold zone_rank. rewrite Hi. reflexivity.
    + intros y [<-|Hy]; [|auto]. apply index_of_In. congruence.
Qed.

Lemma keyed_inr (pre post : Path) (x : string * string) :
  (forall y, In y pre -> In (fst y) default_zone_order) ->
  ~ In (fst x) default_zone_order ->
  keyed (pre ++ x :: post) = inr (ValueError (fst x)).
Proof.
  intros Hpre Hx. induction pre as [|y pre IH]; cbn [List.app keyed].
  - unfold zone_key.
    destruct (index_of (fst x) default_zone_order) eqn:Hi; [|reflexivity].
    exfalso. apply Hx, index_of_In. congruence.
  - unfold zone_key.
    destruct (index_of (fst y) default_zone_order) eqn:Hi.
    + rewrite IH; [reflexivity|]. intros z Hz. apply Hpre. right. exact Hz.
    + exfalso.
      assert (Hy : In (fst y) default_zone_order)
        by (apply Hpre; left; reflexivity).
      apply index_of_In in Hy. congruence.
Qed.

Lemma keyed_all_known (path : Path) :
  (forall x, In x path -> In (fst x) default_zone_order) ->
  exists ks, keyed path = inl ks.
Proof.
  induction path as [|x path IH]; intros H; [eexists; reflexivity|].
  cbn [keyed]. unfold zone_key.
  destruct (index_of (fst x) default_zone_order) eqn:Hi.
  - destruct IH as (ks & ->); [intros; apply H; right; assumption|].
    eexists. reflexivity.
  - exfalso.
    assert (Hx : In (fst x) default_zone_order) by (apply H; left; reflexivity).
    apply index_of_In in Hx. congruence.
Qed.

Lemma insert_by_key_perm {A : Type} (x : Z * A) (l : list (Z * A)) :
  insert_by_key x l ≡ₚ x :: l.
Proof.
  induction l as [|y l IH]; simpl; [reflexivity|].
  destruct (fst x <=? fst y); [reflexivity|].
  rewrite IH. apply perm_swap.
Qed.

Lemma stable_sort_perm {A : Type} (l : list (Z * A)) : stable_sort l ≡ₚ l.
Proof.
  unfold stable_sort. induction l as [|x l IH]; simpl; [reflexivity|].
  rewrite insert_by_key_perm, IH. reflexivity.
Qed.

Lemma insert_by_key_sorted {A : Type} (x : Z * A) (l : list (Z * A)) :
  StronglySorted (fun a b => fst a <= fst b) l ->
  StronglySorted (fun a b => fst a <= fst b) (insert_by_key x l).
Proof.
  induction 1 as [|y l Hl IH Hy]; simpl.
  - repeat constructor.
  - destruct (Z.leb_spec (fst x) (fst y)).
    + constructor; [constructor; assumption|].
      constructor; [assumption|].
      eapply Forall_impl; [exact Hy|]. simpl. intros; lia.
    + constructor; [exact IH|].
      rewrite insert_by_key_perm. constructor; [lia|exact Hy].
Qed.

Lemma stable_sort_sorted {A : Type} (l : list (Z * A)) :
  StronglySorted (fun a b => fst a <= fst b) (stable_sort l).
Proof.
  unfold stable_sort. induction l as [|x l IH]; simpl; [constructor|].
  apply insert_by_key_sorted, IH.
Qed.

Lemma StronglySorted_map_in {A B : Type} (R : A -> A -> Prop)
  (R' : B -> B -> Prop) (g : A -> B) (l : list A) :
  (forall a b, In a l -> In b l -> R a b -> R' (g a) (g b)) ->
  StronglySorted R l -> StronglySorted R' (List.map g l).
Proof.
  intros Himp Hs. induction Hs as [|x l Hl IH Hx]; simpl; [constructor|].
  constructor.
  - apply IH. intros a b Ha Hb. apply Himp; right; assumption.
  - apply List.Forall_forall. intros y Hy. apply List.in_map_iff in Hy.
    destruct Hy as (b & <- & Hb).
    apply Himp; [left; reflexivity|right; exact Hb|].
    rewrite List.Forall_forall in Hx. apply Hx, Hb.
Qed.

Lemma sort_path_inl (path s : Path) :
  sort_path path = inl s ->
  s = List.map snd
        (stable_sort
           (List.map (fun x => (- Z.of_nat (zone_rank x), x)) path))
  /\ forall x, In x path -> In (fst x) default_zone_order.
Proof.
  unfold sort_path. intros H.
  destruct (keyed path) as [ks|e] eqn:Hk; [|discriminate].
  apply keyed_inl in Hk. destruct Hk as [-> Hknown].
  inversion H. split; [reflexivity|exact Hknown].
Qed.

Lemma sort_path_sorts (path s : Path) :
  sort_path path = inl s ->
  s ≡ₚ path /\ StronglySorted coarser_first s.
Proof.
  intros H. apply sort_path_inl in H. destruct H as [-> _].
  set (ks := List.map (fun x => (- Z.of_nat (zone_rank x), x)) path).
  assert (Hperm : stable_sort ks ≡ₚ ks) by apply stable_sort_perm.
  split.
  - rewrite (Permutation_map snd Hperm). unfold ks.
    rewrite List.map_map. simpl. rewrite List.map_id. reflexivity.
  - apply (StronglySorted_map_in (fun a b => fst a <= fst b));
      [|apply stable_sort_sorted].
    assert (Hin : forall a, In a (stable_sort ks) ->
                            fst a = - Z.of_nat (zone_rank (snd a))).
    { intros a Ha. apply (Permutation_in _ Hperm) in Ha.
      unfold ks in Ha. apply List.in_map_iff in Ha.
      destruct Ha as (x & <- & _). reflexivity. }
    intros a b Ha Hb Hab. unfold coarser_first.
    rewrite (Hin a Ha), (Hin b Hb) in Hab. lia.
Qed.

(** X10: when the path sorts, the result holds the same pairs as the
    entry, coarsest level first: the ranks never increase along it, so the
    pair of the finest level (the osd) comes last. *)
Theorem sort_path_sorted_permutation (path s : Path) :
  sort_path path = inl s ->
  s ≡ₚ path /\ StronglySorted coarser_first s.
Proof.
  apply sort_path_sorts.
Qed.

Lemma NoDup_map_inj {A B : Type} (f : A -> B) (l : list A) (x y : A) :
  List.NoDup (List.map f l) -> In x l -> In y l -> f x = f y -> x = y.
Proof.
  induction l as [|z l IH]; intros Hnd Hx Hy Hf; [destruct Hx|].
  simpl in Hnd. apply List.NoDup_cons_iff in Hnd. destruct Hnd as [Hz Hnd].
  destruct Hx as [->|Hx], Hy as [->|Hy]; auto.
  - exfalso. apply Hz. rewrite Hf. apply List.in_map. exact Hy.
  - exfalso. apply Hz. rewrite <- Hf. apply List.in_map. exact Hx.
Qed.

(** X11: the sorted path does not depend on the order in which the keys of
    an entry are listed: two listings of the same pairs, with distinct
    keys, sort to the same path. *)
Theorem sort_path_order_independent (path path' s : Path) :
  List.NoDup (List.map fst path) ->
  path' ≡ₚ path ->
  sort_path path = inl s ->
  sort_path path' = inl s.
Proof.
  intros Hnd Hperm Hs.
  destruct (sort_path_sorts path s Hs) as [Hps Hsorted].
  pose proof (sort_path_inl path s Hs) as [_ Hknown].
  assert (Hknown' : forall x, In x path' -> In (fst x) default_zone_order).
  { intros x Hx. apply Hknown.
    eapply Permutation_in; [exact Hperm|exact Hx]. }
  destruct (keyed_all_known path' Hknown') as (ks & Hks).
  assert (Hs' : sort_path path' = inl (snd <$> stable_sort ks))
    by (unfold sort_path; rewrite Hks; reflexivity).
  rewrite Hs'. f_equal.
  destruct (sort_path_sorts path' _ Hs') as [Hps' Hsorted'].
  apply (StronglySorted_unique_strong coarser_first); auto.
  - intros x1 x2 H1 H2 H12 H21. unfold coarser_first in *.
    apply list_elem_of_In in H1, H2.
    assert (Hx1 : In x1 path).
    { eapply Permutation_in; [exact Hperm|].
      eapply Permutation_in; [exact Hps'|exact H1]. }
    assert (Hx2 : In x2 path)
      by (eapply Permutation_in; [exact Hps|exact H2]).
    apply (NoDup_map_inj fst path); auto.
    pose proof (Hknown x1 Hx1) as K1. pose proof (Hknown x2 Hx2) as K2.
    apply index_of_In in K1, K2. unfold zone_rank in *.
    destruct (index_of (fst x1) default_zone_order) as [i|] eqn:E1;
      [|congruence].
    destruct (index_of (fst x2) default_zone_order) as [j|] eqn:E2;
      [|congruence].
    cbn [from_option] in H12, H21. unfold Datatypes.id in H12, H21.
    assert (i = j) by lia. subst j.
    exact (index_of_inj _ _ _ _ E1 E2).
  - rewrite Hps', Hperm, Hps. reflexivity.
Qed.

(** X12: the path sorts exactly when every key of the entry is one of the
    eleven levels of [default_zone_order]. *)
Theorem sort_path_succeeds_iff (path : Path) :
  (exists s, sort_path path = inl s)
  <-> forall x, In x path -> In (fst x) default_zone_order.
Proof.
  split.
  - intros (s & Hs). apply (sort_path_inl path s Hs).
  - intros Hknown. destruct (keyed_all_known path Hknown) as (ks & Hks).
    eexists. unfold sort_path. rewrite Hks. reflexivity.
Qed.

(** X13: when some key of the entry is not a level of
    [default_zone_order], the sort raises [ValueError] for the first such
    key, in the order of the entry. *)
Theorem sort_path_first_unknown_key (pre post : Path) (x : string * string) :
  (forall y, In y pre -> In (fst y) default_zone_order) ->
  ~ In (fst x) default_zone_order ->
  sort_path (pre ++ x :: post) = inr (ValueError (fst x)).
Proof.
  intros Hpre Hx. unfold sort_path.
  rewrite keyed_inr by assumption. reflexivity.
Qed.

(** ** Paths as chains *)

Lemma reaches_nil (segs : Path) (node : CrushNode) :
  ~ reaches [] segs node.
Proof.
  destruct segs as [|sg rest]; simpl; [tauto|]. intros (q & [] & _).
Qed.

Lemma reaches_app (l1 l2 : list CrushNode) (segs : Path) (node : CrushNode) :
  reaches (l1 ++ l2) segs node
  <-> reaches l1 segs node \/ reaches l2 segs node.
Proof.
  destruct segs as [|seg rest]; simpl.
  - apply List.in_app_iff.
  - split.
    + intros (p & Hp & Hm & Hr). apply List.in_app_or in Hp.
      destruct Hp; [left|right]; exists p; auto.
    + intros [(p & Hp & Hm & Hr)|(p & Hp & Hm & Hr)]; exists p;
        (split; [apply List.in_or_app; auto|auto]).
Qed.

Lemma descend_reaches (segs : Path) :
  forall (start : list CrushNode) (node : CrushNode),
    In node (descend start segs) <-> reaches start segs node.
Proof.
  induction segs as [|seg rest IH]; intros start node; [reflexivity|].
  cbn [descend]. rewrite IH. clear IH.
  induction start as [|p start IHs].
  - simpl. split; [intros H; destruct (reaches_nil _ _ H)|intros (q & [] & _)].
  - cbn [flat_map]. rewrite reaches_app, IHs. cbn [reaches]. split.
    + intros [H|(q & Hq & Hm & Hr)].
      * destruct (node_matches seg p) eqn:Hm;
          [exists p; split; [left; reflexivity|auto]
          |destruct (reaches_nil _ _ H)].
      * exists q. split; [right; exact Hq|auto].
    + intros (q & [<-|Hq] & Hm & Hr).
      * left. rewrite Hm. exact Hr.
      * right. exists q. auto.
Qed.

(** X14: a node is found for a path exactly when it matches the last
    segment and ends a chain from a root, parent to child, whose other
    nodes match the earlier segments in order. *)
Theorem find_nodes_follows_chains (crush : Crush) (init : Path)
  (seg : string * string) (node : CrushNode) :
  In node (find_nodes crush (init ++ [seg]))
  <-> reaches (roots crush) init node
      /\ type node = fst seg /\ name node = snd seg.
Proof.
  rewrite find_nodes_snoc, direct_matches_spec, descend_reaches. reflexivity.
Qed.

(** ** The direction of a step *)

(** ** The loader *)

Lemma dict_get_set (k i : Z) (v : list Z) (d : list (Z * list Z)) :
  dict_get i (dict_set k v d) = if Z.eqb k i then Some v else dict_get i d.
Proof.
  induction d as [|[k' v'] d IH]; cbn [dict_set dict_get].
  - reflexivity.
  - destruct (Z.eqb_spec k' k) as [->|Hne]; cbn [dict_get].
    + destruct (Z.eqb k i); reflexivity.
    + rewrite IH. destruct (Z.eqb_spec k' i) as [->|]; [|reflexivity].
      destruct (Z.eqb_spec k i); [congruence|reflexivity].
Qed.

Lemma dict_set_keys (k : Z) (v : list Z) (d : list (Z * list Z)) :
  NoDup d.*1 -> NoDup (dict_set k v d).*1
  /\ forall i, i ∈ (dict_set k v d).*1 -> i = k \/ i ∈ d.*1.
Proof.
  induction d as [|[k' v'] d IH]; cbn [dict_set fmap list_fmap]; intros Hnd.
  - split; [apply NoDup_singleton|].
    intros i Hi. apply list_elem_of_singleton in Hi. left. exact Hi.
  - apply NoDup_cons in Hnd as [Hk' Hnd']. destruct (IH Hnd') as [IH1 IH2].
    destruct (Z.eqb_spec k' k) as [->|Hne]; cbn [fmap list_fmap fst].
    + split; [apply NoDup_cons; auto|].
      intros i [->|Hi]%elem_of_cons; [left; reflexivity|right; right; exact Hi].
    + split.
      * apply NoDup_cons. split; [|exact IH1].
        intros Hin. destruct (IH2 _ Hin); [congruence|contradiction].
      * intros i [->|Hi]%elem_of_cons; [right; left|].
        destruct (IH2 _ Hi); [left; assumption|right; right; assumption].
Qed.

Lemma dict_get_elem (d : list (Z * list Z)) (k : Z) (v : list Z) :
  NoDup d.*1 -> (k, v) ∈ d <-> dict_get k d = Some v.
Proof.
  induction d as [|[k' v'] d IH]; cbn [dict_get fmap list_fmap fst]; intros Hnd.
  - split; [intros H; inversion H|discriminate].
  - apply NoDup_cons in Hnd as [Hk' Hnd']. rewrite elem_of_cons, (IH Hnd').
    destruct (Z.eqb_spec k' k) as [->|Hne].
    + split.
      * intros [[= ->]|Hg]; [reflexivity|].
        exfalso. apply Hk'. apply (IH Hnd') in Hg.
        apply list_elem_of_fmap. exists (k, v). auto.
      * intros [= ->]. left. reflexivity.
    + split; [intros [[= ? ?]|Hg]; [congruence|exact Hg]|auto].
Qed.

Lemma record_of_snoc (nodes : list node_js) (n : node_js) (i : Z) :
  record_of (nodes ++ [n]) i
  = if Z.eqb (js_id n) i then Some n else record_of nodes i.
Proof.
  unfold record_of. rewrite filter_app.
  destruct (Z.eqb_spec (js_id n) i) as [Heq|Hne].
  - rewrite filter_cons_True by exact Heq. rewrite filter_nil, last_app. reflexivity.
  - rewrite filter_cons_False by exact Hne.
    rewrite filter_nil, app_nil_r. reflexivity.
Qed.

Lemma first_pass_spec (nodes : list node_js) :
  (forall i, fst (first_pass nodes) !! i = new_node <$> record_of nodes i)
  /\ (forall i, dict_get i (snd (first_pass nodes))
                = children_of <$> record_of nodes i)
  /\ NoDup (snd (first_pass nodes)).*1.
Proof.
  unfold first_pass. induction nodes as [|n nodes IH] using rev_ind.
  - cbn. split; [intros; apply lookup_empty|]. split; [reflexivity|constructor].
  - rewrite foldl_app. cbn [foldl fst snd].
    destruct IH as (IH1 & IH2 & IH3).
    split; [|split].
    + intros i. rewrite record_of_snoc. cbn [new_node obj_id].
      destruct (Z.eqb_spec (js_id n) i) as [->|Hne].
      * rewrite lookup_insert_eq. reflexivity.
      * rewrite lookup_insert_ne by exact Hne. apply IH1.
    + intros i. rewrite record_of_snoc, dict_get_set. cbn [new_node obj_id].
      destruct (Z.eqb (js_id n) i); [reflexivity|apply IH2].
    + apply dict_set_keys, IH3.
Qed.

Lemma node_refs_spec (nm : gmap Z NodeObj) (cids : list Z) :
  match node_refs nm cids with
  | inl refs => refs = cids /\ forall c, c ∈ cids -> is_Some (nm !! c)
  | inr e => exists c, c ∈ cids /\ nm !! c = None /\ e = KeyError (pretty c)
  end.
Proof.
  induction cids as [|c cids IH]; cbn [node_refs].
  - split; [reflexivity|]. intros c H. inversion H.
  - destruct (nm !! c) as [o|] eqn:Hc.
    + destruct (node_refs nm cids) as [refs|e].
      * destruct IH as [-> IH]. split; [reflexivity|].
        intros c' [->|H]%elem_of_cons; [rewrite Hc; eauto|auto].
      * destruct IH as (c' & H1 & H2 & H3). exists c'.
        split; [right; exact H1|auto].
    + exists c. split; [left|auto].
Qed.

Lemma second_pass_spec (items : list (Z * list Z)) :
  forall (nm : gmap Z NodeObj) (ac : gset Z),
    NoDup items.*1 ->
    (forall p, p ∈ items.*1 -> is_Some (nm !! p)) ->
    match second_pass nm items ac with
    | inl (nm', ac') =>
        (forall p cids c, (p, cids) ∈ items -> c ∈ cids -> is_Some (nm !! c))
        /\ (forall i, nm' !! i
                      = match dict_get i items with
                        | Some cids => with_childs cids <$> nm !! i
                        | None => nm !! i
                        end)
        /\ (forall c, c ∈ ac'
                      <-> c ∈ ac \/ exists p cids, (p, cids) ∈ items /\ c ∈ cids)
    | inr e =>
        exists p cids c,
          (p, cids) ∈ items /\ c ∈ cids /\ nm !! c = None
          /\ e = KeyError (pretty c)
    end.
Proof.
  induction items as [|[p cids] items IH]; intros nm ac Hnd Hkeys;
    cbn [second_pass].
  - split; [intros ? ? ? H; inversion H|]. split; [reflexivity|].
    intros c. split; [auto|]. intros [H|(? & ? & H & _)]; [exact H|inversion H].
  - cbn [fmap list_fmap fst] in Hnd, Hkeys.
    apply NoDup_cons in Hnd as [Hp Hnd'].
    pose proof (node_refs_spec nm cids) as Hrefs.
    destruct (node_refs nm cids) as [refs|e].
    2:{ destruct Hrefs as (c & H1 & H2 & H3). exists p, cids, c.
        split; [left|auto]. }
    destruct Hrefs as [-> Hall].
    destruct (Hkeys p ltac:(left)) as [parent Hparent]. rewrite Hparent.
    set (nm1 := <[p := with_childs cids parent]> nm).
    assert (Hdom : forall c, is_Some (nm1 !! c) <-> is_Some (nm !! c)).
    { intros c. unfold nm1. destruct (decide (p = c)) as [<-|Hne].
      - rewrite lookup_insert_eq, Hparent. split; eauto.
      - rewrite lookup_insert_ne by exact Hne. reflexivity. }
    specialize (IH nm1 (ac ∪ list_to_set cids) Hnd').
    destruct (second_pass nm1 items (ac ∪ list_to_set cids)) as [[nm' ac']|e].
    + destruct IH as (IH1 & IH2 & IH3).
      { intros q Hq. apply Hdom, Hkeys. right. exact Hq. }
      split; [|split].
      * intros q qc c [[= -> ->]|Hq]%elem_of_cons Hc; [auto|].
        apply Hdom. eapply IH1; eauto.
      * intros i. rewrite IH2. cbn [dict_get].
        destruct (Z.eqb_spec p i) as [<-|Hne].
        -- destruct (dict_get p items) as [v|] eqn:Hg.
           ++ exfalso. apply Hp. apply dict_get_elem in Hg; [|exact Hnd'].
              apply list_elem_of_fmap. exists (p, v). auto.
           ++ unfold nm1. rewrite lookup_insert_eq, Hparent. reflexivity.
        -- unfold nm1. rewrite lookup_insert_ne by exact Hne. reflexivity.
      * intros c. rewrite IH3, elem_of_union, elem_of_list_to_set. split.
        -- intros [[H|H]|(q & qc & H1 & H2)]; [left; exact H| |].
           ++ right. exists p, cids. split; [left|exact H].
           ++ right. exists q, qc. split; [right; exact H1|exact H2].
        -- intros [H|(q & qc & [[= -> ->]|H1]%elem_of_cons & H2)];
             [left; left; exact H|left; right; exact H2|].
           right. exists q, qc. auto.
    + destruct IH as (q & qc & c & H1 & H2 & H3 & H4).
      { intros q Hq. apply Hdom, Hkeys. right. exact Hq. }
      exists q, qc, c. split; [right; exact H1|]. split; [exact H2|].
      split; [|exact H4].
      destruct (nm !! c) eqn:Hc; [|reflexivity].
      assert (Hs : is_Some (nm1 !! c)) by (apply Hdom; rewrite Hc; eauto).
      rewrite H3 in Hs. destruct Hs; discriminate.
Qed.

(** What [load_crush_tree] does, in terms of the records that count. *)
Lemma load_crush_tree_spec (nodes : list node_js) :
  match load_crush_tree nodes with
  | inl g =>
      (forall p r c, record_of nodes p = Some r -> c ∈ children_of r ->
                     is_Some (record_of nodes c))
      /\ (forall i, obj_nodes_map g !! i = linked_node <$> record_of nodes i)
      /\ (forall i, i ∈ obj_roots g
                    <-> is_Some (record_of nodes i)
                        /\ forall p r, record_of nodes p = Some r ->
                                       i ∉ children_of r)
  | inr e =>
      exists p r c,
        record_of nodes p = Some r /\ c ∈ children_of r
        /\ record_of nodes c = None /\ e = KeyError (pretty c)
  end.
Proof.
  unfold load_crush_tree.
  destruct (first_pass_spec nodes) as (H1 & H2 & H3).
  destruct (first_pass nodes) as [nm ci]. cbn [fst snd] in H1, H2, H3.
  assert (Hitem : forall p cids,
             (p, cids) ∈ ci
             <-> exists r, record_of nodes p = Some r /\ cids = children_of r).
  { intros p cids. rewrite (dict_get_elem _ _ _ H3), H2.
    destruct (record_of nodes p) as [r|]; cbn.
    - split; [intros [= <-]; eauto|intros (r' & [= <-] & ->); reflexivity].
    - split; [discriminate|intros (r' & [=] & _)]. }
  assert (Hsome : forall c, is_Some (nm !! c) <-> is_Some (record_of nodes c)).
  { intros c. rewrite H1. apply fmap_is_Some. }
  pose proof (second_pass_spec ci nm ∅ H3) as Hsp.
  destruct (second_pass nm ci ∅) as [[nm' ac']|e].
  - destruct Hsp as (S1 & S2 & S3).
    { intros p [[p' cids] [-> Hin]]%list_elem_of_fmap. cbn [fst].
      apply Hsome. apply Hitem in Hin as (r & -> & _). eauto. }
    cbn [obj_nodes_map obj_roots]. split; [|split].
    + intros p r c Hr Hc. apply Hsome. apply (S1 p (children_of r) c); [|exact Hc].
      apply Hitem. eauto.
    + intros i. rewrite S2, H2, H1.
      destruct (record_of nodes i) as [r|]; reflexivity.
    + intros i. rewrite elem_of_difference, elem_of_dom, S3. split.
      * intros [Hi Hno]. split.
        -- apply Hsome. rewrite S2 in Hi.
           destruct (dict_get i ci); [apply fmap_is_Some in Hi|]; exact Hi.
        -- intros p r Hr Hin. apply Hno. right. exists p, (children_of r).
           split; [apply Hitem; eauto|exact Hin].
      * intros [Hi Hno]. split.
        -- rewrite S2, H2, H1. destruct Hi as [r ->]. cbn. eauto.
        -- intros [H|(p & cids & Hin & Hc)]; [exact (not_elem_of_empty _ H)|].
           apply Hitem in Hin as (r & Hr & ->). exact (Hno p r Hr Hc).
  - destruct Hsp as (p & cids & c & Hin & Hc & Hnone & ->).
    { intros p [[p' cids] [-> Hin]]%list_elem_of_fmap. cbn [fst].
      apply Hsome. apply Hitem in Hin as (r & -> & _). eauto. }
    apply Hitem in Hin as (r & Hr & ->). exists p, r, c.
    split; [exact Hr|]. split; [exact Hc|]. split; [|reflexivity].
    destruct (record_of nodes c) eqn:E; [|reflexivity].
    assert (Hs : is_Some (nm !! c)) by (apply Hsome; eauto).
    rewrite Hnone in Hs. destruct Hs; discriminate.
Qed.

Lemma record_of_carries (nodes : list node_js) (i : Z) (r : node_js) :
  record_of nodes i = Some r -> r ∈ nodes /\ js_id r = i.
Proof.
  unfold record_of. intros H. apply last_Some in H as [l' Hl].
  assert (Hin : r ∈ filter (fun n => js_id n = i) nodes).
  { rewrite Hl. apply elem_of_app. right. left. }
  apply list_elem_of_filter in Hin as [? ?]. auto.
Qed.

Lemma record_of_distinct (nodes : list node_js) (n : node_js) :
  NoDup (js_id <$> nodes) -> n ∈ nodes -> record_of nodes (js_id n) = Some n.
Proof.
  induction nodes as [|m nodes IH] using rev_ind; intros Hnd Hin.
  - inversion Hin.
  - rewrite record_of_snoc. rewrite fmap_app in Hnd.
    apply NoDup_app in Hnd as (Hnd' & Hdisj & _).
    apply elem_of_app in Hin as [Hin|Hin].
    + destruct (Z.eqb_spec (js_id m) (js_id n)) as [Heq|Hne]; [|auto].
      exfalso. apply (Hdisj (js_id n)).
      * apply list_elem_of_fmap. eauto.
      * rewrite <- Heq. left.
    + apply list_elem_of_singleton in Hin as ->.
      rewrite Z.eqb_refl. reflexivity.
Qed.

(** X16: the loader succeeds exactly when every child id listed by a
    record that counts (the last record of its id) is the id of some
    record. *)
Theorem load_crush_tree_succeeds_iff (nodes : list node_js) :
  (exists crush, load_crush_tree nodes = inl crush)
  <-> forall p r c,
        record_of nodes p = Some r -> c ∈ children_of r ->
        is_Some (record_of nodes c).
Proof.
  pose proof (load_crush_tree_spec nodes) as H.
  destruct (load_crush_tree nodes) as [g|e]; split.
  - intros _. apply H.
  - intros _. eauto.
  - intros (g & Hg). discriminate.
  - intros Hall. destruct H as (p & r & c & Hr & Hc & Hnone & _).
    destruct (Hall p r c Hr Hc) as [r' Hr']. congruence.
Qed.

(** X17: after a successful load, [nodes_map] has one object per id that
    occurs in the records; it carries the name, type and weight of the
    last record of that id, and its [childs] are the children that record
    lists, in order (none when the record has no [children]). *)
Theorem load_crush_tree_links_children (nodes : list node_js)
  (crush : CrushObj) :
  load_crush_tree nodes = inl crush ->
  forall i, obj_nodes_map crush !! i = linked_node <$> record_of nodes i.
Proof.
  intros Hload. pose proof (load_crush_tree_spec nodes) as H.
  rewrite Hload in H. apply H.
Qed.

(** X18: after a successful load, the roots are the ids of the records
    that no record that counts lists as a child. *)
Theorem load_crush_tree_roots (nodes : list node_js) (crush : CrushObj) :
  load_crush_tree nodes = inl crush ->
  forall i,
    i ∈ obj_roots crush
    <-> is_Some (record_of nodes i)
        /\ forall p r, record_of nodes p = Some r -> i ∉ children_of r.
Proof.
  intros Hload. pose proof (load_crush_tree_spec nodes) as H.
  rewrite Hload in H. apply H.
Qed.

(** X19: the only failure of the loader is [KeyError] for a child id that
    a record that counts lists and no record carries. *)
Theorem load_crush_tree_dangling_child (nodes : list node_js) (e : exn) :
  load_crush_tree nodes = inr e ->
  exists p r c,
    record_of nodes p = Some r /\ c ∈ children_of r
    /\ (forall n, n ∈ nodes -> js_id n <> c)
    /\ e = KeyError (pretty c).
Proof.
  intros Hload. pose proof (load_crush_tree_spec nodes) as H.
  rewrite Hload in H. destruct H as (p & r & c & Hr & Hc & Hnone & He).
  exists p, r, c. split; [exact Hr|]. split; [exact Hc|]. split; [|exact He].
  intros n Hn Heq. unfold record_of in Hnone.
  apply last_None in Hnone.
  assert (Hin : n ∈ filter (fun n => js_id n = c) nodes)
    by (apply list_elem_of_filter; auto).
  rewrite Hnone in Hin. inversion Hin.
Qed.

(** X20: a tree in which every node is the child of some node (a cycle)
    loads without error and has no root, so that no path finds a node in
    it; and a loaded tree with at least one record that is nobody's child
    has a root. *)
Theorem load_crush_tree_rootless (nodes : list node_js) (crush : CrushObj) :
  load_crush_tree nodes = inl crush ->
  (obj_roots crush = ∅
   <-> forall i, is_Some (record_of nodes i) ->
         exists p r, record_of nodes p = Some r /\ i ∈ children_of r).
Proof.
  intros Hload. pose proof (load_crush_tree_spec nodes) as H.
  rewrite Hload in H. destruct H as (_ & _ & Hroots). split.
  - intros Hempty i Hi.
    destruct (existsb (fun n =>
                match record_of nodes (js_id n) with
                | Some r => bool_decide (i ∈ children_of r)
                | None => false
                end) nodes) eqn:Hex.
    + apply List.existsb_exists in Hex as (n & _ & Hn).
      destruct (record_of nodes (js_id n)) as [r|] eqn:Hr; [|discriminate].
      apply bool_decide_eq_true in Hn. eauto.
    + exfalso. apply (not_elem_of_empty (C:=gset Z) i). rewrite <- Hempty.
      apply Hroots. split; [exact Hi|].
      intros p r Hr Hc.
      destruct (record_of_carries _ _ _ Hr) as [Hin <-].
      assert (Hex' : existsb (fun n =>
                match record_of nodes (js_id n) with
                | Some r => bool_decide (i ∈ children_of r)
                | None => false
                end) nodes = true).
      { apply List.existsb_exists. exists r.
        split; [apply list_elem_of_In; exact Hin|].
        rewrite Hr. apply bool_decide_eq_true. exact Hc. }
      congruence.
  - intros Hall. apply set_eq. intros i. split; [|intros Hi; inversion Hi].
    intros Hi. apply Hroots in Hi as [Hsome Hno].
    destruct (Hall i Hsome) as (p & r & Hr & Hc).
    destruct (Hno p r Hr Hc).
Qed.

(** ** A whole run *)

(** ** Instances of the further properties *)

Lemma estimate_only_changes_nothing_witness :
  match do_rebalance settled_env true 0
          (sample_config 1 (1 # 10) (1 # 100) [entry_of "osd.0" "osd-0" (2 # 5)])
          estimate_args init_world with
  | Ret log w' => footprint read_only_event init_world w' /\ log = []
  | Raise _ w' => footprint read_only_event init_world w'
  | OutOfFuel => False
  end.
Proof.
  apply (estimate_only_changes_nothing settled_env true 0
           (sample_config 1 (1 # 10) (1 # 100)
              [entry_of "osd.0" "osd-0" (2 # 5)])
           estimate_args init_world);
    reflexivity.
Defined.

Lemma configuration_errors_come_first_witness :
  footprint resolution_event init_world
            (with_trace init_world [Run ceph_osd_tree]).
Proof.
  apply (configuration_errors_come_first settled_env true 0
           (sample_config 1 (1 # 10) (1 # 100) [weightless_entry])
           no_estimate_args init_world
           (with_trace init_world [Run ceph_osd_tree])
           (KeyError "weight")).
  - vm_compute. reflexivity.
  - exact I.
Defined.

Lemma step_within_tolerance_issues_nothing_witness :
  grows (fun added => count_updates added = 0%nat) init_world
        (do_rebalance settled_env true 10
           (sample_config 1 (1 # 100) (1 # 100)
              [entry_of "osd.0" "osd-0" (2 # 5)])
           no_estimate_args init_world).
Proof.
  apply (step_within_tolerance_issues_nothing settled_env true 10
           (sample_config 1 (1 # 100) (1 # 100)
              [entry_of "osd.0" "osd-0" (2 # 5)])
           no_estimate_args init_world).
  simpl. lra.
Defined.

Lemma nonpositive_tolerance_never_returns_witness :
  do_rebalance settled_env true 10
    (sample_config 1 (1 # 10) 0 [entry_of "osd.0" "osd-0" (2 # 5)])
    no_estimate_args init_world
  <> Ret [] init_world.
Proof.
  apply (nonpositive_tolerance_never_returns settled_env true 10
           (sample_config 1 (1 # 10) 0 [entry_of "osd.0" "osd-0" (2 # 5)])
           no_estimate_args init_world [] init_world).
  - simpl. lra.
  - discriminate.
  - right. reflexivity.
Defined.

Lemma zero_batch_never_finishes_the_loop_witness :
  @nil (list target) = []
  /\ footprint read_only_event init_world
       (with_trace init_world
          [Run ceph_osd_tree; Print (msg_target osd_0 (1 # 2));
           Print msg_nothing_to_change]).
Proof.
  apply (zero_batch_never_finishes_the_loop settled_env false 3
           (sample_config 0 (1 # 10) (1 # 100)
              [entry_of "osd.0" "osd-0" (1 # 2)])
           no_estimate_args init_world []
           (with_trace init_world
              [Run ceph_osd_tree; Print (msg_target osd_0 (1 # 2));
               Print msg_nothing_to_change])).
  - reflexivity.
  - discriminate.
  - vm_compute. reflexivity.
Defined.

Lemma wait_never_times_out_witness :
  wait_rebalance_to_complete unsettled_env true 7 true init_world = OutOfFuel.
Proof.
  apply (wait_never_times_out unsettled_env true 7 true init_world).
  intros k _. reflexivity.
Defined.

Lemma wait_returns_at_first_settled_witness :
  exists k added,
    polls late_world
    = (polls init_world + k + 1)%nat
    /\ all_settled (pg_stat settles_late_env (polls init_world + k)) = true
    /\ (forall j, (j < k)%nat ->
          all_settled (pg_stat settles_late_env (polls init_world + j)) = false)
    /\ weights late_world
       = weights init_world
    /\ trace late_world
       = trace init_world ++ added
    /\ health_queries added = (k + 1)%nat
    /\ slept added = 5 * Z.max 0 (Z.of_nat k - 1).
Proof.
  apply (wait_returns_at_first_settled settles_late_env true 5 false
           init_world
           late_world).
  vm_compute. reflexivity.
Defined.

Lemma sort_path_sorted_permutation_witness :
  path_of "osd.0" "osd-0"
    ≡ₚ [("osd", "osd.0"); ("root", "default"); ("host", "osd-0")]
  /\ StronglySorted coarser_first (path_of "osd.0" "osd-0").
Proof.
  apply (sort_path_sorted_permutation
           [("osd", "osd.0"); ("root", "default"); ("host", "osd-0")]
           (path_of "osd.0" "osd-0")).
  reflexivity.
Defined.

Lemma sort_path_order_independent_witness :
  sort_path [("host", "osd-0"); ("osd", "osd.0"); ("root", "default")]
  = inl (path_of "osd.0" "osd-0").
Proof.
  apply (sort_path_order_independent
           [("osd", "osd.0"); ("root", "default"); ("host", "osd-0")]
           [("host", "osd-0"); ("osd", "osd.0"); ("root", "default")]
           (path_of "osd.0" "osd-0")).
  - repeat constructor; simpl; intuition discriminate.
  - apply (Permutation_app_comm [("host", "osd-0")]
             [("osd", "osd.0"); ("root", "default")]).
  - reflexivity.
Defined.

Lemma sort_path_first_unknown_key_witness :
  sort_path [("osd", "osd.0"); ("shelf", "s1"); ("host", "osd-0")]
  = inr (ValueError "shelf").
Proof.
  apply (sort_path_first_unknown_key
           [("osd", "osd.0")] [("host", "osd-0")] ("shelf", "s1")).
  - intros y [<-|[]]. simpl. tauto.
  - simpl. intuition discriminate.
Defined.

Lemma load_crush_tree_links_children_witness :
  exists crush,
    load_crush_tree sample_nodes = inl crush
    /\ forall i,
         obj_nodes_map crush !! i = linked_node <$> record_of sample_nodes i.
Proof.
  eexists. split; [vm_compute; reflexivity|].
  apply (load_crush_tree_links_children sample_nodes). vm_compute. reflexivity.
Defined.

Lemma load_crush_tree_roots_witness :
  exists crush,
    load_crush_tree sample_nodes = inl crush
    /\ forall i,
         i ∈ obj_roots crush
         <-> is_Some (record_of sample_nodes i)
             /\ forall p r, record_of sample_nodes p = Some r ->
                            i ∉ children_of r.
Proof.
  eexists. split; [vm_compute; reflexivity|].
  apply (load_crush_tree_roots sample_nodes). vm_compute. reflexivity.
Defined.

Lemma load_crush_tree_dangling_child_witness :
  exists p r c,
    record_of dangling_nodes p = Some r /\ c ∈ children_of r
    /\ (forall n, n ∈ dangling_nodes -> js_id n <> c)
    /\ KeyError "7" = KeyError (pretty c).
Proof.
  apply (load_crush_tree_dangling_child dangling_nodes (KeyError "7")).
  vm_compute. reflexivity.
Defined.

Lemma load_crush_tree_rootless_witness :
  exists crush,
    load_crush_tree cyclic_nodes = inl crush
    /\ (obj_roots crush = ∅
        <-> forall i, is_Some (record_of cyclic_nodes i) ->
              exists p r, record_of cyclic_nodes p = Some r
                          /\ i ∈ children_of r).
Proof.
  eexists. split; [vm_compute; reflexivity|].
  apply (load_crush_tree_rootless cyclic_nodes). vm_compute. reflexivity.
Defined.


(** * The scheduler in binary64 arithmetic: properties *)

(** From here on the names are those of [F64]. *)
Import F64.

(** ** Comparisons of floats *)

Lemma SFcompare_antisym (a b : float) :
  SFcompare b a = option_map CompOpp (SFcompare a b).
Proof.
  destruct a as [sa|sa| |sa ma ea], b as [sb|sb| |sb mb eb]; cbn;
    try reflexivity;
    try (destruct sa; reflexivity);
    try (destruct sb; reflexivity);
    try (destruct sa, sb; reflexivity).
  destruct sa, sb; try reflexivity;
    rewrite (Z.compare_antisym ea eb);
    destruct (ea ?= eb); cbn; try reflexivity;
    change (Pos.compare_cont Eq mb ma) with (mb ?= ma)%positive;
    change (Pos.compare_cont Eq ma mb) with (ma ?= mb)%positive;
    rewrite (Pos.compare_antisym ma mb);
    destruct (ma ?= mb)%positive; reflexivity.
Qed.

Lemma SFcompare_number (a b : float) :
  is_nan a = false -> is_nan b = false ->
  exists c, SFcompare a b = Some c.
Proof.
  destruct a, b; cbn; intros Ha Hb; try discriminate; eauto.
Qed.

Lemma SFcompare_refl (a : float) :
  is_nan a = false -> SFcompare a a = Some Eq.
Proof.
  destruct a as [s|s| |s m e]; cbn; intros H; try discriminate;
    try (destruct s; reflexivity).
  rewrite Z.compare_refl.
  change (Pos.compare_cont Eq m m) with (m ?= m)%positive.
  rewrite Pos.compare_refl. destruct s; reflexivity.
Qed.

(** For numbers, "not greater" is "less or equal". *)
Lemma fleb_of_not_fgtb (a b : float) :
  is_nan a = false -> is_nan b = false ->
  fgtb a b = false -> fleb a b = true.
Proof.
  unfold fgtb, fleb, SFltb, SFleb. intros Ha Hb.
  rewrite (SFcompare_antisym a b).
  destruct (SFcompare_number a b Ha Hb) as [c ->].
  destruct c; cbn; congruence.
Qed.

Lemma fgtb_of_fleb (a b : float) : fleb a b = true -> fgtb a b = false.
Proof.
  unfold fgtb, fleb, SFltb, SFleb.
  rewrite (SFcompare_antisym a b).
  destruct (SFcompare a b) as [[| |]|]; cbn; congruence.
Qed.

Lemma fltb_number (a b : float) :
  fltb a b = true -> is_nan a = false /\ is_nan b = false.
Proof.
  unfold fltb, SFltb. destruct a, b; cbn; intros H; try discriminate; auto.
Qed.

Lemma fabs_number (x : float) : is_nan (fabs x) = is_nan x.
Proof. destruct x; reflexivity. Qed.

Lemma fabs_copysign (x y : float) : fabs (copysign x y) = fabs x.
Proof. unfold copysign. destruct (sign_bit y), x; reflexivity. Qed.

Lemma sign_bit_copysign (x y : float) :
  is_nan x = false -> sign_bit (copysign x y) = sign_bit y.
Proof.
  unfold copysign. destruct (sign_bit y), x; cbn; intros H;
    try discriminate; reflexivity.
Qed.

Lemma fabs_positive (x : float) : fltb fzero x = true -> fabs x = x.
Proof.
  unfold fltb, SFltb, fzero.
  destruct x as [s|s| |s m e]; cbn; try discriminate;
    destruct s; cbn; try discriminate; reflexivity.
Qed.

(** ** One service step *)

Lemma f64_cur_weight_set (w : world) (node : CrushNode) (x : float)
  (tr : list event) (p c : nat) :
  cur_weight {| trace := tr; polls := p; calls := c;
                weights := <[id node := x]> (weights w) |} node = Some x.
Proof. unfold cur_weight. cbn. rewrite lookup_insert_eq. reflexivity. Qed.

Lemma f64_cur_weight_insert_other (w : world) (node nd : CrushNode) (x : float)
  (tr : list event) (p c : nat) :
  id nd <> id node ->
  cur_weight {| trace := tr; polls := p; calls := c;
                weights := <[id node := x]> (weights w) |} nd
  = cur_weight w nd.
Proof.
  intros Hne. unfold cur_weight. cbn.
  rewrite lookup_insert_ne by congruence. reflexivity.
Qed.

(** What [service] does when the node has a weight: a closed form.  The
    only call that can fail is the weight update. *)
Lemma service_closed (env : Env) (quiet : bool) (S E : float)
  (node : CrushNode) (path : Path) (W : Q) (x : float) (st : loop_state)
  (w : world) :
  cur_weight w node = Some x ->
  let change := clamped_change S (fl W) x in
  let new_weight := fadd x change in
  let issue := fgtb (fabs change) E in
  let cmd := ceph_osd_crush_set (name node) new_weight (removelast path) in
  service env quiet S E (node, path, W) st w
  = if issue && fails env (calls w)
    then Raise (ExternalFailure (Run cmd))
           {| trace := trace w ++ update_events quiet true cmd;
              polls := polls w;
              calls := Datatypes.S (calls w);
              weights := weights w |}
    else Ret {| rebalance_nodes :=
                  if within E (fl W) new_weight
                  then evict node (rebalance_nodes st)
                  else rebalance_nodes st;
                any_updates := if issue then true else any_updates st;
                already_changed :=
                  if quiet then already_changed st
                  else fadd (already_changed st) (fabs change) |}
             {| trace := trace w ++ update_events quiet issue cmd;
                polls := polls w;
                calls := if issue then Datatypes.S (calls w) else calls w;
                weights := <[id node := new_weight]> (weights w) |}.
Proof.
  intros Hw change new_weight issue cmd.
  unfold service, bind, read_weight. rewrite Hw.
  fold change. fold new_weight. fold issue. fold cmd.
  unfold update_events, within.
  destruct issue; cbn [andb].
  - unfold request_weight_update, bind, info, run, external, print, emit,
      ret, set_weight.
    destruct quiet; cbn [trace polls calls weights];
      destruct (fails env (calls w)); cbn [trace polls calls weights];
      rewrite <- ?List.app_assoc; reflexivity.
  - unfold ret, bind, set_weight. cbn [trace polls calls weights].
    rewrite List.app_nil_r. reflexivity.
Qed.

Lemma service_unweighted (env : Env) (quiet : bool) (S E : float)
  (node : CrushNode) (path : Path) (W : Q) (st : loop_state) (w : world) :
  cur_weight w node = None ->
  service env quiet S E (node, path, W) st w = Raise (Python TypeError) w.
Proof.
  intros Hw. unfold service, bind, read_weight. rewrite Hw. reflexivity.
Qed.

(** The clamp: the change is the difference, or the step with the sign
    of the difference; its magnitude is at most the step. *)
Lemma clamped_change_bound (S W x : float) :
  fltb fzero S = true ->
  is_nan (fsub W x) = false ->
  let d := fsub W x in
  let c := clamped_change S W x in
  fleb (fabs c) S = true
  /\ (fgtb (fabs d) S = false -> c = d)
  /\ (fgtb (fabs d) S = true -> fabs c = S /\ sign_bit c = sign_bit d).
Proof.
  intros HS Hd d c. unfold c, clamped_change. fold d.
  destruct (fltb_number _ _ HS) as [_ HSn].
  destruct (fgtb (fabs d) S) eqn:Hbig.
  - rewrite fabs_copysign, (fabs_positive S HS).
    split; [|split; [discriminate|]].
    + unfold fleb, SFleb. rewrite SFcompare_refl by exact HSn. reflexivity.
    + intros _. split; [reflexivity|].
      apply sign_bit_copysign. exact HSn.
  - split; [|split; [reflexivity|discriminate]].
    apply fleb_of_not_fgtb; [rewrite fabs_number; exact Hd|exact HSn|exact Hbig].
Qed.

Lemma fltb_key (a b : float) :
  is_nan a = false -> is_nan b = false ->
  fltb a b = true <-> key_lt (order_key a) (order_key b).
Proof.
  unfold fltb, SFltb, key_lt.
  destruct a as [sa|sa| |sa ma ea], b as [sb|sb| |sb mb eb];
    intros Ha Hb; try discriminate;
    try (destruct sa); try (destruct sb); cbn;
    try (split; [discriminate|lia]);
    try (split; [intros _; lia|reflexivity]).
  - change (Pos.compare_cont Eq ma mb) with (ma ?= mb)%positive.
    destruct (Z.compare_spec ea eb), (Pos.compare_spec ma mb); cbn;
      split; intros; try discriminate; try reflexivity; lia.
  - change (Pos.compare_cont Eq ma mb) with (ma ?= mb)%positive.
    destruct (Z.compare_spec ea eb), (Pos.compare_spec ma mb); cbn;
      split; intros; try discriminate; try reflexivity; lia.
Qed.

Lemma fleb_key (a b : float) :
  is_nan a = false -> is_nan b = false ->
  fleb a b = true <-> ~ key_lt (order_key b) (order_key a).
Proof.
  intros Ha Hb. rewrite <- (fltb_key b a Hb Ha).
  unfold fleb, fltb, SFleb, SFltb. rewrite (SFcompare_antisym a b).
  destruct (SFcompare_number a b Ha Hb) as [c ->].
  destruct c; cbn; split; congruence.
Qed.

(** [a < b <= c] excludes [c < a]. *)
Lemma fltb_fleb_trans (a b c : float) :
  fltb a b = true -> fleb b c = true -> is_nan c = false ->
  fgtb a c = false.
Proof.
  intros Hab Hbc Hc. destruct (fltb_number _ _ Hab) as [Ha Hb].
  apply (fltb_key a b Ha Hb) in Hab.
  apply (fleb_key b c Hb Hc) in Hbc.
  unfold fgtb. destruct (SFltb c a) eqn:Hca; [|reflexivity].
  apply (fltb_key c a Hc Ha) in Hca.
  exfalso. apply Hbc. unfold key_lt in *. lia.
Qed.

Lemma fleb_number (a b : float) :
  fleb a b = true -> is_nan a = false /\ is_nan b = false.
Proof.
  unfold fleb, SFleb. destruct a, b; cbn; intros H; try discriminate; auto.
Qed.

(** [a <= b <= c] excludes [c < a]. *)
Lemma fleb_fleb_trans (a b c : float) :
  fleb a b = true -> fleb b c = true -> fgtb a c = false.
Proof.
  intros Hab Hbc.
  destruct (fleb_number _ _ Hab) as [Ha Hb].
  destruct (fleb_number _ _ Hbc) as [_ Hc].
  apply (fleb_key a b Ha Hb) in Hab.
  apply (fleb_key b c Hb Hc) in Hbc.
  unfold fgtb. destruct (SFltb c a) eqn:Hca; [|reflexivity].
  apply (fltb_key c a Hc Ha) in Hca.
  exfalso. unfold key_lt in *. lia.
Qed.


(** C9 (as amended): a service issues the weight-update command exactly
    when the clamped change exceeds [min_weight_diff] in magnitude, and
    the command carries the new weight; it commits the new weight in
    either case; it evicts the target exactly when the committed weight
    passes the strict test [|new_weight - W| < min_weight_diff].  With a
    positive step, a target whose remaining difference is at most
    [min_weight_diff] gets no command in that round, and no target gets
    one when the step is at most [min_weight_diff]. *)
Theorem service_issue_and_eviction (env : Env) (quiet : bool) (S E : float)
  (node : CrushNode) (path : Path) (W : Q) (x : float) (st : loop_state)
  (w : world) :
  cur_weight w node = Some x ->
  fails env (calls w) = false ->
  let c := clamped_change S (fl W) x in
  let new_weight := fadd x c in
  exists st' w' added,
    service env quiet S E (node, path, W) st w = Ret st' w'
    /\ trace w' = trace w ++ added
    /\ ((exists cmd, In (Run cmd) added) <-> fgtb (fabs c) E = true)
    /\ (forall cmd, In (Run cmd) added ->
          cmd = ceph_osd_crush_set (name node) new_weight (removelast path))
    /\ cur_weight w' node = Some new_weight
    /\ rebalance_nodes st'
       = (if within E (fl W) new_weight
          then evict node (rebalance_nodes st)
          else rebalance_nodes st)
    /\ (fltb fzero S = true -> is_nan E = false ->
        fleb (fabs (fsub (fl W) x)) E = true ->
        added = [])
    /\ (fltb fzero S = true -> fleb S E = true ->
        is_nan (fsub (fl W) x) = false ->
        added = []).
Proof.
  intros Hw Hok c new_weight.
  eexists _, _, _. split.
  { rewrite (service_closed env quiet S E node path W x st w Hw).
    rewrite Hok, andb_false_r. reflexivity. }
  fold c. fold new_weight. cbn [trace rebalance_nodes].
  split; [reflexivity|].
  assert (Hnone : fgtb (fabs c) E = false ->
                  update_events quiet (fgtb (fabs c) E)
                    (ceph_osd_crush_set (name node) new_weight
                       (removelast path)) = []).
  { intros ->. reflexivity. }
  split; [|split; [|split; [apply f64_cur_weight_set|split; [reflexivity|
    split]]]].
  - unfold update_events. destruct (fgtb (fabs c) E).
    + split; [reflexivity|intros _].
      eexists. apply List.in_or_app. right. left. reflexivity.
    + split; [intros (? & [])|discriminate].
  - unfold update_events. intros cmd Hin.
    destruct (fgtb (fabs c) E); [|destruct Hin].
    apply List.in_app_or in Hin.
    destruct quiet; cbn in Hin; intuition congruence.
  - intros HS HE Hnear. apply Hnone.
    assert (Hd : is_nan (fsub (fl W) x) = false).
    { unfold fleb, SFleb in Hnear.
      destruct (fsub (fl W) x); cbn in Hnear |- *; congruence. }
    destruct (clamped_change_bound S (fl W) x HS Hd) as (_ & Hsmall & Hbig).
    fold c in Hsmall, Hbig.
    destruct (fgtb (fabs (fsub (fl W) x)) S) eqn:Hcl.
    + destruct (Hbig eq_refl) as [Hc _]. rewrite Hc.
      apply (fltb_fleb_trans S (fabs (fsub (fl W) x)) E);
        [exact Hcl|exact Hnear|exact HE].
    + rewrite (Hsmall eq_refl). apply fgtb_of_fleb, Hnear.
  - intros HS HSE Hd. apply Hnone.
    destruct (clamped_change_bound S (fl W) x HS Hd) as (Hle & _ & _).
    exact (fleb_fleb_trans (fabs c) S E Hle HSE).
Qed.

(** ** Calls that succeed *)



(** ** Computations that leave the weights alone *)

Lemma f64_count_updates_app (a b : list event) :
  count_updates (a ++ b) = (count_updates a + count_updates b)%nat.
Proof.
  unfold count_updates. rewrite List.filter_app, List.length_app. reflexivity.
Qed.

Lemma f64_inert_ret {A : Type} (a : A) : inert (ret a).
Proof.
  intros w. cbn. split; [reflexivity|].
  exists []. rewrite List.app_nil_r. auto.
Qed.

Lemma f64_inert_raise {A : Type} (e : error) : inert (@raise A e).
Proof.
  intros w. cbn. split; [reflexivity|].
  exists []. rewrite List.app_nil_r. auto.
Qed.

Lemma f64_inert_bind {A B : Type} (m : M A) (k : A -> M B) :
  inert m -> (forall a, inert (k a)) -> inert (bind m k).
Proof.
  intros Hm Hk w. unfold bind. specialize (Hm w).
  destruct (m w) as [a w1|e w1|]; [|exact Hm|exact I].
  destruct Hm as (Hw & added & Htr & Hc).
  specialize (Hk a w1).
  destruct (k a w1) as [b w2|e w2|]; [| |exact I];
    destruct Hk as (Hw2 & added2 & Htr2 & Hc2);
    (split; [congruence|]);
    exists (added ++ added2);
    rewrite Htr2, Htr, List.app_assoc, f64_count_updates_app, Hc, Hc2; auto.
Qed.

Lemma f64_inert_emit (e : event) : is_update e = false -> inert (emit e).
Proof.
  intros He w. cbn. split; [reflexivity|].
  exists [e]. split; [reflexivity|].
  unfold count_updates. cbn. rewrite He. reflexivity.
Qed.

Lemma f64_inert_external (env : Env) (e : event) :
  is_update e = false -> inert (external env e).
Proof.
  intros He w. unfold external.
  destruct (fails env (calls w)); cbn; (split; [reflexivity|]);
    exists [e]; (split; [reflexivity|]);
    unfold count_updates; cbn; rewrite He; reflexivity.
Qed.

Lemma f64_inert_info (quiet : bool) (msg : message) : inert (info quiet msg).
Proof.
  unfold info.
  destruct quiet; [apply f64_inert_ret|apply f64_inert_emit; reflexivity].
Qed.

Lemma f64_inert_is_rebalance_complete (env : Env) :
  inert (is_rebalance_complete env).
Proof.
  unfold is_rebalance_complete.
  apply f64_inert_bind; [apply f64_inert_external; reflexivity|intros _].
  intros w. cbn. split; [reflexivity|].
  exists []. rewrite List.app_nil_r. auto.
Qed.

Lemma f64_inert_poll (env : Env) (quiet : bool) (fuel : nat) :
  inert (poll_until_complete env quiet fuel).
Proof.
  induction fuel as [|fuel IH]; cbn [poll_until_complete];
    [intros w; exact I|].
  apply f64_inert_bind; [apply f64_inert_is_rebalance_complete|].
  intros [|]; [apply f64_inert_ret|].
  apply f64_inert_bind; [apply f64_inert_info|intros _].
  apply f64_inert_bind; [apply f64_inert_emit; reflexivity|intros _].
  exact IH.
Qed.

Lemma f64_inert_wait (env : Env) (quiet : bool) (fuel : nat) (any : bool) :
  inert (wait_rebalance_to_complete env quiet fuel any).
Proof.
  unfold wait_rebalance_to_complete.
  apply f64_inert_bind.
  { destruct any; [apply f64_inert_ret|apply f64_inert_is_rebalance_complete]. }
  intros [|]; [apply f64_inert_ret|].
  apply f64_inert_bind; [apply f64_inert_info|intros _].
  apply f64_inert_bind.
  { destruct any; [apply f64_inert_emit; reflexivity|apply f64_inert_ret]. }
  intros _.
  apply f64_inert_bind; [apply f64_inert_poll|intros _].
  apply f64_inert_info.
Qed.

Lemma f64_inert_report_progress (env : Env) (quiet : bool) (E total a : float) :
  inert (report_progress env quiet E total a).
Proof.
  unfold report_progress.
  destruct quiet; [apply f64_inert_ret|].
  destruct (fgtb a E); [|apply f64_inert_ret].
  destruct (feqb total fzero); [apply f64_inert_raise|].
  destruct (int_percent env a total);
    [apply f64_inert_emit; reflexivity|apply f64_inert_raise].
Qed.

(** ** Termination of the waits *)





(** ** Rounds *)



(** ** A batch of distinct nodes *)





(** ** The schedule of a queue of distinct nodes *)


















(** ** A step that the addition absorbs *)

(** A batch leaves a stuck target in the queue, at its weight. *)
Lemma stuck_for_each (env : Env) (quiet : bool) (S E : float) (t : target)
  (x : float) (B : list target) :
  next_weight S (fl (desired t)) x = x ->
  within E (fl (desired t)) x = false ->
  (forall b, In b B -> id (node_of b) = id (node_of t) -> b = t) ->
  forall st w st' w',
    In t (rebalance_nodes st) ->
    cur_weight w (node_of t) = Some x ->
    for_each (service env quiet S E) B st w = Ret st' w' ->
    In t (rebalance_nodes st')
    /\ cur_weight w' (node_of t) = Some x
    /\ (forall u, In u (rebalance_nodes st') -> In u (rebalance_nodes st)).
Proof.
  intros Hfix Hout.
  induction B as [|[[node path] W] B IH]; intros Huniq st w st' w' Hin Hx Hrun.
  - cbn in Hrun. inversion Hrun; subst. auto.
  - cbn [for_each] in Hrun. unfold bind in Hrun.
    destruct (cur_weight w node) as [y|] eqn:Hy.
    2:{ rewrite service_unweighted in Hrun by exact Hy. discriminate. }
    rewrite (service_closed env quiet S E node path W y st w Hy) in Hrun.
    destruct (fgtb (fabs (clamped_change S (fl W) y)) E
              && fails env (calls w)); [discriminate|].
    fold (next_weight S (fl W) y) in Hrun.
    match type of Hrun with
    | for_each _ _ ?s ?w0 = _ =>
        destruct (IH (fun b Hb => Huniq b (or_intror Hb)) s w0 st' w')
          as (H1 & H2 & H3); [| |exact Hrun|]
    end.
    + cbn [rebalance_nodes].
      destruct (Z.eq_dec (id node) (id (node_of t))) as [Heq|Hne].
      * assert (Ht : (node, path, W) = t)
          by (apply Huniq; [left; reflexivity|exact Heq]).
        subst t. cbn [node_of desired fst snd] in *.
        assert (y = x) by congruence. subst y.
        rewrite Hfix, Hout. exact Hin.
      * destruct (within E (fl W) (next_weight S (fl W) y)); [|exact Hin].
        apply evict_spec. split; [exact Hin|].
        destruct t as [[nt pt] Wt]. cbn in Hne |- *. congruence.
    + destruct (Z.eq_dec (id node) (id (node_of t))) as [Heq|Hne].
      * assert (Ht : (node, path, W) = t)
          by (apply Huniq; [left; reflexivity|exact Heq]).
        subst t. cbn [node_of desired fst snd] in *.
        assert (y = x) by congruence. subst y.
        rewrite Hfix. apply f64_cur_weight_set.
      * rewrite f64_cur_weight_insert_other by congruence. exact Hx.
    + split; [exact H1|]. split; [exact H2|].
      intros u Hu. specialize (H3 u Hu). cbn [rebalance_nodes] in H3.
      destruct (within E (fl W) (next_weight S (fl W) y)); [|exact H3].
      apply evict_spec in H3. tauto.
Qed.

Lemma in_next_batch (n : Z) (queue : list target) (u : target) :
  In u (next_batch n queue) -> In u queue.
Proof.
  intros H. rewrite <- (py_take_drop n queue).
  apply List.in_or_app. left. exact H.
Qed.

Lemma in_roll_iff (n : Z) (algo : string) (queue : list target) (u : target) :
  In u (roll n algo queue) <-> In u queue.
Proof.
  unfold roll, next_batch. destruct (String.eqb algo "rround"); [|tauto].
  rewrite <- (py_take_drop n queue) at 3.
  rewrite !List.in_app_iff. tauto.
Qed.

Lemma stuck_loop (env : Env) (quiet : bool) (n : Z) (S E : float)
  (algo : string) (total : float) (t : target) (x : float) :
  next_weight S (fl (desired t)) x = x ->
  within E (fl (desired t)) x = false ->
  forall fuel st w rs w',
    In t (rebalance_nodes st) ->
    (forall b, In b (rebalance_nodes st) ->
       id (node_of b) = id (node_of t) -> b = t) ->
    cur_weight w (node_of t) = Some x ->
    rebalance_loop env quiet n S E algo total fuel st w <> Ret rs w'.
Proof.
  intros Hfix Hout.
  induction fuel as [|fuel IH]; intros st w rs w' Hin Huniq Hx H;
    cbn [rebalance_loop] in H;
    destruct (rebalance_nodes st) as [|t0 q0] eqn:Hst;
    try (destruct Hin; fail); try discriminate.
  rewrite <- Hst in *. unfold bind at 1 in H.
  destruct (round env quiet n S E algo total fuel st w)
    as [[batch st1] w1|e w1|] eqn:Hround; try discriminate.
  cbn [fst snd] in H. unfold bind at 1 in H.
  destruct (rebalance_loop env quiet n S E algo total fuel st1 w1)
    as [rs1 w2|e w2|] eqn:Hl; try discriminate.
  unfold round, bind in Hround.
  pose proof (f64_inert_wait env quiet fuel (any_updates st) w) as Hi1.
  destruct (wait_rebalance_to_complete env quiet fuel (any_updates st) w)
    as [[] wa|e wa|]; try discriminate.
  pose proof (f64_inert_report_progress env quiet E total (already_changed st)
                wa) as Hi2.
  destruct (report_progress env quiet E total (already_changed st) wa)
    as [[] wb|e wb|]; try discriminate.
  destruct Hi1 as [Hwa _]. destruct Hi2 as [Hwb _].
  match type of Hround with
  | context [for_each ?f ?b ?s ?w0] =>
      destruct (for_each f b s w0) as [st2 w3|e w3|] eqn:Hfe;
        try discriminate
  end.
  inversion Hround; subst batch st2 w3. clear Hround.
  destruct (stuck_for_each env quiet S E t x _ Hfix Hout
              (fun b Hb => Huniq b (in_next_batch _ _ _ Hb))
              {| rebalance_nodes := roll n algo (rebalance_nodes st);
                 any_updates := false;
                 already_changed := already_changed st |} wb st1 w1
              (proj2 (in_roll_iff n algo (rebalance_nodes st) t) Hin)
              ltac:(unfold cur_weight in *; rewrite Hwb, Hwa; exact Hx)
              Hfe) as (H1 & H2 & H3).
  apply (IH st1 w1 rs1 w2 H1); [|exact H2|exact Hl].
  intros b Hb. apply Huniq.
  apply (in_roll_iff n algo). apply H3. exact Hb.
Qed.

(** X22: a step that the float addition absorbs.  When the queue holds a
    target whose node is the node of no other queued target, whose weight
    [x] does not pass the tolerance test, and whose step leaves [x] as it
    is ([x + c = x] in floats), the scheduler never returns, whatever the
    fuel, the cluster and the other targets. *)
Theorem absorbed_step_never_returns (env : Env) (quiet : bool) (n : Z)
  (S E : float) (algo : string) (total : float) (fuel : nat)
  (queue : list target) (w : world) (t : target) (x : float)
  (log : list (list target)) (w' : world) :
  In t queue ->
  (forall b, In b queue -> id (node_of b) = id (node_of t) -> b = t) ->
  cur_weight w (node_of t) = Some x ->
  next_weight S (fl (desired t)) x = x ->
  within E (fl (desired t)) x = false ->
  schedule env quiet n S E algo total fuel queue w <> Ret log w'.
Proof.
  intros Hin Huniq Hx Hfix Hout H. unfold schedule, bind in H.
  match type of H with
  | context [rebalance_loop ?a ?b ?c ?d ?f ?g ?h ?i ?s ?y] =>
      destruct (rebalance_loop a b c d f g h i s y) as [rs w1|e1 w1|] eqn:Hl
  end; try discriminate.
  exact (stuck_loop env quiet n S E algo total t x Hfix Hout fuel
           {| rebalance_nodes := queue; any_updates := false;
              already_changed := fzero |} w rs w1 Hin Huniq Hx Hl).
Qed.

(** ** A whole run *)




Lemma f64_inert_for_each {A S : Type} (body : A -> S -> M S) (xs : list A) :
  (forall x st, inert (body x st)) -> forall st, inert (for_each body xs st).
Proof.
  intros Hb. induction xs as [|x xs IH]; intros st; cbn [for_each].
  - apply f64_inert_ret.
  - apply f64_inert_bind; [apply Hb|exact IH].
Qed.

Lemma f64_inert_estimate (env : Env) (ts : list target) :
  inert (estimate env ts).
Proof.
  unfold estimate.
  repeat (apply f64_inert_bind;
          [first [apply f64_inert_external; reflexivity
                 |apply f64_inert_emit; reflexivity
                 |apply f64_inert_for_each;
                  intros [[? ?] ?] ?; apply f64_inert_external; reflexivity]
          |intros ?]).
  apply f64_inert_emit. reflexivity.
Qed.




(** ** Calls that fail *)

Lemma unfailing_refl (env : Env) (a : nat) : unfailing env a a.
Proof. intros k Hk. lia. Qed.

Lemma unfailing_trans (env : Env) (a b c : nat) :
  unfailing env a b -> unfailing env b c -> unfailing env a c.
Proof.
  intros H1 H2 k Hk. destruct (Nat.lt_ge_cases k b); [apply H1|apply H2]; lia.
Qed.

Lemma fatal_ret {A : Type} (env : Env) (a : A) : fatal env (ret a).
Proof. intros w. cbn. split; [lia|apply unfailing_refl]. Qed.

Lemma fatal_python {A : Type} (env : Env) (e : exn) :
  fatal env (@raise A (Python e)).
Proof. intros w. cbn. split; [lia|apply unfailing_refl]. Qed.

Lemma fatal_conversion {A : Type} (env : Env) :
  fatal env (@raise A ConversionError).
Proof. intros w. cbn. split; [lia|apply unfailing_refl]. Qed.

Lemma fatal_out_of_fuel {A : Type} (env : Env) : fatal env (@out_of_fuel A).
Proof. intros w. exact I. Qed.

Lemma fatal_bind {A B : Type} (env : Env) (m : M A) (k : A -> M B) :
  fatal env m -> (forall a, fatal env (k a)) -> fatal env (bind m k).
Proof.
  intros Hm Hk w. unfold bind. specialize (Hm w).
  destruct (m w) as [a w1|e w1|]; [|exact Hm|exact I].
  destruct Hm as [Hle Hun]. specialize (Hk a w1).
  destruct (k a w1) as [b w2|[e|call|] w2|]; [| | | |exact I].
  - destruct Hk as [Hle2 Hun2].
    split; [lia|eapply unfailing_trans; eassumption].
  - destruct Hk as [Hle2 Hun2].
    split; [lia|eapply unfailing_trans; eassumption].
  - destruct Hk as (Hlt & Hun2 & Hf & Hpre).
    split; [lia|]. split; [|split; [exact Hf|exact Hpre]].
    eapply unfailing_trans; eassumption.
  - destruct Hk as [Hle2 Hun2].
    split; [lia|eapply unfailing_trans; eassumption].
Qed.

Lemma fatal_emit (env : Env) (e : event) : fatal env (emit e).
Proof. intros w. cbn. split; [lia|apply unfailing_refl]. Qed.

Lemma fatal_external (env : Env) (call : event) :
  fatal env (external env call).
Proof.
  intros w. unfold external.
  destruct (fails env (calls w)) eqn:Hf; cbn [calls trace].
  - split; [lia|]. replace (Datatypes.S (calls w) - 1)%nat with (calls w) by lia.
    split; [apply unfailing_refl|]. split; [exact Hf|eauto].
  - split; [lia|]. intros k Hk. assert (k = calls w) by lia. subst k. exact Hf.
Qed.

Lemma fatal_lift {A : Type} (env : Env) (r : A + exn) : fatal env (lift r).
Proof. destruct r; [apply fatal_ret|apply fatal_python]. Qed.

Lemma fatal_info (env : Env) (quiet : bool) (msg : message) :
  fatal env (info quiet msg).
Proof. unfold info. destruct quiet; [apply fatal_ret|apply fatal_emit]. Qed.

Lemma fatal_read_weight (env : Env) (node : CrushNode) :
  fatal env (read_weight node).
Proof.
  intros w. unfold read_weight.
  destruct (cur_weight w node); cbn; (split; [lia|apply unfailing_refl]).
Qed.

Lemma fatal_set_weight (env : Env) (node : CrushNode) (x : float) :
  fatal env (set_weight node x).
Proof. intros w. cbn. split; [lia|apply unfailing_refl]. Qed.

Lemma fatal_for_each {A S : Type} (env : Env) (body : A -> S -> M S)
  (xs : list A) :
  (forall x st, fatal env (body x st)) ->
  forall st, fatal env (for_each body xs st).
Proof.
  intros Hb. induction xs as [|x xs IH]; intros st; cbn [for_each].
  - apply fatal_ret.
  - apply fatal_bind; [apply Hb|exact IH].
Qed.

Lemma fatal_is_rebalance_complete (env : Env) :
  fatal env (is_rebalance_complete env).
Proof.
  unfold is_rebalance_complete.
  apply fatal_bind; [apply fatal_external|intros _].
  intros w. cbn. split; [lia|apply unfailing_refl].
Qed.

Lemma fatal_poll (env : Env) (quiet : bool) (fuel : nat) :
  fatal env (poll_until_complete env quiet fuel).
Proof.
  induction fuel as [|fuel IH]; cbn [poll_until_complete];
    [apply fatal_out_of_fuel|].
  apply fatal_bind; [apply fatal_is_rebalance_complete|].
  intros [|]; [apply fatal_ret|].
  apply fatal_bind; [apply fatal_info|intros _].
  apply fatal_bind; [apply fatal_emit|intros _].
  exact IH.
Qed.

Lemma fatal_wait (env : Env) (quiet : bool) (fuel : nat) (any : bool) :
  fatal env (wait_rebalance_to_complete env quiet fuel any).
Proof.
  unfold wait_rebalance_to_complete.
  apply fatal_bind.
  { destruct any; [apply fatal_ret|apply fatal_is_rebalance_complete]. }
  intros [|]; [apply fatal_ret|].
  apply fatal_bind; [apply fatal_info|intros _].
  apply fatal_bind.
  { destruct any; [apply fatal_emit|apply fatal_ret]. }
  intros _.
  apply fatal_bind; [apply fatal_poll|intros _].
  apply fatal_info.
Qed.

Lemma fatal_service (env : Env) (quiet : bool) (S E : float) (t : target)
  (st : loop_state) :
  fatal env (service env quiet S E t st).
Proof.
  destruct t as [[node path] W]. unfold service.
  apply fatal_bind; [apply fatal_read_weight|intros x].
  apply fatal_bind.
  { destruct (fgtb _ E); [|apply fatal_ret].
    apply fatal_bind; [|intros _; apply fatal_ret].
    unfold request_weight_update.
    apply fatal_bind; [apply fatal_info|intros _]. apply fatal_external. }
  intros any.
  apply fatal_bind; [apply fatal_set_weight|intros _]. apply fatal_ret.
Qed.

Lemma fatal_report_progress (env : Env) (quiet : bool) (E total a : float) :
  fatal env (report_progress env quiet E total a).
Proof.
  unfold report_progress.
  destruct quiet; [apply fatal_ret|].
  destruct (fgtb a E); [|apply fatal_ret].
  destruct (feqb total fzero); [apply fatal_python|].
  destruct (int_percent env a total);
    [apply fatal_emit|apply fatal_conversion].
Qed.

Lemma fatal_round (env : Env) (quiet : bool) (n : Z) (S E : float)
  (algo : string) (total : float) (fuel : nat) (st : loop_state) :
  fatal env (round env quiet n S E algo total fuel st).
Proof.
  unfold round.
  apply fatal_bind; [apply fatal_wait|intros _].
  apply fatal_bind; [apply fatal_report_progress|intros _].
  apply fatal_bind; [|intros st'; apply fatal_ret].
  apply fatal_for_each. intros t st0. apply fatal_service.
Qed.

Lemma fatal_loop (env : Env) (quiet : bool) (n : Z) (S E : float)
  (algo : string) (total : float) (fuel : nat) :
  forall st, fatal env (rebalance_loop env quiet n S E algo total fuel st).
Proof.
  induction fuel as [|fuel IH]; intros st; cbn [rebalance_loop];
    destruct (rebalance_nodes st); try apply fatal_ret;
    [apply fatal_out_of_fuel|].
  apply fatal_bind; [apply fatal_round|intros r].
  apply fatal_bind; [apply IH|intros rs]. apply fatal_ret.
Qed.

Lemma fatal_schedule (env : Env) (quiet : bool) (n : Z) (S E : float)
  (algo : string) (total : float) (fuel : nat) (queue : list target) :
  fatal env (schedule env quiet n S E algo total fuel queue).
Proof.
  unfold schedule.
  apply fatal_bind; [apply fatal_loop|intros rs].
  apply fatal_bind; [apply fatal_wait|intros _]. apply fatal_ret.
Qed.

Lemma fatal_resolve_targets (env : Env) (quiet : bool) (crush : Crush)
  (entries : list osd_entry) :
  forall acc total,
    fatal env (resolve_targets quiet crush entries acc total).
Proof.
  induction entries as [|entry rest IH]; intros acc total.
  - apply fatal_ret.
  - cbn [resolve_targets].
    apply fatal_bind.
    { destruct (entry_weight entry); [apply fatal_ret|apply fatal_python]. }
    intros new_weight.
    apply fatal_bind; [apply fatal_lift|intros path].
    apply fatal_bind; [apply fatal_lift|intros node].
    apply fatal_bind; [|intros total'; apply IH].
    destruct quiet; [apply fatal_ret|].
    apply fatal_bind; [apply fatal_emit|intros _].
    apply fatal_bind; [apply fatal_read_weight|intros x].
    apply fatal_ret.
Qed.

Lemma fatal_estimate (env : Env) (ts : list target) :
  fatal env (estimate env ts).
Proof.
  unfold estimate.
  repeat (apply fatal_bind;
          [first [apply fatal_external
                 |apply fatal_emit
                 |apply fatal_for_each;
                  intros [[? ?] ?] ?; apply fatal_external]
          |intros ?]).
  apply fatal_emit.
Qed.

Lemma fatal_do_rebalance (env : Env) (quiet : bool) (fuel : nat)
  (config : Config) (args : Args) :
  fatal env (do_rebalance env quiet fuel config args).
Proof.
  unfold do_rebalance.
  apply fatal_bind; [apply fatal_external|intros _].
  apply fatal_bind; [apply fatal_resolve_targets|intros r].
  apply fatal_bind.
  { destruct quiet; [apply fatal_ret|].
    destruct (fltb _ _);
      (apply fatal_bind; [apply fatal_emit|intros _; apply fatal_ret]). }
  intros [|]; [apply fatal_ret|].
  apply fatal_bind.
  { destruct (no_estimate args); [apply fatal_ret|].
    apply fatal_bind; [apply fatal_estimate|intros _; apply fatal_ret]. }
  intros [|]; [apply fatal_ret|]. apply fatal_schedule.
Qed.

(** X23: the failure of a call of a collaborator is fatal and nothing is
    retried.  A run that returns made no call that failed; a run that a
    failed call ends made no call after it: the failed call is the first
    that failed and the last event of the trace. *)
Theorem failing_call_is_fatal (env : Env) (quiet : bool) (fuel : nat)
  (config : Config) (args : Args) (w : world) :
  match do_rebalance env quiet fuel config args w with
  | Ret _ w' => unfailing env (calls w) (calls w')
  | Raise (ExternalFailure call) w' =>
      (calls w < calls w')%nat
      /\ unfailing env (calls w) (calls w' - 1)
      /\ fails env (calls w' - 1) = true
      /\ exists before, trace w' = before ++ [call]
  | _ => True
  end.
Proof.
  pose proof (fatal_do_rebalance env quiet fuel config args w) as H.
  destruct (do_rebalance env quiet fuel config args w) as [a w'|[e|call|] w'|];
    try exact I; [apply H|exact H].
Qed.

(** ** Exceptions of the script *)

Lemma script_safe_ret {A : Type} (a : A) : script_safe (ret a).
Proof. intros w e w' H. discriminate. Qed.

Lemma script_safe_bind {A B : Type} (m : M A) (k : A -> M B) :
  script_safe m -> (forall a, script_safe (k a)) -> script_safe (bind m k).
Proof.
  intros Hm Hk w e w' H. unfold bind in H.
  destruct (m w) as [a w1|e1 w1|] eqn:Hmw; [| |discriminate].
  - exact (Hk a w1 e w' H).
  - inversion H; subst. exact (Hm w e w' Hmw).
Qed.

Lemma script_safe_emit (ev : event) : script_safe (emit ev).
Proof. intros w e w' H. discriminate. Qed.

Lemma script_safe_external (env : Env) (call : event) :
  script_safe (external env call).
Proof.
  intros w e w' H. unfold external in H.
  destruct (fails env (calls w)); discriminate.
Qed.

Lemma script_safe_info (quiet : bool) (msg : message) :
  script_safe (info quiet msg).
Proof.
  unfold info. destruct quiet; [apply script_safe_ret|apply script_safe_emit].
Qed.

Lemma script_safe_is_rebalance_complete (env : Env) :
  script_safe (is_rebalance_complete env).
Proof.
  unfold is_rebalance_complete.
  apply script_safe_bind; [apply script_safe_external|intros _].
  intros w e w' H. discriminate.
Qed.

Lemma script_safe_poll (env : Env) (quiet : bool) (fuel : nat) :
  script_safe (poll_until_complete env quiet fuel).
Proof.
  induction fuel as [|fuel IH]; cbn [poll_until_complete].
  - intros w e w' H. discriminate.
  - apply script_safe_bind; [apply script_safe_is_rebalance_complete|].
    intros [|]; [apply script_safe_ret|].
    apply script_safe_bind; [apply script_safe_info|intros _].
    apply script_safe_bind; [apply script_safe_emit|intros _].
    exact IH.
Qed.

Lemma script_safe_wait (env : Env) (quiet : bool) (fuel : nat) (any : bool) :
  script_safe (wait_rebalance_to_complete env quiet fuel any).
Proof.
  unfold wait_rebalance_to_complete.
  apply script_safe_bind.
  { destruct any;
      [apply script_safe_ret|apply script_safe_is_rebalance_complete]. }
  intros [|]; [apply script_safe_ret|].
  apply script_safe_bind; [apply script_safe_info|intros _].
  apply script_safe_bind.
  { destruct any; [apply script_safe_emit|apply script_safe_ret]. }
  intros _.
  apply script_safe_bind; [apply script_safe_poll|intros _].
  apply script_safe_info.
Qed.

Lemma script_safe_for_each {A S : Type} (body : A -> S -> M S) (xs : list A) :
  (forall x st, script_safe (body x st)) ->
  forall st, script_safe (for_each body xs st).
Proof.
  intros Hb. induction xs as [|x xs IH]; intros st; cbn [for_each].
  - apply script_safe_ret.
  - apply script_safe_bind; [apply Hb|exact IH].
Qed.

Lemma script_safe_estimate (env : Env) (ts : list target) :
  script_safe (estimate env ts).
Proof.
  unfold estimate.
  repeat (apply script_safe_bind;
          [first [apply script_safe_external
                 |apply script_safe_emit
                 |apply script_safe_for_each;
                  intros [[? ?] ?] ?; apply script_safe_external]
          |intros ?]).
  apply script_safe_emit.
Qed.

(** The progress line divides by a total that is not zero. *)
Lemma script_safe_report_progress (env : Env) (quiet : bool)
  (E total a : float) :
  (quiet = false -> feqb total fzero = false) ->
  script_safe (report_progress env quiet E total a).
Proof.
  intros Hz. unfold report_progress.
  destruct quiet; [apply script_safe_ret|].
  destruct (fgtb a E); [|apply script_safe_ret].
  rewrite (Hz eq_refl).
  destruct (int_percent env a total); [apply script_safe_emit|].
  intros w e w' H. discriminate.
Qed.

(** A total that passed the aggregate check of a positive tolerance is
    not zero. *)
Lemma checked_total_nonzero (total E : float) :
  fltb fzero E = true -> fltb total E = false -> feqb total fzero = false.
Proof.
  unfold fltb, feqb, SFltb, SFeqb, fzero.
  destruct total as [s|s| |s m e]; cbn; intros HE Ht.
  - destruct E; cbn in *; congruence.
  - destruct s; reflexivity.
  - reflexivity.
  - destruct s; reflexivity.
Qed.

(** A batch whose nodes have a weight raises no exception of the script,
    and it leaves the weighted nodes weighted. *)
Lemma f64_for_each_service_weighted (env : Env) (quiet : bool) (S E : float)
  (batch : list target) :
  forall (st : loop_state) (w : world),
    weighted w batch ->
    match for_each (service env quiet S E) batch st w with
    | Ret st' w' =>
        (forall nd, cur_weight w nd <> None -> cur_weight w' nd <> None)
        /\ (forall t, In t (rebalance_nodes st') -> In t (rebalance_nodes st))
    | Raise (Python _) _ => False
    | _ => True
    end.
Proof.
  induction batch as [|[[node path] W] batch IH]; intros st w Hw.
  - cbn. auto.
  - cbn [for_each]. unfold bind.
    destruct (cur_weight w node) as [x|] eqn:Hx.
    2:{ destruct (Hw (node, path, W)); [left; reflexivity|exact Hx]. }
    rewrite (service_closed env quiet S E node path W x st w Hx).
    destruct (fgtb (fabs (clamped_change S (fl W) x)) E
              && fails env (calls w)); [exact I|].
    match goal with |- context [for_each _ _ ?s ?w0] =>
      set (st1 := s); set (w1 := w0) end.
    assert (Hkeep : forall nd, cur_weight w nd <> None ->
                               cur_weight w1 nd <> None).
    { intros nd Hnd. unfold w1.
      destruct (Z.eq_dec (id nd) (id node)) as [Heq|Hne].
      - unfold cur_weight. cbn [weights]. rewrite Heq, lookup_insert_eq.
        discriminate.
      - rewrite f64_cur_weight_insert_other by exact Hne. exact Hnd. }
    specialize (IH st1 w1 (fun t Ht => Hkeep _ (Hw t (or_intror Ht)))).
    destruct (for_each (service env quiet S E) batch st1 w1)
      as [st' w'|[e|call|] w'|]; try exact I; [|exact IH].
    destruct IH as [Hkeep' Hq]. split; [auto|].
    intros t Ht. apply Hq in Ht. unfold st1 in Ht. cbn [rebalance_nodes] in Ht.
    destruct (within _ _ _); [|exact Ht].
    apply evict_spec in Ht. tauto.
Qed.

(** With every queued node weighted and a non-zero total (when not quiet)
    the loop raises no exception of the script. *)
Lemma f64_loop_script_safe (env : Env) (quiet : bool) (n : Z) (S E : float)
  (algo : string) (total : float) (fuel : nat) :
  (quiet = false -> feqb total fzero = false) ->
  forall (st : loop_state) (w : world) (e : exn) (w' : world),
    weighted w (rebalance_nodes st) ->
    rebalance_loop env quiet n S E algo total fuel st w <> Raise (Python e) w'.
Proof.
  intros Hz.
  induction fuel as [|fuel IH]; intros st w e w' Hw H;
    cbn [rebalance_loop] in H;
    destruct (rebalance_nodes st) as [|t0 q0] eqn:Hq; try discriminate.
  rewrite <- Hq in *.
  unfold bind at 1 in H. unfold round in H.
  unfold bind at 1 in H.
  pose proof (f64_inert_wait env quiet fuel (any_updates st) w) as Hin.
  pose proof (script_safe_wait env quiet fuel (any_updates st) w) as Hnr.
  destruct (wait_rebalance_to_complete env quiet fuel (any_updates st) w)
    as [[] w1|e1 w1|]; [| |discriminate].
  2:{ inversion H; subst. exact (Hnr _ _ eq_refl). }
  destruct Hin as [Hw1 _].
  unfold bind at 1 in H.
  pose proof (f64_inert_report_progress env quiet E total (already_changed st)
                w1) as Hin2.
  pose proof (script_safe_report_progress env quiet E total
                (already_changed st) Hz w1) as Hnr2.
  destruct (report_progress env quiet E total (already_changed st) w1)
    as [[] w2|e2 w2|]; [| |discriminate].
  2:{ inversion H; subst. exact (Hnr2 _ _ eq_refl). }
  destruct Hin2 as [Hw2 _].
  unfold bind at 1 in H.
  assert (Hcw : forall nd, cur_weight w2 nd = cur_weight w nd).
  { intros nd. unfold cur_weight. rewrite Hw2, Hw1. reflexivity. }
  match type of H with
  | context [for_each ?f ?b ?s ?x] =>
      pose proof (f64_for_each_service_weighted env quiet S E b s x) as Hfe;
      destruct (for_each f b s x) as [st' w3|e3 w3|]
  end; [| |discriminate].
  - destruct Hfe as [Hkeep Hsub].
    { intros t Ht. rewrite Hcw. apply Hw. exact (in_next_batch _ _ _ Ht). }
    unfold ret at 1 in H. cbn [snd fst] in H.
    unfold bind at 1 in H.
    destruct (rebalance_loop env quiet n S E algo total fuel st' w3)
      as [rs w4|e4 w4|] eqn:Hloop; [discriminate| |discriminate].
    inversion H; subst.
    apply (IH st' w3 e w'); [|exact Hloop].
    intros t Ht. apply Hkeep. rewrite Hcw. apply Hw.
    apply Hsub in Ht. cbn [rebalance_nodes] in Ht.
    apply (in_roll_iff n algo). exact Ht.
  - inversion H; subst. apply Hfe.
    intros t Ht. rewrite Hcw. apply Hw. exact (in_next_batch _ _ _ Ht).
Qed.

Lemma f64_schedule_script_safe (env : Env) (quiet : bool) (n : Z)
  (S E : float) (algo : string) (total : float) (fuel : nat)
  (queue : list target) (w : world) (e : exn) (w' : world) :
  (quiet = false -> feqb total fzero = false) ->
  weighted w queue ->
  schedule env quiet n S E algo total fuel queue w <> Raise (Python e) w'.
Proof.
  intros Hz Hw H. unfold schedule, bind in H.
  match type of H with
  | context [rebalance_loop ?a ?b ?c ?d ?f ?g ?h ?i ?s ?x] =>
      pose proof (f64_loop_script_safe a b c d f g h i Hz s x) as Hl;
      destruct (rebalance_loop a b c d f g h i s x) as [rs w1|e1 w1|]
  end; [| |discriminate].
  - pose proof (script_safe_wait env quiet fuel false w1) as Hnr.
    destruct (wait_rebalance_to_complete env quiet fuel false w1)
      as [[] w2|e2 w2|]; [discriminate| |discriminate].
    inversion H; subst. exact (Hnr _ _ eq_refl).
  - inversion H; subst. exact (Hl e w' Hw eq_refl).
Qed.

(** The resolution prints and reads; when it is not quiet it has read the
    weight of every node it queues. *)
Lemma f64_resolve_targets_prints (crush : Crush) (entries : list osd_entry) :
  forall (acc : list target) (total : float) (w : world),
    match resolve_targets false crush entries acc total w with
    | Ret r w' =>
        weights w' = weights w /\ polls w' = polls w
        /\ (exists added, trace w' = trace w ++ added
                          /\ Forall resolution_step added)
        /\ (weighted w acc -> weighted w (fst r))
    | Raise _ w' =>
        weights w' = weights w /\ polls w' = polls w
        /\ exists added, trace w' = trace w ++ added
                         /\ Forall resolution_step added
    | OutOfFuel => True
    end.
Proof.
  induction entries as [|entry rest IH]; intros acc total w.
  - cbn. repeat split; try (exists []; rewrite List.app_nil_r; auto). auto.
  - assert (Hnil : exists added : list event,
               trace w = trace w ++ added /\ Forall resolution_step added)
      by (exists []; rewrite List.app_nil_r; auto).
    cbn [resolve_targets].
    cbv beta iota delta [bind ret raise lift print emit read_weight].
    destruct (entry_weight entry) as [W|]; [|auto].
    destruct (sort_path (location entry)) as [path|e]; [|auto].
    destruct (find_node crush path) as [node|e]; [|auto].
    cbn [trace polls calls weights].
    set (w0 := {| trace := trace w ++ [Print (msg_target node (fl W))];
                  polls := polls w; calls := calls w;
                  weights := weights w |}).
    assert (Hcw : forall nd, cur_weight w0 nd = cur_weight w nd)
      by reflexivity.
    rewrite Hcw.
    destruct (cur_weight w node) as [x|] eqn:Hx.
    2:{ split; [reflexivity|]. split; [reflexivity|].
        eexists. split; [reflexivity|]. repeat constructor. }
    specialize (IH (acc ++ [(node, path, W)])
                   (fadd total (fabs (fsub x (fl W)))) w0).
    cbv beta iota delta [bind ret raise lift print emit read_weight] in IH.
    match goal with
    | |- match ?m with _ => _ end =>
        match type of IH with
        | match ?m' with _ => _ end => change m with m'; destruct m' as [r w'|e w'|]
        end
    end; [| |exact I].
    + destruct IH as (Hw' & Hp' & (added & Htr & Hall) & Hwt).
      split; [exact Hw'|]. split; [exact Hp'|]. split.
      * exists (Print (msg_target node (fl W)) :: added).
        rewrite Htr. unfold w0. cbn [trace].
        rewrite <- List.app_assoc. split; [reflexivity|].
        constructor; [exact I|exact Hall].
      * intros Hacc t Ht. rewrite <- Hcw. revert t Ht. apply Hwt.
        intros t Ht. rewrite Hcw. apply List.in_app_or in Ht.
        destruct Ht as [Ht|[<-|[]]]; [exact (Hacc t Ht)|].
        cbn [node_of fst]. congruence.
    + destruct IH as (Hw' & Hp' & added & Htr & Hall).
      split; [exact Hw'|]. split; [exact Hp'|].
      exists (Print (msg_target node (fl W)) :: added).
      rewrite Htr. unfold w0. cbn [trace].
      rewrite <- List.app_assoc. split; [reflexivity|].
      constructor; [exact I|exact Hall].
Qed.

(** X3: when the run is not quiet and [min_weight_diff] is positive, an
    exception of the script itself (a [TypeError] of arithmetic on the
    weight of a node that has none, a [ZeroDivisionError] of the progress
    line, a [KeyError], [IndexError] or [ValueError] of the resolution) is
    raised, if at all, while the targets are resolved: the run has then
    run the topology query and printed, and nothing else.  Once the
    scheduler has started, only the failure of a call, or of the
    conversion of the progress line, ends the run early. *)
Theorem runtime_errors_come_before_changes (env : Env) (fuel : nat)
  (config : Config) (args : Args) (w w' : world) (e : exn) :
  do_rebalance env false fuel config args w = Raise (Python e) w' ->
  fltb fzero (fl (default (1 # 100)%Q (min_weight_diff config))) = true ->
  weights w' = weights w
  /\ polls w' = polls w
  /\ exists added, trace w' = trace w ++ added
                   /\ Forall resolution_step added.
Proof.
  intros Hrun HE. unfold do_rebalance in Hrun.
  unfold bind at 1, run, external in Hrun.
  destruct (fails env (calls w)); [discriminate|].
  unfold bind at 1 in Hrun.
  match type of Hrun with
  | context [resolve_targets ?q ?c ?es ?acc ?t ?w0] =>
      pose proof (f64_resolve_targets_prints c es acc t w0) as Hres;
      destruct (resolve_targets q c es acc t w0) as [[ts total] w1|e1 w1|]
  end; [| |discriminate].
  - exfalso. cbn [fst snd] in Hrun.
    destruct Hres as (Hw1 & _ & _ & Hwt).
    specialize (Hwt (fun t (H : In t []) => match H with end)).
    cbn [fst] in Hwt.
    unfold bind at 1 in Hrun.
    destruct (fltb total (fl (default (1 # 100)%Q (min_weight_diff config))))
      eqn:Hlt; [discriminate|].
    pose proof (checked_total_nonzero _ _ HE Hlt) as Hz.
    cbv beta iota delta [bind print emit ret] in Hrun.
    destruct (no_estimate args).
    + eapply f64_schedule_script_safe; [| |exact Hrun].
      * intros _. exact Hz.
      * intros t Ht. specialize (Hwt t Ht). unfold cur_weight in *.
        cbn [weights] in *. rewrite Hw1. exact Hwt.
    + match type of Hrun with
      | context [estimate env ts ?x] =>
          pose proof (f64_inert_estimate env ts x) as Hie;
          pose proof (script_safe_estimate env ts x) as Hse;
          destruct (estimate env ts x) as [[] w3|e3 w3|]
      end; [| |discriminate].
      2:{ inversion Hrun; subst. exact (Hse _ _ eq_refl). }
      destruct Hie as [Hw3 _].
      destruct (estimate_only args); [discriminate|].
      eapply f64_schedule_script_safe; [| |exact Hrun].
      * intros _. exact Hz.
      * intros t Ht. specialize (Hwt t Ht). unfold cur_weight in *.
        rewrite Hw3. cbn [weights] in *. rewrite Hw1. exact Hwt.
  - inversion Hrun; subst.
    destruct Hres as (Hw & Hp & added & Htr & Hall).
    split; [exact Hw|]. split; [exact Hp|].
    exists (Run ceph_osd_tree :: added).
    rewrite Htr. cbn [trace]. rewrite <- List.app_assoc.
    split; [reflexivity|]. constructor; [exact I|exact Hall].
Qed.

(** ** Instances and counterexamples in binary64 *)



(** The scenario of the specification in floats: [osd.0] at 0.5 is taken
    to 0.2 in steps of 0.1, in three rounds; the weights issued are 0.4,
    0.30000000000000004 and 0.20000000000000004. *)
Example end_to_end_scenario :
  exists log w',
    do_rebalance settled_env true 10
      (sample_config 1 (1 # 10) (1 # 100) [entry_of "osd.0" "osd-0" (1 # 5)])
      no_estimate_args init_world = Ret log w'
    /\ log = [[target_0 (1 # 5)]; [target_0 (1 # 5)]; [target_0 (1 # 5)]]
    /\ List.filter is_update (trace w')
       = [Run (ceph_osd_crush_set "osd.0"
                 (S754_finite false 7205759403792794 (-54))
                 [("root", "default"); ("host", "osd-0")]);
          Run (ceph_osd_crush_set "osd.0"
                 (S754_finite false 5404319552844596 (-54))
                 [("root", "default"); ("host", "osd-0")]);
          Run (ceph_osd_crush_set "osd.0"
                 (S754_finite false 7205759403792795 (-55))
                 [("root", "default"); ("host", "osd-0")])]
    /\ (3 # 10 < value (S754_finite false 5404319552844596 (-54)))%Q
    /\ (1 # 5 < value (S754_finite false 7205759403792795 (-55)))%Q.
Proof.
  eexists _, _. split; [vm_compute; reflexivity|].
  split; [reflexivity|]. split; [reflexivity|].
  split; vm_compute; reflexivity.
Qed.



(** The claim of C9 fails on the code: with a positive step and a
    positive [min_weight_diff], a target at 0.5 whose desired weight
    0.5078125 is exactly [min_weight_diff = 0.0078125] away gets no
    command, as claimed, but is not evicted: the step [1e-20] is absorbed
    by the addition, the weight stays 0.5, and
    [|0.5 - 0.5078125| < 0.0078125] is false.  And [min_weight_diff] does
    not bound what separates the cluster from the desired weight: with
    [step = min_weight_diff = 0.01] the run that takes [osd.0] from 0.5 to
    0.2 returns after 29 rounds without one weight update, the cluster
    still at 0.5. *)
Lemma silent_eviction_counterexample :
  (exists st' w',
     service settled_env true (fl (1 # 100000000000000000000)) (fl (1 # 128))
       (target_0 (65 # 128)) (fresh_loop [target_0 (65 # 128)]) init_world
     = Ret st' w'
     /\ fltb fzero (fl (1 # 100000000000000000000)) = true
     /\ fltb fzero (fl (1 # 128)) = true
     /\ fleb (fabs (fsub (fl (65 # 128)) (fl (1 # 2)))) (fl (1 # 128)) = true
     /\ trace w' = []
     /\ cur_weight w' osd_0 = Some (fl (1 # 2))
     /\ rebalance_nodes st' = [target_0 (65 # 128)])
  /\ (exists log w',
        schedule settled_env true 1 (fl (1 # 100)) (fl (1 # 100)) "rround"
          fzero 60 [target_0 (1 # 5)] init_world = Ret log w'
        /\ length log = 29%nat
        /\ count_updates (trace w') = 0%nat
        /\ fltb (fl (1 # 100)) (fabs (fsub (fl (1 # 2)) (fl (1 # 5)))) = true).
Proof.
  split.
  - eexists _, _. split; [vm_compute; reflexivity|].
    repeat split; vm_compute; reflexivity.
  - eexists _, _. split; [vm_compute; reflexivity|].
    repeat split; vm_compute; reflexivity.
Qed.

Lemma service_issue_and_eviction_witness :
  exists st' w' added,
    service settled_env true (fl (1 # 10)) (fl (1 # 100))
      (target_0 (101 # 200)) (fresh_loop [target_0 (101 # 200)]) init_world
    = Ret st' w'
    /\ trace w' = trace init_world ++ added
    /\ added = []
    /\ rebalance_nodes st' = evict osd_0 [target_0 (101 # 200)].
Proof.
  destruct (service_issue_and_eviction settled_env true (fl (1 # 10))
              (fl (1 # 100)) osd_0 (path_of "osd.0" "osd-0") (101 # 200)
              (fl (1 # 2)) (fresh_loop [target_0 (101 # 200)]) init_world
              eq_refl eq_refl)
    as (st' & w' & added & Hrun & Htr & _ & _ & _ & Hq & Hnone & _).
  exists st', w', added.
  split; [exact Hrun|]. split; [exact Htr|].
  split; [apply Hnone; reflexivity|].
  rewrite Hq. reflexivity.
Defined.




Lemma absorbed_step_never_returns_witness :
  schedule settled_env true 1 (fl (1 # 100000000000000000)) (fl (1 # 100))
    "rround" fzero 10 [target_0 (6 # 10)] init_world
  <> Ret [] init_world.
Proof.
  apply (absorbed_step_never_returns settled_env true 1
           (fl (1 # 100000000000000000)) (fl (1 # 100)) "rround" fzero 10
           [target_0 (6 # 10)] init_world (target_0 (6 # 10)) (fl (1 # 2))
           [] init_world).
  - left. reflexivity.
  - intros b [<-|[]] _. reflexivity.
  - reflexivity.
  - vm_compute. reflexivity.
  - vm_compute. reflexivity.
Defined.


Lemma runtime_errors_come_before_changes_witness :
  weights (mkWorld [Run ceph_osd_tree; Print (msg_target host_0 (fl (1 # 2)))]
                   0 1 ∅) = weights init_world
  /\ polls (mkWorld [Run ceph_osd_tree;
                     Print (msg_target host_0 (fl (1 # 2)))] 0 1 ∅)
     = polls init_world
  /\ exists added,
       trace (mkWorld [Run ceph_osd_tree;
                       Print (msg_target host_0 (fl (1 # 2)))] 0 1 ∅)
       = trace init_world ++ added
       /\ Forall resolution_step added.
Proof.
  apply (runtime_errors_come_before_changes settled_env 0
           (sample_config 1 (1 # 10) (1 # 100) [host_entry (1 # 2)])
           no_estimate_args init_world
           (mkWorld [Run ceph_osd_tree;
                     Print (msg_target host_0 (fl (1 # 2)))] 0 1 ∅)
           TypeError).
  - vm_compute. reflexivity.
  - vm_compute. reflexivity.
Defined.
